(** * BiblioHelper: the heuristic reference pipeline, embedded and verified

    A shallow embedding of [analyze_references.py] (entry parser, citation
    locator, usage classifier, theme classifier, table emission) and of the
    table normalizer of [extract_references.py] (markdown parsing, theme
    consolidation), with the properties the specification states about them.

    Python [str] values are sequences of Unicode code points; they are
    modelled as lists of code points, so that [len], slicing and indexing
    count what Python counts. *)

From Stdlib Require Import Strings.String Strings.Ascii Strings.Byte.
From Stdlib Require Import List NArith ZArith Bool Lia.
From Stdlib Require Import Permutation Sorted.
From Stdlib Require DecimalString.
Import ListNotations.

Local Open Scope N_scope.

(** ** Code points and string literals *)

Definition char := N.
Definition pystr := list char.

(** The source files are UTF-8; a literal of this file is decoded from its
    bytes to the code points Python sees. *)
Fixpoint utf8_decode (bs : list N) : pystr :=
  match bs with
  | [] => []
  | b0 :: t0 =>
    if b0 <? 128 then b0 :: utf8_decode t0
    else match t0 with
    | [] => [b0]
    | b1 :: t1 =>
      if b0 <? 224 then ((b0 - 192) * 64 + (b1 - 128)) :: utf8_decode t1
      else match t1 with
      | [] => [b0; b1]
      | b2 :: t2 =>
        if b0 <? 240
        then ((b0 - 224) * 4096 + (b1 - 128) * 64 + (b2 - 128)) :: utf8_decode t2
        else match t2 with
        | [] => [b0; b1; b2]
        | b3 :: t3 =>
          ((b0 - 240) * 262144 + (b1 - 128) * 4096 + (b2 - 128) * 64 + (b3 - 128))
            :: utf8_decode t3
        end
      end
    end
  end.

Definition u (s : string) : pystr :=
  utf8_decode (map Byte.to_N (list_byte_of_string s)).

Definition ch_nl : char := 10.
Definition ch_space : char := 32.
Definition ch_lpar : char := 40.
Definition ch_rpar : char := 41.
Definition ch_comma : char := 44.
Definition ch_minus : char := 45.
Definition ch_dot : char := 46.
Definition ch_colon : char := 58.
Definition ch_bslash : char := 92.
Definition ch_pipe : char := 124.

(** [Py_UNICODE_ISSPACE]: the characters [str.strip()] removes and the class
    [\s] of a [str] pattern matches. *)
Definition is_space (c : char) : bool :=
  ((9 <=? c) && (c <=? 13)) || ((28 <=? c) && (c <=? 32))
  || (c =? 133) || (c =? 160) || (c =? 5760)
  || ((8192 <=? c) && (c <=? 8202))
  || (c =? 8232) || (c =? 8233) || (c =? 8239) || (c =? 8287) || (c =? 12288).

(** [[0-9]] and [[a-z]] of a pattern compiled without flags. *)
Definition is_digit (c : char) : bool := (48 <=? c) && (c <=? 57).
Definition is_lower_az (c : char) : bool := (97 <=? c) && (c <=? 122).

(** ** Python string primitives *)

Fixpoint str_eqb (a b : pystr) : bool :=
  match a, b with
  | [], [] => true
  | x :: a', y :: b' => (x =? y) && str_eqb a' b'
  | _, _ => false
  end.

Fixpoint startswith (p s : pystr) : bool :=
  match p, s with
  | [], _ => true
  | a :: p', b :: s' => (a =? b) && startswith p' s'
  | _ :: _, [] => false
  end.

(** [sub in s] *)
Fixpoint contains (sub s : pystr) : bool :=
  startswith sub s ||
  match s with
  | [] => false
  | _ :: s' => contains sub s'
  end.

(** [any(word in s for word in words)] *)
Definition any_in (words : list pystr) (s : pystr) : bool :=
  existsb (fun w => contains w s) words.

(** [x in l] on a list of strings *)
Definition mem_str (x : pystr) (l : list pystr) : bool :=
  existsb (str_eqb x) l.

Fixpoint lstrip (s : pystr) : pystr :=
  match s with
  | [] => []
  | c :: s' => if is_space c then lstrip s' else s
  end.

Definition rstrip (s : pystr) : pystr := rev (lstrip (rev s)).

(** [s.strip()] *)
Definition strip (s : pystr) : pystr := rstrip (lstrip s).

(** [s.split(sep)] for a one-character separator: never empty. *)
Fixpoint split_char (sep : char) (s : pystr) : list pystr :=
  match s with
  | [] => [[]]
  | c :: s' =>
    if c =? sep then [] :: split_char sep s'
    else match split_char sep s' with
         | [] => [[c]]
         | w :: ws => (c :: w) :: ws
         end
  end.

(** [sep.join(l)] *)
Fixpoint join (sep : pystr) (l : list pystr) : pystr :=
  match l with
  | [] => []
  | [x] => x
  | x :: l' => x ++ sep ++ join sep l'
  end.

(** [s.replace(old, new)] for a non-empty [old]: occurrences are replaced
    left to right without overlap; [skip] counts the characters of an
    occurrence still to be dropped. *)
Fixpoint replace_from (old new : pystr) (skip : nat) (s : pystr) : pystr :=
  match s with
  | [] => []
  | c :: s' =>
    match skip with
    | S k => replace_from old new k s'
    | O => if startswith old s
           then new ++ replace_from old new (List.length old - 1) s'
           else c :: replace_from old new 0 s'
    end
  end.

Definition replace (old new s : pystr) : pystr := replace_from old new 0 s.

(** [s[a:b]] for [0 <= a], [0 <= b] *)
Definition slice (a b : nat) (s : pystr) : pystr := firstn (b - a) (skipn a s).

(** [str(n)] of an [int] *)
Definition str_of_string (s : string) : pystr :=
  map Byte.to_N (list_byte_of_string s).

Definition str_of_int (n : Z) : pystr :=
  str_of_string (DecimalString.NilZero.string_of_int (Z.to_int n)).

(** ** Regular expressions

    The patterns of the scripts are sequences of one-character classes with
    greedy quantifiers, one capturing group, and the anchors [^] and [$].
    [re_match] is the backtracking matcher of Python's [re]: a quantifier
    takes as much as it can and gives characters back only when the rest of
    the pattern fails. *)

Inductive quant := One | Opt | Star | Plus.

Inductive atom :=
| At (q : quant) (p : char -> bool)
| GOpen
| GClose
| Bol
| Eol.

Definition regex := list atom.

Record mres := { m_end : nat; m_g1 : option (nat * nat) }.

Fixpoint star (p : char -> bool) (k : nat -> pystr -> option mres)
         (pos : nat) (s : pystr) : option mres :=
  match s with
  | c :: s' =>
    if p c then
      match star p k (S pos) s' with
      | Some x => Some x
      | None => k pos s
      end
    else k pos s
  | [] => k pos []
  end.

(** [re_match r g pos s]: [s] is the text from position [pos] on, [g] the
    position at which group 1 was opened. *)
Fixpoint re_match (r : regex) (g : option nat) (pos : nat) (s : pystr)
  {struct r} : option mres :=
  match r with
  | [] => Some {| m_end := pos; m_g1 := None |}
  | At One p :: r' =>
    match s with
    | c :: s' => if p c then re_match r' g (S pos) s' else None
    | [] => None
    end
  | At Opt p :: r' =>
    match s with
    | c :: s' =>
      if p c then
        match re_match r' g (S pos) s' with
        | Some x => Some x
        | None => re_match r' g pos s
        end
      else re_match r' g pos s
    | [] => re_match r' g pos s
    end
  | At Star p :: r' => star p (re_match r' g) pos s
  | At Plus p :: r' =>
    match s with
    | c :: s' => if p c then star p (re_match r' g) (S pos) s' else None
    | [] => None
    end
  | GOpen :: r' => re_match r' (Some pos) pos s
  | GClose :: r' =>
    match re_match r' g pos s with
    | Some x => Some {| m_end := m_end x;
                        m_g1 := option_map (fun a => (a, pos)) g |}
    | None => None
    end
  | Bol :: r' => if Nat.eqb pos 0 then re_match r' g pos s else None
  | Eol :: r' =>
    match s with
    | [] => re_match r' g pos s
    | [c] => if c =? ch_nl then re_match r' g pos s else None
    | _ => None
    end
  end.

(** A match object: where the match starts, where it ends, group 1. *)
Record rmatch := { r_start : nat; r_end : nat; r_g1 : option (nat * nat) }.

Definition mk_rmatch (start : nat) (x : mres) : rmatch :=
  {| r_start := start; r_end := m_end x; r_g1 := m_g1 x |}.

(** [re.match(r, text)] *)
Definition py_re_match (r : regex) (text : pystr) : option rmatch :=
  option_map (mk_rmatch 0) (re_match r None 0 text).

(** [re.search(r, text)]: the leftmost position at which [r] matches. *)
Fixpoint search_from (r : regex) (pos : nat) (s : pystr) : option rmatch :=
  match re_match r None pos s with
  | Some x => Some (mk_rmatch pos x)
  | None =>
    match s with
    | [] => None
    | _ :: s' => search_from r (S pos) s'
    end
  end.

Definition py_re_search (r : regex) (text : pystr) : option rmatch :=
  search_from r 0 text.

(** [re.finditer(r, text)]: successive leftmost matches without overlap; the
    scan resumes where the previous match ended ([skip] characters ahead),
    one character further after an empty match. *)
Fixpoint finditer_from (r : regex) (pos skip : nat) (s : pystr) : list rmatch :=
  match skip with
  | S k =>
    match s with
    | [] => []
    | _ :: s' => finditer_from r (S pos) k s'
    end
  | O =>
    match re_match r None pos s with
    | Some x =>
      mk_rmatch pos x ::
      match s with
      | [] => []
      | _ :: s' => finditer_from r (S pos) (m_end x - pos - 1) s'
      end
    | None =>
      match s with
      | [] => []
      | _ :: s' => finditer_from r (S pos) 0 s'
      end
    end
  end.

Definition py_re_finditer (r : regex) (text : pystr) : list rmatch :=
  finditer_from r 0 0 text.

(** [re.sub(r, repl, text)] for a replacement without group references. *)
Fixpoint sub_from (r : regex) (repl : pystr) (pos skip : nat) (s : pystr) : pystr :=
  match skip with
  | S k =>
    match s with
    | [] => []
    | _ :: s' => sub_from r repl (S pos) k s'
    end
  | O =>
    match re_match r None pos s with
    | Some x =>
      match s with
      | [] => repl
      | c :: s' =>
        if Nat.eqb (m_end x) pos
        then repl ++ c :: sub_from r repl (S pos) 0 s'
        else repl ++ sub_from r repl (S pos) (m_end x - pos - 1) s'
      end
    | None =>
      match s with
      | [] => []
      | c :: s' => c :: sub_from r repl (S pos) 0 s'
      end
    end
  end.

Definition py_re_sub (r : regex) (repl text : pystr) : pystr :=
  sub_from r repl 0 0 text.

(** [m.group(0)] and [m.group(1)] *)
Definition group0 (text : pystr) (mt : rmatch) : pystr :=
  slice (r_start mt) (r_end mt) text.

Definition group1 (text : pystr) (mt : rmatch) : pystr :=
  match r_g1 mt with
  | Some (a, b) => slice a b text
  | None => []
  end.

(** Pattern pieces *)
Definition lit (c : char) : atom := At One (N.eqb c).
Definition lits (s : pystr) : regex := map lit s.

(** ** Errors

    A Python exception is [None]; the only operation of the modelled code
    that can raise is indexing a list. *)

Definition bind {A B : Type} (x : option A) (f : A -> option B) : option B :=
  match x with
  | Some a => f a
  | None => None
  end.

Notation "x <- e ;; k" := (bind e (fun x => k))
  (at level 61, e at next level, right associativity).

(** [l[0]]: [IndexError] on an empty list *)
Definition index0 {A : Type} (l : list A) : option A := nth_error l 0.

(** ** analyze_references.py: the entry parser *)

Record ParsedReference := {
  authors : pystr;
  year : pystr;
  title : pystr;
  doi : pystr;
  full_ref : pystr;
  display : pystr
}.

(** [\(([0-9]{4}[a-z]?)\)] *)
Definition YEAR_RE : regex :=
  [lit ch_lpar; GOpen;
   At One is_digit; At One is_digit; At One is_digit; At One is_digit;
   At Opt is_lower_az; GClose; lit ch_rpar].

(** [https?://doi\.org/([^\s,]+)] *)
Definition DOI_RE : regex :=
  lits (u "http") ++ [At Opt (N.eqb 115)] ++ lits (u "://doi.org/")
  ++ [GOpen; At Plus (fun c => negb (is_space c || (c =? ch_comma))); GClose].

(** [\s+] *)
Definition WS_RE : regex := [At Plus is_space].

(** [^[^,]+] *)
Definition TITLE_RE : regex := [Bol; At Plus (fun c => negb (c =? ch_comma))].

Section EntryParser.

(** [str.lower]: Unicode lowercasing is left to the runtime; everything
    below holds whatever it does. *)
Variable lower : pystr -> pystr.

Definition parse_authors (ref_text : pystr) (year_match : option rmatch)
  : option pystr :=
  match year_match with
  | Some ym =>
    let authors_part := strip (slice 0 (r_start ym) ref_text) in
    let authors_part := py_re_sub WS_RE (u " ") authors_part in
    if contains (u ", ") authors_part then
      tok <- index0 (split_char ch_comma authors_part) ;;
      let first_author := strip tok in
      if contains (u "et al") (lower authors_part) then
        Some (first_author ++ u " et al.")
      else
        let authors_list :=
          map strip (firstn 3 (split_char ch_comma authors_part)) in
        let authors := join (u ", ") authors_list in
        if Nat.ltb 3 (List.length (split_char ch_comma authors_part))
        then Some (authors ++ u " et al.")
        else Some authors
    else Some authors_part
  | None =>
    if contains (u ",") ref_text
    then index0 (split_char ch_comma ref_text)
    else Some (firstn 50 ref_text)
  end.

Definition parse_title (ref_text : pystr) (year_match : option rmatch) : pystr :=
  match year_match with
  | Some ym =>
    let after_year := strip (skipn (r_end ym) ref_text) in
    match py_re_match TITLE_RE after_year with
    | Some tm =>
      let title := strip (group0 after_year tm) in
      let title := py_re_sub WS_RE (u " ") title in
      if Nat.ltb 100 (List.length title)
      then firstn 100 title ++ u "..."
      else title
    | None => []
    end
  | None => []
  end.

(** [f"{authors} ({year})"], then [" - {title}"] when [title] is truthy *)
Definition ref_display (authors year title : pystr) : pystr :=
  let d := authors ++ u " (" ++ year ++ u ")" in
  match title with
  | [] => d
  | _ :: _ => d ++ u " - " ++ title
  end.

Definition parse_reference (ref_text : pystr) : option ParsedReference :=
  let year_match := py_re_search YEAR_RE ref_text in
  let year :=
    match year_match with
    | Some ym => group1 ref_text ym
    | None => []
    end in
  let doi_match := py_re_search DOI_RE ref_text in
  let doi_url :=
    match doi_match with
    | Some dm => group0 ref_text dm
    | None => []
    end in
  authors <- parse_authors ref_text year_match ;;
  let title := parse_title ref_text year_match in
  Some {| authors := authors;
          year := year;
          title := title;
          doi := doi_url;
          full_ref := ref_text;
          display := ref_display authors year title |}.

End EntryParser.

(** ** analyze_references.py: citation locator, usage and theme classifiers *)

Record Citation := { position : nat; context : pystr }.

Definition DEFAULT_USAGE : pystr :=
  Eval vm_compute in u "Référence citée dans la bibliographie mais usage non détecté dans le texte".

Definition L_METHOD : pystr := Eval vm_compute in u "justification de méthode".
Definition L_FRAME : pystr := Eval vm_compute in u "cadre théorique".
Definition L_RESULT : pystr := Eval vm_compute in u "comparaison de résultats".
Definition L_HYPOTHESIS : pystr := Eval vm_compute in u "appui d'hypothèse".
Definition L_EXAMPLE : pystr := Eval vm_compute in u "exemple ou application".
Definition L_GENERAL : pystr := Eval vm_compute in u "référence générale".

Definition KW_METHOD : list pystr :=
  Eval vm_compute in
  map u ["méthode"; "method"; "technique"; "approche"; "algorithme"]%string.
Definition KW_FRAME : list pystr :=
  Eval vm_compute in
  map u ["cadre"; "framework"; "théorie"; "theory"; "modèle"; "model"]%string.
Definition KW_RESULT : list pystr :=
  Eval vm_compute in
  map u ["résultat"; "result"; "comparaison"; "comparison"; "donnée"; "data"]%string.
Definition KW_HYPOTHESIS : list pystr :=
  Eval vm_compute in
  map u ["hypothèse"; "hypothesis"; "appuie"; "support"]%string.
Definition KW_EXAMPLE : list pystr :=
  Eval vm_compute in
  map u ["exemple"; "example"; "cas"; "case"; "application"]%string.

Definition T_GNSS : pystr := Eval vm_compute in u "Méthodes GNSS-Acoustique".
Definition T_GEODESY : pystr := Eval vm_compute in u "Géodésie des fonds marins".
Definition T_OPTIM : pystr := Eval vm_compute in u "Optimisation et traitement de données".
Definition T_MODEL : pystr := Eval vm_compute in u "Modélisation et simulation".
Definition T_INSTR : pystr := Eval vm_compute in u "Instruments et techniques de mesure".
Definition T_APPLI : pystr := Eval vm_compute in u "Applications et études de cas".

Definition KW_GNSS : list pystr :=
  Eval vm_compute in
  map u ["gnss"; "gps"; "acoustic"; "acoustique"; "positioning";
         "positionnement"; "seafloor"; "fond de mer"]%string.
Definition KW_GEODESY : list pystr :=
  Eval vm_compute in
  map u ["geodesy"; "géodésie"; "deformation"; "déformation"; "strain";
         "fault"; "faille"]%string.
Definition KW_OPTIM : list pystr :=
  Eval vm_compute in
  map u ["optimization"; "optimisation"; "processing"; "traitement";
         "algorithm"; "algorithme"; "filter"; "filtre"]%string.
Definition KW_MODEL : list pystr :=
  Eval vm_compute in
  map u ["model"; "modèle"; "simulation"; "numerical"; "numérique";
         "theoretical"; "théorique"]%string.
Definition KW_INSTR : list pystr :=
  Eval vm_compute in
  map u ["instrument"; "sensor"; "capteur"; "measurement"; "mesure";
         "pressure"; "pression"; "tiltmeter"]%string.

Section Analysis.

Variable lower : pystr -> pystr.

(** [ci_eq c d]: the pattern character [c] matches the text character [d]
    under [re.IGNORECASE]. *)
Variable ci_eq : char -> char -> bool.

(** [set(l)] iterated: the elements of [l], each once, in the order of the
    runtime's hash table. *)
Variable set_iter : list pystr -> list pystr.

(** [re.escape(s)] compiled with [re.IGNORECASE] *)
Definition ilit (c : char) : atom := At One (ci_eq c).
Definition ilits (s : pystr) : regex := map ilit s.

(** [\({re.escape(year)}\)] *)
Definition year_pattern (year : pystr) : regex :=
  [ilit ch_lpar] ++ ilits year ++ [ilit ch_rpar].

(** [{re.escape(first_author)}\s+et\s+al\.?\s*\({re.escape(year)}\)] *)
Definition etal_pattern (first_author year : pystr) : regex :=
  ilits first_author ++ [At Plus is_space] ++ ilits (u "et")
  ++ [At Plus is_space] ++ ilits (u "al") ++ [At Opt (ci_eq ch_dot)]
  ++ [At Star is_space] ++ year_pattern year.

(** [{re.escape(first_author)}[^,]*\({re.escape(year)}\)] *)
Definition author_pattern (first_author year : pystr) : regex :=
  ilits first_author ++ [At Star (fun c => negb (c =? ch_comma))]
  ++ year_pattern year.

Definition mk_citation (text : pystr) (mt : rmatch) : Citation :=
  let start := (r_start mt - 200)%nat in
  let stop := Nat.min (List.length text) (r_end mt + 200)%nat in
  {| position := r_start mt; context := slice start stop text |}.

Definition pattern1 (ref_parsed : ParsedReference) : option regex :=
  tok <- index0 (split_char ch_comma (authors ref_parsed)) ;;
  let first_author := strip tok in
  if contains (u " et al") (lower (authors ref_parsed))
  then Some (etal_pattern first_author (year ref_parsed))
  else Some (author_pattern first_author (year ref_parsed)).

Definition pattern2 (ref_parsed : ParsedReference) : regex :=
  year_pattern (year ref_parsed).

Definition find_reference_citations (text : pystr) (ref_parsed : ParsedReference)
  : option (list Citation) :=
  match year ref_parsed with
  | [] => Some []
  | _ :: _ =>
    p1 <- pattern1 ref_parsed ;;
    let p2 := pattern2 ref_parsed in
    Some (fold_left
            (fun citations pattern =>
               fold_left (fun cs mt => cs ++ [mk_citation text mt])
                         (py_re_finditer pattern text) citations)
            [p1; p2] [])
  end.

(** The [if]/[elif] chain of one loop iteration *)
Definition classify_context (ctx : pystr) : pystr :=
  let ctx := lower ctx in
  if any_in KW_METHOD ctx then L_METHOD
  else if any_in KW_FRAME ctx then L_FRAME
  else if any_in KW_RESULT ctx then L_RESULT
  else if any_in KW_HYPOTHESIS ctx then L_HYPOTHESIS
  else if any_in KW_EXAMPLE ctx then L_EXAMPLE
  else L_GENERAL.

Definition usage_contexts_of (citations : list Citation) : list pystr :=
  fold_left (fun acc c => acc ++ [classify_context (context c)])
            (firstn 3 citations) [].

Definition base_importance (n : nat) : Z :=
  if Nat.ltb 5 n then 85%Z
  else if Nat.ltb 2 n then 70%Z
  else if Nat.ltb 0 n then 50%Z
  else 50%Z.

Definition analyze_reference_usage (text : pystr) (ref_parsed : ParsedReference)
  : option (pystr * Z) :=
  citations <- find_reference_citations text ref_parsed ;;
  match citations with
  | [] => Some (DEFAULT_USAGE, 30%Z)
  | _ :: _ =>
    let usage_contexts := usage_contexts_of citations in
    let importance := base_importance (List.length citations) in
    let importance :=
      if mem_str L_METHOD usage_contexts || mem_str L_FRAME usage_contexts
      then Z.min 100 (importance + 15)
      else importance in
    let usage_description :=
      match usage_contexts with
      | [] => L_GENERAL
      | _ :: _ => join (u ", ") (set_iter usage_contexts)
      end in
    Some (usage_description, importance)
  end.

Definition categorize_theme (ref_parsed : ParsedReference) (usage_desc : pystr)
  : pystr :=
  let full_text := lower (full_ref ref_parsed ++ u " " ++ usage_desc) in
  if any_in KW_GNSS full_text then T_GNSS
  else if any_in KW_GEODESY full_text then T_GEODESY
  else if any_in KW_OPTIM full_text then T_OPTIM
  else if any_in KW_MODEL full_text then T_MODEL
  else if any_in KW_INSTR full_text then T_INSTR
  else T_APPLI.

End Analysis.

(** ** analyze_references.py: table emission *)

Record ResultRow := {
  reference : pystr;
  theme : pystr;
  usage : pystr;
  importance : Z;
  row_year : pystr;
  link : pystr
}.

Definition HEADER_LINE : pystr :=
  Eval vm_compute in u "| Référence | Thème | Arguments étayés | Note d'importance | Année | Lien web |".

Definition SEPARATOR_LINE : pystr :=
  Eval vm_compute in u "|-----------|-------|------------------|-------------------|-------|----------|".

(** [f"| {ref} | {theme} | {usage} | {importance} | {year} | {link} |"] with
    [ref = result['reference'].replace('|', '\|')] *)
Definition row_line (r : ResultRow) : pystr :=
  let ref := replace [ch_pipe] [ch_bslash; ch_pipe] (reference r) in
  u "| " ++ ref ++ u " | " ++ theme r ++ u " | " ++ usage r ++ u " | "
  ++ str_of_int (importance r) ++ u " | " ++ row_year r ++ u " | "
  ++ link r ++ u " |".

(** What the [print] calls write to standard output *)
Definition emit_table (results : list ResultRow) : pystr :=
  concat (map (fun l => l ++ [ch_nl])
              (HEADER_LINE :: SEPARATOR_LINE :: map row_line results)).

(** The [Table] a list of results stands for *)
Definition TABLE_HEADERS : list pystr :=
  Eval vm_compute in
  map u ["Référence"; "Thème"; "Arguments étayés"; "Note d'importance";
         "Année"; "Lien web"]%string.

Definition row_cells (r : ResultRow) : list pystr :=
  [reference r; theme r; usage r; str_of_int (importance r); row_year r; link r].

(** ** extract_references.py: the table normalizer *)

(** [^[\|\s\-:]+$] *)
Definition SEP_RE : regex :=
  [Bol;
   At Plus (fun c => (c =? ch_pipe) || is_space c || (c =? ch_minus) || (c =? ch_colon));
   Eol].

(** [l[1:-1]] *)
Definition middle {A : Type} (l : list A) : list A := removelast (tl l).

(** The mis-encoded substrings and what they stand for *)
Definition BAD_REFERENCE : pystr := Eval vm_compute in u "RÃ©fÃ©rence".
Definition GOOD_REFERENCE : pystr := Eval vm_compute in u "Référence".
Definition BAD_ARGUMENTS : pystr := Eval vm_compute in u "Arguments Ã©tayÃ©s".
Definition GOOD_ARGUMENTS : pystr := Eval vm_compute in u "Arguments étayés".
Definition NOTE_IMPORTANCE : pystr := Eval vm_compute in u "Note d'importance".
Definition BAD_THEME : pystr := Eval vm_compute in u "ThÃ¨me".
Definition GOOD_THEME : pystr := Eval vm_compute in u "Thème".
Definition BAD_ANNEE : pystr := Eval vm_compute in u "AnnÃ©e".
Definition GOOD_ANNEE : pystr := Eval vm_compute in u "Année".

Definition fix_header (h : pystr) : pystr :=
  replace BAD_ANNEE GOOD_ANNEE
    (replace BAD_THEME GOOD_THEME
      (replace NOTE_IMPORTANCE NOTE_IMPORTANCE
        (replace BAD_ARGUMENTS GOOD_ARGUMENTS
          (replace BAD_REFERENCE GOOD_REFERENCE h)))).

Definition fix_cell (c : pystr) : pystr :=
  replace BAD_ANNEE GOOD_ANNEE
    (replace BAD_THEME GOOD_THEME
      (replace BAD_ARGUMENTS GOOD_ARGUMENTS
        (replace BAD_REFERENCE GOOD_REFERENCE c))).

Definition is_blank (s : pystr) : bool :=
  match s with
  | [] => true
  | _ :: _ => false
  end.

Definition is_separator (line : pystr) : bool :=
  match py_re_match SEP_RE line with
  | Some _ => true
  | None => false
  end.

Definition split_cells (line : pystr) : list pystr :=
  map strip (middle (split_char ch_pipe line)).

Definition parse_markdown_table (table_content : pystr)
  : list pystr * list (list pystr) :=
  match table_content with
  | [] => ([], [])
  | _ :: _ =>
    let lines :=
      map strip
          (filter (fun line => negb (is_blank (strip line)))
                  (split_char ch_nl table_content)) in
    if Nat.ltb (List.length lines) 2 then ([], [])
    else
      let data_lines := filter (fun line => negb (is_separator line)) lines in
      match data_lines with
      | [] => ([], [])
      | header_line :: rest =>
        let headers := map fix_header (split_cells header_line) in
        let data_rows :=
          fold_left
            (fun rows line =>
               let cells := split_cells line in
               if Nat.eqb (List.length cells) (List.length headers)
               then rows ++ [map fix_cell cells]
               else rows)
            rest [] in
        (headers, data_rows)
      end
  end.

(** [headers.index(x)]: [None] stands for [ValueError] *)
Fixpoint list_index (x : pystr) (l : list pystr) : option nat :=
  match l with
  | [] => None
  | y :: l' => if str_eqb y x then Some O else option_map S (list_index x l')
  end.

(** A [dict] with [str] keys keeps its keys in insertion order. *)
Definition dict (V : Type) := list (pystr * V).

Fixpoint dict_get {V : Type} (k : pystr) (d : dict V) : option V :=
  match d with
  | [] => None
  | (k', v) :: d' => if str_eqb k' k then Some v else dict_get k d'
  end.

(** [d[k] = v]: an existing key keeps its place *)
Fixpoint dict_set {V : Type} (k : pystr) (v : V) (d : dict V) : dict V :=
  match d with
  | [] => [(k, v)]
  | (k', v') :: d' =>
    if str_eqb k' k then (k', v) :: d' else (k', v') :: dict_set k v d'
  end.

(** [row[i] = v] for [i < len(row)] *)
Fixpoint list_set (i : nat) (v : pystr) (row : list pystr) : list pystr :=
  match row, i with
  | [], _ => []
  | _ :: t, O => v :: t
  | x :: t, S j => x :: list_set j v t
  end.

(** [sorted(items, key=lambda x: x[1], reverse=True)]: stable, larger
    counts first. *)
Fixpoint insert_desc (x : pystr * nat) (l : list (pystr * nat))
  : list (pystr * nat) :=
  match l with
  | [] => [x]
  | y :: l' =>
    if Nat.ltb (snd x) (snd y) then y :: insert_desc x l' else x :: y :: l'
  end.

Definition sorted_desc (items : list (pystr * nat)) : list (pystr * nat) :=
  fold_right insert_desc [] items.

Definition AUTRE : pystr := Eval vm_compute in u "Autre".
Definition THEME_HEADER : pystr := Eval vm_compute in u "Thème".

Definition count_themes (theme_idx : nat) (data_rows : list (list pystr))
  : dict nat :=
  fold_left
    (fun theme_counts row =>
       match nth_error row theme_idx with
       | Some cell =>
         let theme := strip cell in
         let n := match dict_get theme theme_counts with
                  | Some n => n
                  | None => O
                  end in
         dict_set theme (n + 1)%nat theme_counts
       | None => theme_counts
       end)
    data_rows [].

Definition theme_mapping_of (main_themes other_themes : list pystr) : dict pystr :=
  let m := fold_left (fun m t => dict_set t t m) main_themes [] in
  let m := dict_set AUTRE AUTRE m in
  fold_left (fun m t => dict_set t AUTRE m) other_themes m.

Definition apply_mapping (theme_idx : nat) (theme_mapping : dict pystr)
           (row : list pystr) : list pystr :=
  match nth_error row theme_idx with
  | Some cell =>
    match dict_get (strip cell) theme_mapping with
    | Some t => list_set theme_idx t row
    | None => row
    end
  | None => row
  end.

Definition consolidate_themes (headers : list pystr)
           (data_rows : list (list pystr)) (max_themes : nat)
  : list pystr * list (list pystr) :=
  match list_index THEME_HEADER headers with
  | None => (headers, data_rows)
  | Some theme_idx =>
    let theme_counts := count_themes theme_idx data_rows in
    if Nat.leb (List.length theme_counts) max_themes then (headers, data_rows)
    else
      let sorted_themes := sorted_desc theme_counts in
      let main_themes := map fst (firstn max_themes sorted_themes) in
      let other_themes := map fst (skipn max_themes sorted_themes) in
      match other_themes with
      | [] => (headers, data_rows)
      | _ :: _ =>
        let theme_mapping := theme_mapping_of main_themes other_themes in
        (headers, map (apply_mapping theme_idx theme_mapping) data_rows)
      end
  end.

(** The distinct theme values of a table, in order of first appearance *)
Definition themes_of (theme_idx : nat) (data_rows : list (list pystr))
  : list pystr :=
  map fst (count_themes theme_idx data_rows).

(** ** A concrete runtime, for evaluation *)

(** [str.lower] on the Basic Latin and Latin-1 Supplement blocks, where it
    maps one code point to one. *)
Definition lower_char (c : char) : char :=
  if ((65 <=? c) && (c <=? 90))
     || ((192 <=? c) && (c <=? 222) && negb (c =? 215))
  then c + 32 else c.

Definition lower_latin1 (s : pystr) : pystr := map lower_char s.

Definition ci_eq_latin1 (c d : char) : bool := lower_char c =? lower_char d.

(** ** Vocabulary of the statements *)

(** *** Entries and their years *)

(** Four ASCII digits, then at most one ASCII lowercase letter *)
Definition year_shape (y : pystr) : bool :=
  match y with
  | [a; b; c; d] => is_digit a && is_digit b && is_digit c && is_digit d
  | [a; b; c; d; e] =>
    is_digit a && is_digit b && is_digit c && is_digit d && is_lower_az e
  | _ => false
  end.

(** [s] holds the parenthesized year [y] at offset [length pre]. *)
Definition paren_year_at (s pre y post : pystr) : Prop :=
  year_shape y = true /\ s = pre ++ ch_lpar :: y ++ ch_rpar :: post.

(** The whitespace-normalized form of a piece of text: stripped, every run
    of whitespace replaced by one space. *)
Definition normalize_ws (s : pystr) : pystr :=
  py_re_sub WS_RE (u " ") (strip s).

(** The authors field as the specification words it, from the normalized
    text before the year. *)
Definition authors_as_specified (before : pystr) : pystr :=
  let tokens := split_char ch_comma before in
  if contains (u "et al.") before
  then strip (hd [] tokens) ++ u " et al."
  else join (u ", ") (map strip (firstn 3 tokens))
       ++ (if Nat.ltb 3 (List.length tokens) then u " et al." else []).

(** *** Keyword rules *)

(** Some word of [words] occurs in [text]. *)
Definition occurs_any (words : list pystr) (text : pystr) : Prop :=
  exists w pre post, In w words /\ text = pre ++ w ++ post.

(** The rule list of [categorize_theme], in the order of its [if]/[elif]
    chain. *)
Definition THEME_RULES : list (list pystr * pystr) :=
  [(KW_GNSS, T_GNSS); (KW_GEODESY, T_GEODESY); (KW_OPTIM, T_OPTIM);
   (KW_MODEL, T_MODEL); (KW_INSTR, T_INSTR)].

(** The six-label vocabulary *)
Definition THEME_LABELS : list pystr :=
  [T_GNSS; T_GEODESY; T_OPTIM; T_MODEL; T_INSTR; T_APPLI].

(** The label of the first rule with a keyword in [text] *)
Fixpoint first_match (rules : list (list pystr * pystr)) (text default : pystr)
  : pystr :=
  match rules with
  | [] => default
  | (kws, label) :: rules' =>
    if any_in kws text then label else first_match rules' text default
  end.

(** *** Usage labels and sets of labels *)

(** A method-justification or theoretical-framing label among the
    classified windows (the first three citations) *)
Definition key_usage_detected (lower : pystr -> pystr) (cs : list Citation)
  : Prop :=
  exists c,
    In c (firstn 3 cs) /\
    (classify_context lower (context c) = L_METHOD
     \/ classify_context lower (context c) = L_FRAME).

(** An implementation of [set] over labels: what iterating [set(l)] yields.
    Every element of [l] comes once; the order is the implementation's. *)
Record PySet := {
  elements : list pystr -> list pystr;
  elements_NoDup : forall l, NoDup (elements l);
  elements_In : forall l x, In x (elements l) <-> In x l
}.

(** The elements of [l] in the order of their first occurrence *)
Fixpoint first_occurrences (seen l : list pystr) : list pystr :=
  match l with
  | [] => []
  | x :: l' =>
    if mem_str x seen then first_occurrences seen l'
    else x :: first_occurrences (x :: seen) l'
  end.

(** The order in which the labels were first appended *)
Definition insertion_order (l : list pystr) : list pystr :=
  first_occurrences [] l.

(** CPython keeps a set in an open-addressing table and iterates over the
    slots of the table; the slot of a key comes from its hash, which for
    [str] keys is salted anew in every process. [table_order slot l] lists
    the keys by slot, the keys of one slot in insertion order. *)
Fixpoint insert_by_slot (slot : pystr -> nat) (x : pystr) (t : list pystr)
  : list pystr :=
  match t with
  | [] => [x]
  | y :: t' =>
    if Nat.ltb (slot x) (slot y) then x :: y :: t'
    else y :: insert_by_slot slot x t'
  end.

(** Iteration order of the set built from [l] in a table with these slots *)
Definition table_order (slot : pystr -> nat) (l : list pystr) : list pystr :=
  fold_left (fun t x => insert_by_slot slot x t) (insertion_order l) [].

(** One assignment of slots in a table of eight *)
Definition length_slot (s : pystr) : nat := Nat.modulo (List.length s) 8.

(** *** Literal patterns *)

(** The first characters of [s] are accepted by the classes [ps], one each. *)
Fixpoint prefix_ok (ps : list (char -> bool)) (s : pystr) : bool :=
  match ps, s with
  | [], _ => true
  | p :: ps', c :: s' => p c && prefix_ok ps' s'
  | _ :: _, [] => false
  end.

(** The pattern made of one atom per class: an escaped literal *)
Definition ones (ps : list (char -> bool)) : regex := map (At One) ps.

(** [ends_in ps pos s x]: the match [x], found at [pos] in front of [s],
    ends with characters that the atoms [ps] accept one by one. *)
Definition ends_in (ps : list (char -> bool)) (pos : nat) (s : pystr)
           (x : mres) : Prop :=
  exists n,
    (n + List.length ps <= List.length s)%nat /\
    m_end x = (pos + n + List.length ps)%nat /\
    prefix_ok ps (skipn n s) = true.

(** The number of matches [re.finditer] finds for the literal [ps] *)
Definition count_lit (ps : list (char -> bool)) (s : pystr) : nat :=
  List.length (finditer_from (ones ps) 0 0 s).

(** The atoms of [\({re.escape(year)}\)] *)
Definition year_atoms (ci_eq : char -> char -> bool) (year : pystr)
  : list (char -> bool) :=
  ci_eq ch_lpar :: map ci_eq year ++ [ci_eq ch_rpar].

(** *** Tables *)

(** The class [[\|\s\-:]] *)
Definition sep_class (c : char) : bool :=
  (c =? ch_pipe) || is_space c || (c =? ch_minus) || (c =? ch_colon).

(** A cell as a row line carries it, between two spaces *)
Definition pad (c : pystr) : pystr := ch_space :: c ++ [ch_space].

(** Cells without pipe or line feed, already stripped *)
Definition clean_cell (c : pystr) : Prop :=
  ~ In ch_pipe c /\ ~ In ch_nl c /\ strip c = c.

(** A row whose five text cells are clean; the importance is a numeral. *)
Definition clean_row (r : ResultRow) : Prop :=
  clean_cell (reference r) /\ clean_cell (theme r) /\ clean_cell (usage r)
  /\ clean_cell (row_year r) /\ clean_cell (link r).

(** The theme cells of a table laid out as [TABLE_HEADERS] *)
Definition theme_column (data_rows : list (list pystr)) : list pystr :=
  map (fun row => nth 1 row []) data_rows.

(** The keys of a [dict], in insertion order *)
Definition keys {V : Type} (d : dict V) : list pystr := map fst d.

(** The themes that consolidation keeps: the [max_themes] most frequent
    ones, ties in order of first appearance *)
Definition kept_themes (theme_idx max_themes : nat)
           (data_rows : list (list pystr)) : list pystr :=
  map fst (firstn max_themes (sorted_desc (count_themes theme_idx data_rows))).

(** *** Sample inputs *)

(** The entry of the end-to-end scenario *)
Definition ex_entry : pystr :=
  u "Smith, J. (2019). A Great Method. J. Geophys., 10, 1-10. https://doi.org/10.1/xyz".

(** A text citing [ex_ref] once by author and three times by year *)
Definition ex_text : pystr :=
  u "Intro. Smith (2019) proposed this method for x. Also (2019) and SMITH, J. (2019).".

(** A parsed reference with author and year *)
Definition ex_ref : ParsedReference :=
  {| authors := u "Smith, J."; year := u "2019"; title := [];
     doi := []; full_ref := ex_entry; display := [] |}.

(** Two bare-year citations more than 400 characters apart: the first window
    speaks of theory, the second of method. *)
Definition ex_text2 : pystr :=
  u "theory (2019)" ++ repeat ch_dot 410 ++ u "method (2019)".

(** The reference cited in [ex_text2] *)
Definition ex_ref2 : ParsedReference :=
  {| authors := u "Smith"; year := u "2019"; title := [];
     doi := []; full_ref := []; display := [] |}.

(** An entry of several authors closed by [et al.] *)
Definition ex_etal_entry : pystr :=
  Eval vm_compute in u "Dupont, A. et al. (2019a), Waves, J. Geo.".

(** A text citing it twice: with [et al.] at offset 3 (year at 17) and by
    the surname alone at offset 37 (year at 44) *)
Definition ex_etal_text : pystr :=
  Eval vm_compute in u "As Dupont et al. (2019a) showed, and Dupont (2019a), ...".

(** A row whose reference holds a pipe *)
Definition ex_row_pipe : ResultRow :=
  {| reference := u "Smith, J. (2019) - Waves | Tides";
     theme := T_APPLI; usage := DEFAULT_USAGE; importance := 30;
     row_year := u "2019"; link := [] |}.

(** A row with clean cells *)
Definition ex_row_clean : ResultRow :=
  {| reference := u "Smith, J. (2019) - Waves and Tides";
     theme := T_APPLI; usage := DEFAULT_USAGE; importance := 30;
     row_year := u "2019"; link := [] |}.

(** A row of theme [t] *)
Definition theme_row (t : string) : list pystr :=
  [u "Doe (2019)"; u t; u "x"; u "50"; u "2019"; []].

(** Twelve rows over nine themes: T9 three times, T8 twice, the others
    once. *)
Definition ex_nine_themes : list (list pystr) :=
  map theme_row
      ["T1"; "T2"; "T3"; "T4"; "T5"; "T6"; "T7"; "T8"; "T9"; "T9"; "T8"; "T9"]%string.

(** ** analyze_references.py: the segmenter *)

Definition BIB_MARKER : pystr := Eval vm_compute in u "BIBLIOGRAPHIE".
Definition NEXT_SECTION : pystr := Eval vm_compute in u "Titre :".

(** [s.find(sub)]: the lowest index at which [sub] occurs; [None] stands
    for [-1]. *)
Fixpoint find_from (sub s : pystr) (pos : nat) : option nat :=
  if startswith sub s then Some pos
  else match s with
       | [] => None
       | _ :: s' => find_from sub s' (S pos)
       end.

Definition py_find (sub s : pystr) : option nat := find_from sub s 0.

Definition is_upper_az (c : char) : bool := (65 <=? c) && (c <=? 90).

(** The class [[a-zA-Z\s,\.&]] *)
Definition author_class (c : char) : bool :=
  is_lower_az c || is_upper_az c || is_space c
  || (c =? ch_comma) || (c =? ch_dot) || (c =? 38).

(** [^[A-Z][a-zA-Z\s,\.&]+,\s*\([0-9]{4}] *)
Definition ENTRY_COMMA_RE : regex :=
  [Bol; At One is_upper_az; At Plus author_class; lit ch_comma;
   At Star is_space; lit ch_lpar;
   At One is_digit; At One is_digit; At One is_digit; At One is_digit].

(** [^[A-Z][a-zA-Z\s,\.&]+\s+\([0-9]{4}] *)
Definition ENTRY_SPACE_RE : regex :=
  [Bol; At One is_upper_az; At Plus author_class; At Plus is_space;
   lit ch_lpar;
   At One is_digit; At One is_digit; At One is_digit; At One is_digit].

Definition starts_entry (line : pystr) : bool :=
  match py_re_match ENTRY_COMMA_RE line with
  | Some _ => true
  | None =>
    match py_re_match ENTRY_SPACE_RE line with
    | Some _ => true
    | None => false
    end
  end.

(** The three lines that close an entry: join, filter on length, append *)
Definition flush_ref (current_ref references : list pystr) : list pystr :=
  match current_ref with
  | [] => references
  | _ :: _ =>
    let ref_text := join (u " ") current_ref in
    if negb (is_blank ref_text) && Nat.ltb 20 (List.length ref_text)
    then references ++ [ref_text]
    else references
  end.

(** One iteration of the loop over the lines, on the pair
    [(references, current_ref)] *)
Definition segment_step (st : list pystr * list pystr) (line : pystr)
  : list pystr * list pystr :=
  let (references, current_ref) := st in
  let line := strip line in
  if is_blank line then
    match current_ref with
    | [] => (references, current_ref)
    | _ :: _ => (flush_ref current_ref references, [])
    end
  else if starts_entry line then (flush_ref current_ref references, [line])
  else
    match current_ref with
    | [] => (references, current_ref)
    | _ :: _ => (references, current_ref ++ [line])
    end.

Definition extract_references_from_text (text : pystr) : list pystr :=
  match py_find BIB_MARKER text with
  | None => []
  | Some bib_start =>
    let bib_section := skipn bib_start text in
    let bib_section :=
      match py_find NEXT_SECTION bib_section with
      | Some bib_end => firstn bib_end bib_section
      | None => bib_section
      end in
    let lines := split_char ch_nl bib_section in
    let (references, current_ref) := fold_left segment_step lines ([], []) in
    flush_ref current_ref references
  end.

(** *** Vocabulary *)

(** Neither the first nor the last character is whitespace. *)
Definition trimmed (s : pystr) : Prop :=
  (forall a t, s = a :: t -> is_space a = false) /\
  (forall t b, s = t ++ [b] -> is_space b = false).

(** A line kept in [current_ref] *)
Definition kept_line (l : pystr) : Prop :=
  l <> [] /\ trimmed l /\ ~ In ch_nl l.

(** What every returned entry satisfies *)
Definition well_formed_entry (e : pystr) : Prop :=
  (20 < List.length e)%nat /\ ~ In ch_nl e /\ strip e = e /\
  exists c t, e = c :: t /\ is_upper_az c = true.

(** What the loop keeps true of [(references, current_ref)] *)
Definition segment_inv (st : list pystr * list pystr) : Prop :=
  Forall well_formed_entry (fst st) /\
  match snd st with
  | [] => True
  | l :: ls =>
    kept_line l /\ Forall kept_line ls /\
    exists c t, l = c :: t /\ is_upper_az c = true
  end.

(** The document of the end-to-end scenario *)
Definition ex_document : pystr :=
  Eval vm_compute in
  u "BIBLIOGRAPHIE" ++ [ch_nl]
  ++ u "Smith, J. (2019). A Great Method. J. Geophys., 10, 1-10. https://doi.org/10.1/xyz"
  ++ [ch_nl; ch_nl] ++ u "...Smith (2019) proposed this method for...".

(** *** Vocabulary: links *)

Definition DOI_HTTP : pystr := Eval vm_compute in u "http://doi.org/".
Definition DOI_HTTPS : pystr := Eval vm_compute in u "https://doi.org/".

(** A character a link may hold after its prefix: [[^\s,]] *)
Definition link_char (c : char) : bool := negb (is_space c || (c =? ch_comma)).





(** ** extract_references.py: theme colours *)

(** [a < b] on [str]: lexicographic on the code points *)
Fixpoint str_ltb (a b : pystr) : bool :=
  match a, b with
  | _, [] => false
  | [], _ :: _ => true
  | x :: a', y :: b' =>
    if x <? y then true else if y <? x then false else str_ltb a' b'
  end.

(** [sorted(l)] on strings: stable, ascending *)
Fixpoint insert_asc (x : pystr) (l : list pystr) : list pystr :=
  match l with
  | [] => [x]
  | y :: l' => if str_ltb y x then y :: insert_asc x l' else x :: y :: l'
  end.

Definition sorted_str (l : list pystr) : list pystr :=
  fold_right insert_asc [] l.

(** [enumerate(l)] *)
Definition enumerate {A : Type} (l : list A) : list (nat * A) :=
  combine (seq 0 (List.length l)) l.

(** The palette. A colour is written as its code: [colors.HexColor] keeps
    one colour per code. *)
Definition get_theme_colors : list pystr :=
  Eval vm_compute in
  map u ["#E8F4F8"; "#FFF4E6"; "#F0F8E8"; "#F8E8F0";
         "#E8F0F8"; "#FFF8E8"; "#F0E8F8"; "#E8F8F0"]%string.

Section ThemeColors.

(** The runtime's [set] *)
Variable py_set : PySet.

Definition assign_theme_colors (headers : list pystr)
           (data_rows : list (list pystr)) : dict pystr :=
  match list_index THEME_HEADER headers with
  | None => []
  | Some theme_idx =>
    let themes :=
      fold_left
        (fun themes row =>
           match nth_error row theme_idx with
           | Some cell => themes ++ [strip cell]
           | None => themes
           end)
        data_rows [] in
    let theme_colors := get_theme_colors in
    fold_left
      (fun theme_color_map it =>
         let '(i, theme) := it in
         dict_set theme
                  (nth (Nat.modulo i (List.length theme_colors)) theme_colors [])
                  theme_color_map)
      (enumerate (sorted_str (elements py_set themes))) []
  end.

End ThemeColors.

(** *** Vocabulary: colours *)

(** No two keys of a map share a value. *)
Definition injective_map (m : dict pystr) : Prop :=
  forall k1 k2 v, dict_get k1 m = Some v -> dict_get k2 m = Some v -> k1 = k2.

(** ** extract_references.py: ordering the rows *)

Definition YEAR_HEADER : pystr := Eval vm_compute in u "Année".

(** [k1 < k2] on the tuples [(theme, year)]: the first components that
    differ decide. *)
Definition key_ltb (k1 k2 : pystr * Z) : bool :=
  if str_eqb (fst k1) (fst k2) then Z.ltb (snd k1) (snd k2)
  else str_ltb (fst k1) (fst k2).

(** [sorted(rows, key=key)]: stable, ascending *)
Fixpoint insert_by_key (key : list pystr -> pystr * Z) (x : list pystr)
         (l : list (list pystr)) : list (list pystr) :=
  match l with
  | [] => [x]
  | y :: l' =>
    if key_ltb (key y) (key x) then y :: insert_by_key key x l'
    else x :: y :: l'
  end.

Definition sorted_by_key (key : list pystr -> pystr * Z)
           (rows : list (list pystr)) : list (list pystr) :=
  fold_right (insert_by_key key) [] rows.

Section SortReferences.

(** The number read in a non-empty year cell, by lines 263 to 275 of
    [extract_year]: the first word of four digits that starts with 19 or
    20, else the whole cell when [int] reads it as a number from 1900 to
    2100. Digits, word boundaries and [int] are the runtime's. *)
Variable year_number : pystr -> option Z.

Definition extract_year (row : list pystr) (year_idx : option nat) : option Z :=
  match year_idx with
  | None => None
  | Some i =>
    match nth_error row i with
    | None => None
    | Some cell =>
      let year_str := strip cell in
      if is_blank year_str then None else year_number year_str
    end
  end.

Definition get_theme (theme_idx : option nat) (row : list pystr) : pystr :=
  match theme_idx with
  | Some i =>
    match nth_error row i with
    | Some cell => strip cell
    | None => []
    end
  | None => []
  end.

Definition get_year (year_idx : option nat) (row : list pystr) : Z :=
  match extract_year row year_idx with
  | Some year => if Z.eqb year 0 then 0%Z else year
  | None => 0%Z
  end.

Definition sort_references_by_theme_and_year
           (headers : list pystr) (data_rows : list (list pystr))
  : list pystr * list (list pystr) :=
  let theme_idx := list_index THEME_HEADER headers in
  let year_idx := list_index YEAR_HEADER headers in
  let sorted_rows :=
    sorted_by_key (fun row => (get_theme theme_idx row, get_year year_idx row))
                  data_rows in
  (headers, sorted_rows).

End SortReferences.

(** ** extract_references.py: what the exports draw *)

Section Exports.

Variable py_set : PySet.
Variable year_number : pystr -> option Z.

(** Lines 1134 to 1138 of [save_table_to_file], the same as lines 327 to
    331 of [save_table_to_pdf]: the table that is drawn and the colours of
    its themes *)
Definition themed_table (headers : list pystr) (data_rows : list (list pystr))
  : list pystr * list (list pystr) * dict pystr :=
  let (headers, data_rows) :=
    sort_references_by_theme_and_year year_number headers data_rows in
  let (headers, data_rows) := consolidate_themes headers data_rows 6 in
  let theme_color_map := assign_theme_colors py_set headers data_rows in
  (headers, data_rows, theme_color_map).

(** Lines 516 to 518 of [save_table_to_html]: the table that is written *)
Definition html_table (headers : list pystr) (data_rows : list (list pystr))
  : list pystr * list (list pystr) :=
  let (headers, data_rows) :=
    sort_references_by_theme_and_year year_number headers data_rows in
  consolidate_themes headers data_rows 6.

End Exports.

(** *** Vocabulary: order *)

(** [k1 <= k2] on sort keys *)
Definition key_le (k1 k2 : pystr * Z) : Prop :=
  str_ltb (fst k1) (fst k2) = true
  \/ (fst k1 = fst k2 /\ (snd k1 <= snd k2)%Z).

(** [r1] comes no later than [r2]: by stripped theme, then by year *)
Definition row_le (year_number : pystr -> option Z) (headers : list pystr)
           (r1 r2 : list pystr) : Prop :=
  let theme := get_theme (list_index THEME_HEADER headers) in
  let year := get_year year_number (list_index YEAR_HEADER headers) in
  str_ltb (theme r1) (theme r2) = true
  \/ (theme r1 = theme r2 /\ (year r1 <= year r2)%Z).

(** The rows with the theme and the year of [r], in their order *)
Definition same_key (year_number : pystr -> option Z) (headers : list pystr)
           (r : list pystr) (rows : list (list pystr)) : list (list pystr) :=
  let theme := get_theme (list_index THEME_HEADER headers) in
  let year := get_year year_number (list_index YEAR_HEADER headers) in
  filter (fun r' => str_eqb (theme r') (theme r) && Z.eqb (year r') (year r))
         rows.



(** ** split_pdf.py: the page plan *)

(** [range(a, b)] *)
Definition py_range (a b : Z) : list Z :=
  map (fun i => (a + Z.of_nat i)%Z) (seq 0 (Z.to_nat (b - a))).

(** One output file: the numbers its name carries,
    [chunk_{chunk_num + 1:03d}_pages_{start_page + 1}-{end_page}], and the
    indices of the pages copied into it *)
Record Chunk := {
  chunk_number : Z;
  chunk_first : Z;
  chunk_last : Z;
  chunk_pages : list Z
}.

(** The loop of [split_pdf] over the blocks, for a document of
    [total_pages] pages; [None] stands for [ZeroDivisionError]. *)
Definition split_pdf (total_pages pages_per_chunk : Z) : option (list Chunk) :=
  if (pages_per_chunk =? 0)%Z then None
  else
    let num_chunks := ((total_pages + pages_per_chunk - 1) / pages_per_chunk)%Z in
    Some
      (map (fun chunk_num =>
              let start_page := (chunk_num * pages_per_chunk)%Z in
              let end_page := Z.min (start_page + pages_per_chunk) total_pages in
              {| chunk_number := (chunk_num + 1)%Z;
                 chunk_first := (start_page + 1)%Z;
                 chunk_last := end_page;
                 chunk_pages := py_range start_page end_page |})
           (py_range 0 num_chunks)).

(** *** Vocabulary: cells *)

(** A cell without pipe and line feed *)
Definition plain_cell (cell : pystr) : Prop :=
  ~ In ch_pipe cell /\ ~ In ch_nl cell.

(** ** analyze_references.py: the program *)

Section Program.

Variable lower : pystr -> pystr.
Variable ci_eq : char -> char -> bool.
Variable set_iter : list pystr -> list pystr.

(** One iteration of the loop over the entries: the row of an entry *)
Definition analyze_entry (text ref_text : pystr) : option ResultRow :=
  ref_parsed <- parse_reference lower ref_text ;;
  res <- analyze_reference_usage lower ci_eq set_iter text ref_parsed ;;
  let (usage_desc, importance) := res in
  let theme := categorize_theme lower ref_parsed usage_desc in
  Some {| reference := display ref_parsed;
          theme := theme;
          usage := usage_desc;
          importance := importance;
          row_year := year ref_parsed;
          link := doi ref_parsed |}.

Fixpoint analyze_entries (text : pystr) (references : list pystr)
  : option (list ResultRow) :=
  match references with
  | [] => Some []
  | ref_text :: references' =>
    row <- analyze_entry text ref_text ;;
    results <- analyze_entries text references' ;;
    Some (row :: results)
  end.

(** The script on the text of a document: the rows and what is printed *)
Definition main_results (text : pystr) : option (list ResultRow) :=
  analyze_entries text (extract_references_from_text text).

Definition main (text : pystr) : option pystr :=
  results <- main_results text ;;
  Some (emit_table results).

End Program.

(** *** Vocabulary: rows *)

(** The importance notes the script can give *)
Definition IMPORTANCE_NOTES : list Z := [30; 50; 65; 70; 85; 100]%Z.

(** *** Vocabulary: lowercasing *)

Definition KW_THEORIQUE : pystr := Eval vm_compute in u "théorique".

(** [lower] leaves an occurrence of the lowercase word [w] in place. *)
Definition keeps_word (lower : pystr -> pystr) (w : pystr) : Prop :=
  forall pre post,
    exists pre' post', lower (pre ++ w ++ post) = pre' ++ w ++ post'.

(** The themes in front of the fifth rule of [categorize_theme] *)
Definition FIRST_THEMES : list pystr := [T_GNSS; T_GEODESY; T_OPTIM; T_MODEL].

(** ** extract_references.py: the cells of the page *)

Definition ch_quot : char := 34.
Definition ch_amp : char := 38.
Definition ch_lt : char := 60.
Definition ch_gt : char := 62.

(** The text of a cell as [save_table_to_html] writes it: four calls of
    [replace] in a row, for the ampersand ([&amp;]), the two angle
    brackets ([&lt;], [&gt;]) and the double quote ([&quot;]) *)
Definition html_escape (cell : pystr) : pystr :=
  replace [ch_quot] (u "&quot;")
    (replace [ch_gt] (u "&gt;")
      (replace [ch_lt] (u "&lt;")
        (replace [ch_amp] (u "&amp;") cell))).

(** *** Vocabulary: entities *)

(** What one character of a cell becomes *)
Definition html_entity (c : char) : pystr :=
  if c =? ch_amp then u "&amp;"
  else if c =? ch_lt then u "&lt;"
  else if c =? ch_gt then u "&gt;"
  else if c =? ch_quot then u "&quot;"
  else [c].

(** *** Vocabulary: the ends of a string *)

(** The first character is no whitespace. *)
Definition starts_solid (s : pystr) : Prop :=
  exists a t, s = a :: t /\ is_space a = false.

(** The last character is no whitespace. *)
Definition ends_solid (s : pystr) : Prop :=
  exists t b, s = t ++ [b] /\ is_space b = false.

(** The six usage labels *)
Definition USAGE_LABELS : list pystr :=
  [L_METHOD; L_FRAME; L_RESULT; L_HYPOTHESIS; L_EXAMPLE; L_GENERAL].

(** The length of the whitespace a string starts with *)
Fixpoint leading_ws (s : pystr) : nat :=
  match s with
  | [] => O
  | c :: s' => if is_space c then S (leading_ws s') else O
  end.

(** Both ends of a string are no whitespace, as a test *)
Definition solidb (s : pystr) : bool :=
  match s with
  | [] => false
  | a :: _ => negb (is_space a)
  end
  && match rev s with
     | [] => false
     | b :: _ => negb (is_space b)
     end.

(** *** Vocabulary: occurrences of the year *)

(** The text holds the parenthesized year somewhere, letter case apart. *)
Definition cites_year (ci_eq : char -> char -> bool) (year text : pystr) : Prop :=
  exists j, prefix_ok (year_atoms ci_eq year) (skipn j text) = true.

(** * Properties *)

Example literal_code_points :
  u "é|Ã©" = [233; 124; 195; 169].
Proof. reflexivity. Qed.

Example parse_ex_entry :
  parse_reference lower_latin1 ex_entry =
  Some {| authors := u "Smith, J.";
          year := u "2019";
          title := u ". A Great Method. J. Geophys.";
          doi := u "https://doi.org/10.1/xyz";
          full_ref := ex_entry;
          display := u "Smith, J. (2019) - . A Great Method. J. Geophys." |}.
Proof. vm_compute. reflexivity. Qed.

(** ** Lists and strings *)

Lemma split_char_nonempty (sep : char) (s : pystr) :
  split_char sep s <> [].
Proof.
  destruct s as [|c s]; simpl; [discriminate|].
  destruct (c =? sep); [discriminate|].
  destruct (split_char sep s); discriminate.
Qed.

Lemma index0_split_char (sep : char) (s : pystr) :
  index0 (split_char sep s) = Some (hd [] (split_char sep s)).
Proof.
  pose proof (split_char_nonempty sep s) as H.
  destruct (split_char sep s); [contradiction|reflexivity].
Qed.

Lemma str_eqb_eq (a b : pystr) : str_eqb a b = true <-> a = b.
Proof.
  revert b; induction a as [|x a IH]; intros [|y b]; simpl; split;
    try discriminate; try reflexivity.
  - intros H. apply andb_true_iff in H as [H1 H2].
    apply N.eqb_eq in H1. apply IH in H2. congruence.
  - intros H. injection H as -> ->.
    rewrite N.eqb_refl. simpl. now apply IH.
Qed.

Lemma str_eqb_refl (a : pystr) : str_eqb a a = true.
Proof. now apply str_eqb_eq. Qed.

Lemma skipn_app_length {A : Type} (l1 l2 : list A) :
  skipn (List.length l1) (l1 ++ l2) = l2.
Proof. induction l1; simpl; auto. Qed.

Lemma firstn_app_length {A : Type} (l1 l2 : list A) :
  firstn (List.length l1) (l1 ++ l2) = l1.
Proof. induction l1; simpl; congruence. Qed.

Lemma split_at {A : Type} (i : nat) (l : list A) :
  (i <= List.length l)%nat ->
  l = firstn i l ++ skipn i l /\ List.length (firstn i l) = i.
Proof.
  intros H. split.
  - symmetry. apply firstn_skipn.
  - apply firstn_length_le. exact H.
Qed.

(** ** The matcher at a position *)

Lemma search_from_some (r : regex) (s : pystr) :
  forall pos mt,
    search_from r pos s = Some mt ->
    exists i x,
      (i <= List.length s)%nat /\
      r_start mt = (pos + i)%nat /\
      mt = mk_rmatch (pos + i) x /\
      re_match r None (pos + i) (skipn i s) = Some x /\
      forall j, (j < i)%nat -> re_match r None (pos + j) (skipn j s) = None.
Proof.
  induction s as [|c s IH]; intros pos mt H; simpl in H.
  - destruct (re_match r None pos []) eqn:E; [|discriminate].
    injection H as <-. exists O, m. rewrite Nat.add_0_r. simpl.
    repeat split; auto; intros; lia.
  - destruct (re_match r None pos (c :: s)) eqn:E.
    + injection H as <-. exists O, m. rewrite Nat.add_0_r. simpl.
      repeat split; auto; intros; lia.
    + apply IH in H as (i & x & Hi & Hs & Hm & Hx & Hmin).
      exists (S i), x. simpl.
      replace (pos + S i)%nat with (S pos + i)%nat by lia.
      repeat split; auto; try lia.
      intros [|j] Hj.
      * rewrite Nat.add_0_r. exact E.
      * replace (pos + S j)%nat with (S pos + j)%nat by lia.
        simpl. apply Hmin. lia.
Qed.

Lemma search_from_none (r : regex) (s : pystr) :
  forall pos,
    search_from r pos s = None ->
    forall j, (j <= List.length s)%nat ->
              re_match r None (pos + j) (skipn j s) = None.
Proof.
  induction s as [|c s IH]; intros pos H j Hj; simpl in H.
  - destruct (re_match r None pos []) eqn:E; [discriminate|].
    simpl in Hj. assert (j = O) by lia. subst. rewrite Nat.add_0_r. exact E.
  - destruct (re_match r None pos (c :: s)) eqn:E; [discriminate|].
    destruct j as [|j].
    + rewrite Nat.add_0_r. exact E.
    + replace (pos + S j)%nat with (S pos + j)%nat by lia.
      cbn [skipn]. apply IH; auto. simpl in Hj. lia.
Qed.

(** ** The year pattern *)

Ltac re_step H :=
  cbn -[N.eqb N.leb N.ltb is_digit is_lower_az is_space] in H.

Lemma year_re_sound (pos : nat) (s : pystr) (x : mres) :
  re_match YEAR_RE None pos s = Some x ->
  exists y post,
    year_shape y = true /\ s = ch_lpar :: y ++ ch_rpar :: post /\
    m_end x = (pos + 2 + List.length y)%nat /\
    m_g1 x = Some (S pos, S pos + List.length y)%nat.
Proof.
  unfold YEAR_RE, lit. intros H.
  destruct s as [|c0 [|c1 [|c2 [|c3 [|c4 [|c5 s]]]]]]; re_step H;
    repeat match type of H with
           | (if ?b then _ else _) = _ => destruct b eqn:?; try discriminate
           end; try discriminate.
  - apply N.eqb_eq in Heqb. subst c0.
    destruct s as [|c6 s].
    + re_step H. destruct (ch_rpar =? c5) eqn:E; [|discriminate].
      apply N.eqb_eq in E. subst c5. vm_compute in Heqb4. discriminate.
    + destruct (ch_rpar =? c6) eqn:E6; re_step H.
      * injection H as <-. apply N.eqb_eq in E6. subst c6.
        exists [c1; c2; c3; c4; c5], s. simpl.
        rewrite Heqb0, Heqb1, Heqb2, Heqb3, Heqb4. simpl.
        repeat split; repeat f_equal; lia.
      * destruct (ch_rpar =? c5) eqn:E; [|discriminate].
        apply N.eqb_eq in E. subst c5. vm_compute in Heqb4. discriminate.
  - apply N.eqb_eq in Heqb. subst c0.
    destruct (ch_rpar =? c5) eqn:E; [|discriminate].
    re_step H. injection H as <-. apply N.eqb_eq in E. subst c5.
    exists [c1; c2; c3; c4], s. simpl.
    rewrite Heqb0, Heqb1, Heqb2, Heqb3. simpl.
    repeat split; repeat f_equal; lia.
Qed.

Lemma year_re_complete (pos : nat) (y post : pystr) :
  year_shape y = true ->
  exists x,
    re_match YEAR_RE None pos (ch_lpar :: y ++ ch_rpar :: post) = Some x /\
    m_end x = (pos + 2 + List.length y)%nat /\
    m_g1 x = Some (S pos, S pos + List.length y)%nat.
Proof.
  intros Hy. unfold year_shape in Hy.
  destruct y as [|a [|b [|c [|d [|e [|f y]]]]]]; try discriminate.
  - apply andb_true_iff in Hy as [Hy Hd]. apply andb_true_iff in Hy as [Hy Hc].
    apply andb_true_iff in Hy as [Ha Hb].
    unfold YEAR_RE, lit. cbn -[N.eqb N.leb N.ltb is_digit is_lower_az is_space].
    rewrite N.eqb_refl, Ha, Hb, Hc, Hd.
    replace (is_lower_az ch_rpar) with false by reflexivity.
    rewrite N.eqb_refl. eexists. split; [reflexivity|].
    cbn. repeat split; repeat f_equal; lia.
  - apply andb_true_iff in Hy as [Hy He].
    apply andb_true_iff in Hy as [Hy Hd]. apply andb_true_iff in Hy as [Hy Hc].
    apply andb_true_iff in Hy as [Ha Hb].
    unfold YEAR_RE, lit. cbn -[N.eqb N.leb N.ltb is_digit is_lower_az is_space].
    rewrite N.eqb_refl, Ha, Hb, Hc, Hd, He.
    rewrite N.eqb_refl. eexists. split; [reflexivity|].
    cbn. repeat split; repeat f_equal; lia.
Qed.

Lemma slice_middle (pre y rest : pystr) (c : char) :
  slice (S (List.length pre)) (S (List.length pre) + List.length y)
        (pre ++ c :: y ++ rest) = y.
Proof.
  unfold slice.
  replace (S (List.length pre) + List.length y - S (List.length pre))%nat
    with (List.length y) by lia.
  replace (S (List.length pre)) with (List.length (pre ++ [c]))
    by (rewrite length_app; simpl; lia).
  replace (pre ++ c :: y ++ rest) with ((pre ++ [c]) ++ y ++ rest)
    by (rewrite <- app_assoc; reflexivity).
  rewrite skipn_app_length. apply firstn_app_length.
Qed.

Lemma year_shape_nonempty (y : pystr) : year_shape y = true -> y <> [].
Proof. destruct y; [discriminate|]. intros _. discriminate. Qed.

(** What [re.search] over the year pattern finds: the leftmost
    parenthesized year, with the year itself as group 1. *)
Lemma year_search_some (s : pystr) (mt : rmatch) :
  py_re_search YEAR_RE s = Some mt ->
  exists pre y post,
    paren_year_at s pre y post /\
    r_start mt = List.length pre /\
    r_end mt = (List.length pre + 2 + List.length y)%nat /\
    group1 s mt = y /\
    forall pre' y' post',
      paren_year_at s pre' y' post' ->
      (List.length pre <= List.length pre')%nat.
Proof.
  intros H. apply search_from_some in H as (i & x & Hi & Hs & Hm & Hx & Hmin).
  cbn [Nat.add] in Hs, Hm, Hx, Hmin.
  apply year_re_sound in Hx as (y & post & Hy & Hsk & He & Hg).
  destruct (split_at i s Hi) as [Hsplit Hlen].
  exists (firstn i s), y, post.
  assert (Hs' : s = firstn i s ++ ch_lpar :: y ++ ch_rpar :: post)
    by (rewrite <- Hsk; exact Hsplit).
  rewrite Hlen. repeat split; auto.
  - subst mt. simpl. lia.
  - subst mt. unfold group1. simpl. rewrite Hg.
    rewrite Hs' at 1. rewrite <- Hlen at 1 2. apply slice_middle.
  - intros pre' y' post' [Hy' Hd'].
    destruct (Nat.le_gt_cases i (List.length pre')) as [|Hlt]; [assumption|].
    specialize (Hmin _ Hlt).
    rewrite Hd' in Hmin. rewrite skipn_app_length in Hmin.
    destruct (year_re_complete (List.length pre') y' post' Hy') as (x' & Hx' & _).
    cbn [Nat.add] in Hmin. congruence.
Qed.

Lemma year_search_none (s : pystr) :
  py_re_search YEAR_RE s = None ->
  forall pre y post, ~ paren_year_at s pre y post.
Proof.
  intros H pre y post [Hy Hd].
  pose proof (search_from_none YEAR_RE s 0 H (List.length pre)) as Hn.
  rewrite Hd in Hn. rewrite skipn_app_length in Hn.
  destruct (year_re_complete (List.length pre) y post Hy) as (x' & Hx' & _).
  cbn [Nat.add] in Hn. rewrite Hn in Hx'.
  - discriminate.
  - rewrite length_app. lia.
Qed.

(** ** The entry parser *)

Section EntryParserFacts.

Variable lower : pystr -> pystr.

Lemma parse_authors_total (s : pystr) (ym : option rmatch) :
  exists a, parse_authors lower s ym = Some a.
Proof.
  unfold parse_authors. destruct ym as [ym|].
  - cbv zeta.
    destruct (contains (u ", ") _); [|eexists; reflexivity].
    rewrite index0_split_char. cbn [bind].
    destruct (contains (u "et al") _); [eexists; reflexivity|].
    destruct (Nat.ltb 3 _); eexists; reflexivity.
  - destruct (contains (u ",") s); [|eexists; reflexivity].
    rewrite index0_split_char. eexists; reflexivity.
Qed.

Lemma parse_reference_some (s : pystr) :
  exists a,
    parse_authors lower s (py_re_search YEAR_RE s) = Some a /\
    parse_reference lower s =
    Some {| authors := a;
            year := match py_re_search YEAR_RE s with
                    | Some ym => group1 s ym
                    | None => []
                    end;
            title := parse_title s (py_re_search YEAR_RE s);
            doi := match py_re_search DOI_RE s with
                   | Some dm => group0 s dm
                   | None => []
                   end;
            full_ref := s;
            display :=
              ref_display a
                (match py_re_search YEAR_RE s with
                 | Some ym => group1 s ym
                 | None => []
                 end)
                (parse_title s (py_re_search YEAR_RE s)) |}.
Proof.
  destruct (parse_authors_total s (py_re_search YEAR_RE s)) as [a Ha].
  exists a. split; [exact Ha|].
  unfold parse_reference. cbv zeta. rewrite Ha. reflexivity.
Qed.

(** C9. An entry holding a parenthesized 4-digit year (with an optional
    lowercase letter after the digits) is parsed to a non-empty [year], the
    leftmost such year of the entry; an entry holding none is parsed to the
    empty [year]; the parser returns a reference on every entry. *)
Theorem parse_reference_year (s : pystr) :
  exists r,
    parse_reference lower s = Some r /\
    ((exists pre y post, paren_year_at s pre y post) ->
     exists pre y post,
       paren_year_at s pre y post /\
       (forall pre' y' post',
           paren_year_at s pre' y' post' ->
           (List.length pre <= List.length pre')%nat) /\
       year r = y /\ year r <> []) /\
    ((forall pre y post, ~ paren_year_at s pre y post) -> year r = []).
Proof.
  destruct (parse_reference_some s) as (a & _ & Hr).
  eexists. split; [exact Hr|]. cbn [year].
  destruct (py_re_search YEAR_RE s) as [mt|] eqn:E.
  - apply year_search_some in E as (pre & y & post & Hocc & _ & _ & Hg & Hmin).
    split.
    + intros _. exists pre, y, post. repeat split; auto; try apply Hocc.
      rewrite Hg. apply year_shape_nonempty. apply Hocc.
    + intros Hno. exfalso. exact (Hno _ _ _ Hocc).
  - split.
    + intros (pre & y & post & Hocc). exfalso.
      exact (year_search_none s E _ _ _ Hocc).
    + reflexivity.
Qed.

(** C8. The display label is the authors, then the year in parentheses,
    then [" - "] and the title exactly when the title is not empty. *)
Theorem parse_reference_display (s : pystr) :
  exists r,
    parse_reference lower s = Some r /\
    display r =
    authors r ++ u " (" ++ year r ++ u ")"
    ++ (if is_blank (title r) then [] else u " - " ++ title r).
Proof.
  destruct (parse_reference_some s) as (a & _ & Hr).
  eexists. split; [exact Hr|]. cbn [display authors year title].
  unfold ref_display. cbv zeta.
  destruct (parse_title s (py_re_search YEAR_RE s)); cbn [is_blank].
  - rewrite app_nil_r. reflexivity.
  - rewrite <- !app_assoc. reflexivity.
Qed.

End EntryParserFacts.

Lemma year_search_found (s pre y post : pystr) :
  paren_year_at s pre y post ->
  exists mt, py_re_search YEAR_RE s = Some mt.
Proof.
  intros Hocc. destruct (py_re_search YEAR_RE s) as [mt|] eqn:E.
  - exists mt. reflexivity.
  - exfalso. exact (year_search_none s E _ _ _ Hocc).
Qed.

Lemma app_same_length_prefix {A : Type} (a b c d : list A) :
  a ++ b = c ++ d -> List.length a = List.length c -> a = c.
Proof.
  revert c. induction a as [|x a IH]; intros [|z c] H Hl;
    try discriminate; [reflexivity|].
  simpl in H, Hl. injection H as -> H. f_equal. apply IH; auto.
Qed.

Section AuthorsField.

Variable lower : pystr -> pystr.

(** C6, amended. When the entry holds a parenthesized year, let [before] be
    the whitespace-normalized text in front of the leftmost one. If
    [before] holds no comma followed by a space, the authors field is
    [before] itself. Otherwise: when the lowercased [before] contains
    ["et al"], the field is the stripped first comma-separated token
    followed by [" et al."]; when it does not, the field is the first (at
    most 3) comma-separated tokens, stripped and joined by [", "], with
    [" et al."] appended exactly when there were more than 3 tokens. *)
Theorem parse_reference_authors (s pre y post : pystr) :
  paren_year_at s pre y post ->
  (forall pre' y' post',
      paren_year_at s pre' y' post' ->
      (List.length pre <= List.length pre')%nat) ->
  exists r,
    parse_reference lower s = Some r /\
    authors r =
    let before := normalize_ws pre in
    let tokens := split_char ch_comma before in
    if contains (u ", ") before then
      if contains (u "et al") (lower before)
      then strip (hd [] tokens) ++ u " et al."
      else join (u ", ") (map strip (firstn 3 tokens))
           ++ (if Nat.ltb 3 (List.length tokens) then u " et al." else [])
    else before.
Proof.
  intros Hocc Hleft.
  destruct (parse_reference_some lower s) as (a & Ha & Hr).
  eexists. split; [exact Hr|]. cbn [authors].
  destruct (year_search_found _ _ _ _ Hocc) as [mt E].
  rewrite E in Ha.
  apply year_search_some in E
    as (pre0 & y0 & post0 & Hocc0 & Hst & _ & _ & Hmin).
  assert (Hlen : List.length pre0 = List.length pre).
  { apply Nat.le_antisymm; [exact (Hmin _ _ _ Hocc)|exact (Hleft _ _ _ Hocc0)]. }
  assert (Hpre : slice 0 (r_start mt) s = pre).
  { unfold slice. rewrite Nat.sub_0_r. cbn [skipn].
    rewrite Hst, Hlen. destruct Hocc as [_ ->]. apply firstn_app_length. }
  unfold parse_authors in Ha. rewrite Hpre in Ha. cbv zeta in Ha.
  fold (normalize_ws pre) in Ha. cbv zeta.
  destruct (contains (u ", ") (normalize_ws pre)); [|congruence].
  rewrite index0_split_char in Ha. cbn [bind] in Ha.
  destruct (contains (u "et al") (lower (normalize_ws pre))); [congruence|].
  destruct (Nat.ltb 3 _).
  - congruence.
  - rewrite app_nil_r. congruence.
Qed.

End AuthorsField.

(** C6, as stated, fails: four authors separated by bare commas come back
    whole, without [" et al."]; and an entry already written with
    ["et al."] is returned unchanged, not with a second [" et al."]. *)
Lemma parse_reference_authors_counterexample :
  (option_map authors
     (parse_reference lower_latin1 (u "Smith,Jones,Doe,Roe (2019). Title."))
   = Some (u "Smith,Jones,Doe,Roe")
   /\ py_re_search YEAR_RE (u "Smith,Jones,Doe,Roe (2019). Title.")
      = Some {| r_start := 20; r_end := 26; r_g1 := Some (21, 25)%nat |}
   /\ normalize_ws (u "Smith,Jones,Doe,Roe ") = u "Smith,Jones,Doe,Roe"
   /\ authors_as_specified (u "Smith,Jones,Doe,Roe")
      = u "Smith, Jones, Doe et al.")
  /\
  (option_map authors
     (parse_reference lower_latin1 (u "Smith et al. (2019). Title."))
   = Some (u "Smith et al.")
   /\ py_re_search YEAR_RE (u "Smith et al. (2019). Title.")
      = Some {| r_start := 13; r_end := 19; r_g1 := Some (14, 18)%nat |}
   /\ normalize_ws (u "Smith et al. ") = u "Smith et al."
   /\ authors_as_specified (u "Smith et al.") = u "Smith et al. et al.").
Proof. vm_compute. repeat split. Qed.

Lemma parse_reference_authors_witness :
  exists r,
    parse_reference lower_latin1 ex_entry = Some r /\
    authors r = u "Smith, J.".
Proof.
  destruct (parse_reference_authors lower_latin1 ex_entry
              (u "Smith, J. ") (u "2019")
              (u ". A Great Method. J. Geophys., 10, 1-10. https://doi.org/10.1/xyz"))
    as (r & Hr & Ha).
  - split; vm_compute; reflexivity.
  - intros pre' y' post' [Hy' Hd'].
    destruct (Nat.le_gt_cases (List.length (u "Smith, J. ")) (List.length pre'))
      as [|Hlt]; [assumption|exfalso].
    assert (Hm : re_match YEAR_RE None (List.length pre')
                          (skipn (List.length pre') ex_entry) <> None).
    { rewrite Hd'. rewrite skipn_app_length.
      destruct (year_re_complete (List.length pre') y' post' Hy') as (x & Hx & _).
      congruence. }
    change (List.length (u "Smith, J. ")) with 10%nat in Hlt.
    apply Hm. clear Hm Hd'. revert Hlt.
    generalize (List.length pre') as k. intros k Hk.
    do 10 (destruct k as [|k]; [vm_compute; reflexivity|]). lia.
  - exists r. split; [exact Hr|]. rewrite Ha. vm_compute. reflexivity.
Defined.

Lemma parse_reference_year_witness :
  exists r, parse_reference lower_latin1 ex_entry = Some r /\ year r <> [].
Proof.
  destruct (parse_reference_year lower_latin1 ex_entry) as (r & Hr & Hyes & _).
  exists r. split; [exact Hr|].
  destruct Hyes as (pre & y & post & _ & _ & _ & Hne); [|exact Hne].
  exists (u "Smith, J. "), (u "2019"),
    (u ". A Great Method. J. Geophys., 10, 1-10. https://doi.org/10.1/xyz").
  split; vm_compute; reflexivity.
Defined.

(** ** Substrings *)

Lemma startswith_iff (p s : pystr) :
  startswith p s = true <-> exists post, s = p ++ post.
Proof.
  revert s; induction p as [|a p IH]; intros s; simpl.
  - split; [intros _; exists s; reflexivity|reflexivity].
  - destruct s as [|b s].
    + split; [discriminate|intros [post H]; discriminate].
    + rewrite andb_true_iff, N.eqb_eq, IH. split.
      * intros [-> [post ->]]. exists post. reflexivity.
      * intros [post H]. injection H as -> ->. split; [reflexivity|].
        exists post. reflexivity.
Qed.

(** [sub in s] holds exactly when [sub] occurs in [s]. *)
Lemma contains_iff (sub s : pystr) :
  contains sub s = true <-> exists pre post, s = pre ++ sub ++ post.
Proof.
  induction s as [|c s IH]; simpl; rewrite orb_true_iff.
  - rewrite startswith_iff. split.
    + intros [[post H]|H]; [|discriminate]. exists [], post. exact H.
    + intros (pre & post & H). left.
      destruct pre; [|discriminate]. exists post. exact H.
  - rewrite startswith_iff, IH. split.
    + intros [[post H]|(pre & post & H)].
      * exists [], post. exact H.
      * exists (c :: pre), post. simpl. congruence.
    + intros (pre & post & H). destruct pre as [|c' pre].
      * left. exists post. exact H.
      * right. injection H as _ H. exists pre, post. exact H.
Qed.

Lemma any_in_iff (words : list pystr) (text : pystr) :
  any_in words text = true <-> occurs_any words text.
Proof.
  unfold any_in, occurs_any. rewrite existsb_exists. split.
  - intros (w & Hw & Hc). apply contains_iff in Hc as (pre & post & H).
    exists w, pre, post. auto.
  - intros (w & pre & post & Hw & H). exists w. split; [exact Hw|].
    apply contains_iff. exists pre, post. exact H.
Qed.

Lemma any_in_false (words : list pystr) (text : pystr) :
  any_in words text = false <-> ~ occurs_any words text.
Proof.
  rewrite <- any_in_iff. destruct (any_in words text); split;
    congruence || (intros H; exfalso; apply H; reflexivity).
Qed.

(** ** The theme classifier *)

Lemma first_match_hit (pre post : list (list pystr * pystr))
      (kws : list pystr) (label text default : pystr) :
  (forall r, In r pre -> ~ occurs_any (fst r) text) ->
  occurs_any kws text ->
  first_match (pre ++ (kws, label) :: post) text default = label.
Proof.
  intros Hpre Hhit. induction pre as [|[k l] pre IH]; simpl.
  - apply any_in_iff in Hhit. rewrite Hhit. reflexivity.
  - assert (Hk : any_in k text = false).
    { apply any_in_false. apply (Hpre (k, l)). left. reflexivity. }
    rewrite Hk. apply IH. intros r Hr. apply Hpre. right. exact Hr.
Qed.

Lemma first_match_miss (rules : list (list pystr * pystr))
      (text default : pystr) :
  (forall r, In r rules -> ~ occurs_any (fst r) text) ->
  first_match rules text default = default.
Proof.
  intros H. induction rules as [|[k l] rules IH]; simpl; [reflexivity|].
  assert (Hk : any_in k text = false).
  { apply any_in_false. apply (H (k, l)). left. reflexivity. }
  rewrite Hk. apply IH. intros r Hr. apply H. right. exact Hr.
Qed.

Lemma first_match_in (rules : list (list pystr * pystr))
      (text default : pystr) :
  In (first_match rules text default) (map snd rules ++ [default]).
Proof.
  induction rules as [|[k l] rules IH]; simpl; [left; reflexivity|].
  destruct (any_in k text); [left; reflexivity|right; exact IH].
Qed.

Section ThemeClassifier.

Variable lower : pystr -> pystr.

Lemma categorize_theme_rules (ref_parsed : ParsedReference) (usage_desc : pystr) :
  categorize_theme lower ref_parsed usage_desc =
  first_match THEME_RULES
              (lower (full_ref ref_parsed ++ u " " ++ usage_desc)) T_APPLI.
Proof. reflexivity. Qed.

(** C7. The theme of a reference is one label of the six-label vocabulary.
    It is decided by scanning the lowercased text "raw reference, space,
    usage description" against the keyword sets in the fixed order
    methods/positioning, marine geodesy, data optimization/processing,
    modeling/simulation, instruments/measurement: the label of the first
    set with a keyword occurring in the text is returned, and the
    applications-and-case-studies label when no set has one. *)
Theorem categorize_theme_first_match
        (ref_parsed : ParsedReference) (usage_desc : pystr) :
  let text := lower (full_ref ref_parsed ++ u " " ++ usage_desc) in
  let theme := categorize_theme lower ref_parsed usage_desc in
  In theme THEME_LABELS /\
  NoDup THEME_LABELS /\
  (forall pre kws label post,
      THEME_RULES = pre ++ (kws, label) :: post ->
      (forall r, In r pre -> ~ occurs_any (fst r) text) ->
      occurs_any kws text ->
      theme = label) /\
  ((forall r, In r THEME_RULES -> ~ occurs_any (fst r) text) ->
   theme = T_APPLI).
Proof.
  cbv zeta. rewrite categorize_theme_rules. repeat split.
  - apply (first_match_in THEME_RULES).
  - unfold THEME_LABELS.
    repeat (constructor;
            [cbn [In]; intros H;
             repeat (destruct H as [H|H]; [vm_compute in H; discriminate|]);
             exact H|]).
    constructor.
  - intros pre kws label post -> Hpre Hhit. apply first_match_hit; assumption.
  - apply first_match_miss.
Qed.

End ThemeClassifier.

Lemma categorize_theme_first_match_witness :
  categorize_theme lower_latin1
    {| authors := []; year := []; title := []; doi := [];
       full_ref := u "Strain modeling of a fault zone"; display := [] |}
    L_GENERAL = T_GEODESY.
Proof.
  pose proof (categorize_theme_first_match lower_latin1
    {| authors := []; year := []; title := []; doi := [];
       full_ref := u "Strain modeling of a fault zone"; display := [] |}
    L_GENERAL) as H.
  cbv zeta in H. destruct H as (_ & _ & Hhit & _).
  apply (Hhit [(KW_GNSS, T_GNSS)] KW_GEODESY T_GEODESY
              [(KW_OPTIM, T_OPTIM); (KW_MODEL, T_MODEL); (KW_INSTR, T_INSTR)]).
  - reflexivity.
  - intros r [<-|[]]. apply any_in_false. vm_compute. reflexivity.
  - apply any_in_iff. vm_compute. reflexivity.
Defined.

(** ** The citation locator *)

Lemma fold_left_snoc_map {A B : Type} (f : A -> B) (l : list A) (init : list B) :
  fold_left (fun acc x => acc ++ [f x]) l init = init ++ map f l.
Proof.
  revert init; induction l as [|x l IH]; intros init; simpl.
  - rewrite app_nil_r. reflexivity.
  - rewrite IH, <- app_assoc. reflexivity.
Qed.

Section CitationLocator.

Variable lower : pystr -> pystr.
Variable ci_eq : char -> char -> bool.

Lemma pattern1_some (ref_parsed : ParsedReference) :
  exists p1,
    pattern1 lower ci_eq ref_parsed = Some p1 /\
    (p1 = etal_pattern ci_eq
            (strip (hd [] (split_char ch_comma (authors ref_parsed))))
            (year ref_parsed)
     \/ p1 = author_pattern ci_eq
               (strip (hd [] (split_char ch_comma (authors ref_parsed))))
               (year ref_parsed)).
Proof.
  unfold pattern1. rewrite index0_split_char. cbn [bind].
  destruct (contains (u " et al") (lower (authors ref_parsed)));
    eexists; split; try reflexivity; auto.
Qed.

Lemma find_reference_citations_some (text : pystr) (ref_parsed : ParsedReference) :
  exists cs, find_reference_citations lower ci_eq text ref_parsed = Some cs.
Proof.
  unfold find_reference_citations.
  destruct (year ref_parsed); [eexists; reflexivity|].
  destruct (pattern1_some ref_parsed) as (p1 & -> & _).
  eexists; reflexivity.
Qed.

Lemma find_reference_citations_split
      (text : pystr) (ref_parsed : ParsedReference) :
  year ref_parsed <> [] ->
  exists p1 cs,
    pattern1 lower ci_eq ref_parsed = Some p1 /\
    find_reference_citations lower ci_eq text ref_parsed = Some cs /\
    cs = map (mk_citation text) (py_re_finditer p1 text)
         ++ map (mk_citation text)
                (py_re_finditer (pattern2 ci_eq ref_parsed) text).
Proof.
  intros Hy. destruct (pattern1_some ref_parsed) as (p1 & Hp1 & _).
  exists p1. eexists. split; [exact Hp1|].
  unfold find_reference_citations.
  destruct (year ref_parsed) eqn:E; [contradiction|].
  rewrite Hp1. cbn [bind fold_left].
  rewrite !fold_left_snoc_map. cbn [app].
  split; reflexivity.
Qed.

End CitationLocator.

(** C5 on an entry closed by [et al.]: the parser writes the authors as
    ["Dupont et al."]; the locator takes this whole field, which holds no
    comma, for the first author and asks for [et al] once more behind it.
    The text cites the entry as [Dupont et al. (2019a)] and as
    [Dupont (2019a)]; the author-anchored pattern finds neither, and the
    two citations that are returned are those of the bare year: two
    citations, not four. Only a text that repeats [et al.] is matched. *)
Theorem find_reference_citations_et_al :
  option_map authors (parse_reference lower_latin1 ex_etal_entry)
  = Some (u "Dupont et al.")
  /\ option_map year (parse_reference lower_latin1 ex_etal_entry)
     = Some (u "2019a")
  /\ (r <- parse_reference lower_latin1 ex_etal_entry ;;
      pattern1 lower_latin1 ci_eq_latin1 r)
     = Some (etal_pattern ci_eq_latin1 (u "Dupont et al.") (u "2019a"))
  /\ slice 3 24 ex_etal_text = u "Dupont et al. (2019a)"
  /\ slice 37 51 ex_etal_text = u "Dupont (2019a)"
  /\ py_re_finditer
       (etal_pattern ci_eq_latin1 (u "Dupont et al.") (u "2019a")) ex_etal_text
     = []
  /\ option_map (map position)
       (r <- parse_reference lower_latin1 ex_etal_entry ;;
        find_reference_citations lower_latin1 ci_eq_latin1 ex_etal_text r)
     = Some [17; 44]%nat
  /\ map (fun mt => (r_start mt, r_end mt))
         (py_re_finditer
            (etal_pattern ci_eq_latin1 (u "Dupont et al.") (u "2019a"))
            (u "As Dupont et al. et al. (2019a) showed"))
     = [(3, 31)]%nat.
Proof. vm_compute. repeat split. Qed.

(** ** The usage classifier *)

Section UsageClassifier.

Variable lower : pystr -> pystr.
Variable ci_eq : char -> char -> bool.
Variable set_iter : list pystr -> list pystr.

Lemma usage_contexts_of_map (cs : list Citation) :
  usage_contexts_of lower cs =
  map (fun c => classify_context lower (context c)) (firstn 3 cs).
Proof.
  unfold usage_contexts_of.
  exact (fold_left_snoc_map
           (fun c => classify_context lower (context c)) (firstn 3 cs) []).
Qed.

Lemma mem_str_iff (x : pystr) (l : list pystr) :
  mem_str x l = true <-> In x l.
Proof.
  unfold mem_str. rewrite existsb_exists. split.
  - intros (y & Hy & He). apply str_eqb_eq in He. congruence.
  - intros H. exists x. split; [exact H|apply str_eqb_refl].
Qed.

Lemma key_usage_detected_iff (cs : list Citation) :
  mem_str L_METHOD (usage_contexts_of lower cs)
  || mem_str L_FRAME (usage_contexts_of lower cs) = true
  <-> key_usage_detected lower cs.
Proof.
  rewrite orb_true_iff, !mem_str_iff, usage_contexts_of_map, !in_map_iff.
  unfold key_usage_detected. split.
  - intros [(c & Hc & Hin)|(c & Hc & Hin)]; exists c; auto.
  - intros (c & Hin & [Hc|Hc]); [left|right]; exists c; auto.
Qed.

(** C4. With no citation the importance is 30. Otherwise it starts from 85
    for more than 5 citations, 70 for more than 2, 50 else, and is raised
    by 15, capped at 100, exactly when a classified window was labelled
    method justification or theoretical framing. It always lies in
    [0, 100]. *)
Theorem analyze_reference_usage_importance
        (text : pystr) (ref_parsed : ParsedReference) :
  exists cs d score,
    find_reference_citations lower ci_eq text ref_parsed = Some cs /\
    analyze_reference_usage lower ci_eq set_iter text ref_parsed
    = Some (d, score) /\
    (cs = [] -> score = 30%Z) /\
    (cs <> [] ->
     let n := List.length cs in
     let base := if Nat.ltb 5 n then 85%Z
                 else if Nat.ltb 2 n then 70%Z else 50%Z in
     (key_usage_detected lower cs -> score = Z.min 100 (base + 15)) /\
     (~ key_usage_detected lower cs -> score = base)) /\
    (0 <= score <= 100)%Z.
Proof.
  destruct (find_reference_citations_some lower ci_eq text ref_parsed)
    as [cs Hcs].
  exists cs. unfold analyze_reference_usage. rewrite Hcs. cbn [bind].
  destruct cs as [|c cs].
  { exists DEFAULT_USAGE, 30%Z. repeat (split; [reflexivity|]).
    split; [intros H; contradiction H; reflexivity|lia]. }
  do 2 eexists. split; [reflexivity|]. split; [reflexivity|].
  split; [discriminate|]. cbv zeta.
  set (n := List.length (c :: cs)).
  assert (Hbase : base_importance n =
                  if Nat.ltb 5 n then 85%Z
                  else if Nat.ltb 2 n then 70%Z else 50%Z).
  { unfold base_importance.
    destruct (Nat.ltb 5 n), (Nat.ltb 2 n), (Nat.ltb 0 n); reflexivity. }
  rewrite Hbase.
  destruct (mem_str L_METHOD (usage_contexts_of lower (c :: cs))
            || mem_str L_FRAME (usage_contexts_of lower (c :: cs))) eqn:E.
  - apply key_usage_detected_iff in E. split.
    + intros _. split; [reflexivity|]. intros H. contradiction.
    + destruct (Nat.ltb 5 n), (Nat.ltb 2 n); lia.
  - assert (Hn : ~ key_usage_detected lower (c :: cs)).
    { intros H. apply key_usage_detected_iff in H. congruence. }
    split.
    + intros _. split; [intros H; contradiction|reflexivity].
    + destruct (Nat.ltb 5 n), (Nat.ltb 2 n); lia.
Qed.

End UsageClassifier.

Lemma analyze_reference_usage_importance_witness :
  option_map snd
    (analyze_reference_usage lower_latin1 ci_eq_latin1 (fun l => l)
                             ex_text ex_ref) = Some 85%Z.
Proof.
  destruct (analyze_reference_usage_importance lower_latin1 ci_eq_latin1
              (fun l => l) ex_text ex_ref)
    as (cs & d & score & Hcs & Ha & _ & Hsome & _).
  rewrite Ha. cbn [option_map snd]. f_equal.
  vm_compute in Hcs. injection Hcs as <-.
  destruct Hsome as [Hdet _]; [discriminate|].
  rewrite Hdet; [reflexivity|].
  eexists. split; [left; reflexivity|]. left. vm_compute. reflexivity.
Defined.

(** ** Sets of labels

    [set(usage_contexts)] holds every label once; the order in which a set
    is iterated is the order of its hash table, which the language leaves
    open. *)

Lemma first_occurrences_In (l seen : list pystr) (x : pystr) :
  In x (first_occurrences seen l) <-> In x l /\ ~ In x seen.
Proof.
  revert seen; induction l as [|y l IH]; intros seen; simpl.
  - tauto.
  - destruct (mem_str y seen) eqn:E.
    + apply mem_str_iff in E. rewrite IH. split.
      * tauto.
      * intros [[->|H] Hn]; tauto.
    + assert (Hy : ~ In y seen).
      { intros H. apply mem_str_iff in H. congruence. }
      simpl. rewrite IH. simpl. split.
      * intros [->|[H Hn]]; [tauto|]. split; [tauto|]. intros H'. tauto.
      * intros [[->|H] Hn]; [tauto|].
        destruct (list_eq_dec N.eq_dec y x) as [->|Hne]; [tauto|].
        right. split; [exact H|]. intros [H'|H']; [congruence|tauto].
Qed.

Lemma first_occurrences_NoDup (l seen : list pystr) :
  NoDup (first_occurrences seen l).
Proof.
  revert seen; induction l as [|y l IH]; intros seen; simpl.
  - constructor.
  - destruct (mem_str y seen); [apply IH|].
    constructor; [|apply IH].
    rewrite first_occurrences_In. simpl. tauto.
Qed.

Lemma insert_by_slot_perm (slot : pystr -> nat) (x : pystr) (t : list pystr) :
  Permutation (x :: t) (insert_by_slot slot x t).
Proof.
  induction t as [|y t IH]; simpl; [reflexivity|].
  destruct (Nat.ltb (slot x) (slot y)); [reflexivity|].
  rewrite perm_swap. apply perm_skip. exact IH.
Qed.

Lemma fold_insert_perm (slot : pystr -> nat) (l t : list pystr) :
  Permutation (rev l ++ t)
              (fold_left (fun t x => insert_by_slot slot x t) l t).
Proof.
  revert t; induction l as [|x l IH]; intros t; simpl; [reflexivity|].
  rewrite <- IH, <- app_assoc. simpl.
  apply Permutation_app_head. apply insert_by_slot_perm.
Qed.

Lemma table_order_perm (slot : pystr -> nat) (l : list pystr) :
  Permutation (insertion_order l) (table_order slot l).
Proof.
  unfold table_order. rewrite <- fold_insert_perm, app_nil_r.
  apply Permutation_rev.
Qed.

Definition table_set (slot : pystr -> nat) : PySet.
Proof.
  refine {| elements := table_order slot |}.
  - intros l. apply (Permutation_NoDup (table_order_perm slot l)).
    apply first_occurrences_NoDup.
  - intros l x. split.
    + intros H. apply (Permutation_in _ (Permutation_sym (table_order_perm slot l))) in H.
      apply first_occurrences_In in H. tauto.
    + intros H. apply (Permutation_in _ (table_order_perm slot l)).
      apply first_occurrences_In. simpl. tauto.
Defined.

Section UsageDescription.

Variable lower : pystr -> pystr.
Variable ci_eq : char -> char -> bool.
Variable py_set : PySet.

(** C3, amended. For a reference with at least one citation, the usage
    description is the join with [", "] of the category labels given to
    the examined windows (the first three citations), every label once, in
    the order in which the runtime iterates the set of these labels; that
    order is the hash table's and need not be the order in which the
    labels were first produced. *)
Theorem analyze_reference_usage_description
        (text : pystr) (ref_parsed : ParsedReference) :
  exists cs,
    find_reference_citations lower ci_eq text ref_parsed = Some cs /\
    (cs <> [] ->
     exists order score,
       analyze_reference_usage lower ci_eq (elements py_set) text ref_parsed
       = Some (join (u ", ") order, score) /\
       NoDup order /\
       forall label,
         In label order <->
         exists c, In c (firstn 3 cs) /\
                   classify_context lower (context c) = label).
Proof.
  destruct (find_reference_citations_some lower ci_eq text ref_parsed)
    as [cs Hcs].
  exists cs. split; [exact Hcs|]. intros Hne.
  unfold analyze_reference_usage. rewrite Hcs. cbn [bind].
  destruct cs as [|c cs]; [contradiction|].
  exists (elements py_set (usage_contexts_of lower (c :: cs))).
  exists (if mem_str L_METHOD (usage_contexts_of lower (c :: cs))
             || mem_str L_FRAME (usage_contexts_of lower (c :: cs))
          then Z.min 100 (base_importance (List.length (c :: cs)) + 15)
          else base_importance (List.length (c :: cs))).
  split; [|split].
  - cbv zeta.
    destruct (usage_contexts_of lower (c :: cs)) eqn:E; [|reflexivity].
    rewrite usage_contexts_of_map in E. discriminate.
  - apply elements_NoDup.
  - intros label. rewrite elements_In, usage_contexts_of_map, in_map_iff.
    split; intros (x & H1 & H2); exists x; auto.
Qed.

End UsageDescription.

(** C3, as stated, fails: the windows are labelled theoretical framing,
    then method justification, and a set whose table puts the second label
    in an earlier slot yields the description in the other order. *)
Lemma analyze_reference_usage_description_counterexample :
  option_map (usage_contexts_of lower_latin1)
    (find_reference_citations lower_latin1 ci_eq_latin1 ex_text2 ex_ref2)
  = Some [L_FRAME; L_METHOD]
  /\ join (u ", ") (insertion_order [L_FRAME; L_METHOD])
     = u "cadre théorique, justification de méthode"
  /\ analyze_reference_usage lower_latin1 ci_eq_latin1
       (elements (table_set length_slot)) ex_text2 ex_ref2
     = Some (u "justification de méthode, cadre théorique", 65%Z).
Proof. vm_compute. repeat split. Qed.

Lemma analyze_reference_usage_description_witness :
  exists order score,
    analyze_reference_usage lower_latin1 ci_eq_latin1
      (elements (table_set length_slot)) ex_text2 ex_ref2
    = Some (join (u ", ") order, score) /\ NoDup order.
Proof.
  destruct (analyze_reference_usage_description lower_latin1 ci_eq_latin1
              (table_set length_slot) ex_text2 ex_ref2) as (cs & Hcs & H).
  destruct H as (order & score & Ha & Hnd & _).
  - vm_compute in Hcs. injection Hcs as <-. discriminate.
  - exists order, score. split; assumption.
Defined.

(** ** Matches that end in a literal

    Both citation patterns end in the escaped, parenthesized year: a
    sequence of one-character atoms. *)

Lemma prefix_ok_length (ps : list (char -> bool)) (s : pystr) :
  prefix_ok ps s = true -> (List.length ps <= List.length s)%nat.
Proof.
  revert s; induction ps as [|p ps IH]; intros [|c s] H; simpl in *;
    try lia; try discriminate.
  apply andb_true_iff in H as [_ H]. apply IH in H. lia.
Qed.

Lemma ones_match (ps : list (char -> bool)) (g : option nat) (pos : nat)
      (s : pystr) :
  re_match (ones ps) g pos s =
  if prefix_ok ps s
  then Some {| m_end := pos + List.length ps; m_g1 := None |}
  else None.
Proof.
  revert pos s; induction ps as [|p ps IH]; intros pos s; simpl.
  - rewrite Nat.add_0_r. reflexivity.
  - destruct s as [|c s]; [reflexivity|].
    destruct (p c); [|reflexivity]. cbn [andb].
    fold (ones ps). rewrite IH.
    replace (S pos + List.length ps)%nat with (pos + S (List.length ps))%nat
      by lia.
    reflexivity.
Qed.

Lemma star_inv (p : char -> bool) (k : nat -> pystr -> option mres)
      (s : pystr) :
  forall pos x,
    star p k pos s = Some x ->
    exists n, (n <= List.length s)%nat /\ k (pos + n)%nat (skipn n s) = Some x.
Proof.
  induction s as [|c s IH]; intros pos x H; simpl in H.
  - exists O. rewrite Nat.add_0_r. split; [lia|exact H].
  - destruct (p c).
    + destruct (star p k (S pos) s) as [y|] eqn:E.
      * injection H as <-. apply IH in E as (n & Hn & Hk).
        exists (S n). split; [simpl; lia|].
        replace (pos + S n)%nat with (S pos + n)%nat by lia. exact Hk.
      * exists O. rewrite Nat.add_0_r. split; [lia|exact H].
    + exists O. rewrite Nat.add_0_r. split; [lia|exact H].
Qed.

Lemma ends_in_shift (ps : list (char -> bool)) (pos : nat) (c : char)
      (s : pystr) (x : mres) :
  ends_in ps (S pos) s x -> ends_in ps pos (c :: s) x.
Proof.
  intros (n & Hl & He & Hp). exists (S n). simpl. repeat split; auto; lia.
Qed.

Lemma ends_in_skip (ps : list (char -> bool)) (pos n : nat)
      (s : pystr) (x : mres) :
  (n <= List.length s)%nat ->
  ends_in ps (pos + n) (skipn n s) x -> ends_in ps pos s x.
Proof.
  intros Hn (m & Hl & He & Hp). exists (n + m)%nat.
  rewrite length_skipn in Hl. rewrite skipn_skipn in Hp.
  replace (n + m)%nat with (m + n)%nat by lia.
  repeat split; auto; lia.
Qed.

Lemma re_match_ends_in (ps : list (char -> bool)) (a : regex) :
  forall g pos s x,
    re_match (a ++ ones ps) g pos s = Some x -> ends_in ps pos s x.
Proof.
  induction a as [|[q p| | | |] a IH]; intros g pos s x H.
  - cbn [app] in H. rewrite ones_match in H.
    destruct (prefix_ok ps s) eqn:E; [|discriminate]. injection H as <-.
    pose proof (prefix_ok_length ps s E) as Hlen.
    exists O. cbn [skipn m_end]. repeat split; auto; lia.
  - cbn [app re_match] in H. destruct q.
    + destruct s as [|c s]; [discriminate|].
      destruct (p c); [|discriminate].
      apply ends_in_shift. eapply IH. exact H.
    + destruct s as [|c s]; [eapply IH; exact H|].
      destruct (p c); [|eapply IH; exact H].
      destruct (re_match (a ++ ones ps) g (S pos) s) as [y|] eqn:E.
      * injection H as <-. apply ends_in_shift. eapply IH. exact E.
      * eapply IH. exact H.
    + apply star_inv in H as (n & Hn & Hk).
      apply (ends_in_skip ps pos n s x Hn). eapply IH. exact Hk.
    + destruct s as [|c s]; [discriminate|].
      destruct (p c); [|discriminate].
      apply star_inv in H as (n & Hn & Hk).
      apply ends_in_shift.
      apply (ends_in_skip ps (S pos) n s x Hn). eapply IH. exact Hk.
  - cbn [app re_match] in H. eapply IH. exact H.
  - cbn [app re_match] in H.
    destruct (re_match (a ++ ones ps) g pos s) as [y|] eqn:E; [|discriminate].
    injection H as <-. apply IH in E as (n & Hl & He & Hp).
    exists n. cbn [m_end]. auto.
  - cbn [app re_match] in H.
    destruct (Nat.eqb pos 0); [|discriminate]. eapply IH. exact H.
  - cbn [app re_match] in H. destruct s as [|c [|c' s]].
    + eapply IH. exact H.
    + destruct (c =? ch_nl); [|discriminate]. eapply IH. exact H.
    + discriminate.
Qed.

(** Every element of [finditer] is a match of the pattern at its start. *)
Lemma finditer_from_In (r : regex) (s : pystr) :
  forall pos skip mt,
    In mt (finditer_from r pos skip s) ->
    exists i x,
      (i <= List.length s)%nat /\
      r_start mt = (pos + i)%nat /\ r_end mt = m_end x /\
      re_match r None (pos + i) (skipn i s) = Some x.
Proof.
  induction s as [|c s IH]; intros pos skip mt H.
  - destruct skip; [|contradiction]. cbn [finditer_from] in H.
    destruct (re_match r None pos []) as [x|] eqn:E; [|contradiction].
    destruct H as [<-|[]]. exists O, x. rewrite Nat.add_0_r.
    repeat split; auto.
  - assert (Hstep : forall k,
               In mt (finditer_from r (S pos) k s) ->
               exists i x,
                 (i <= List.length (c :: s))%nat /\
                 r_start mt = (pos + i)%nat /\ r_end mt = m_end x /\
                 re_match r None (pos + i) (skipn i (c :: s)) = Some x).
    { intros k Hk. apply IH in Hk as (i & x & Hi & Hs & He & Hm).
      exists (S i), x. replace (pos + S i)%nat with (S pos + i)%nat by lia.
      cbn [skipn]. repeat split; auto. simpl; lia. }
    destruct skip as [|k]; cbn [finditer_from] in H.
    + destruct (re_match r None pos (c :: s)) as [x|] eqn:E.
      * destruct H as [<-|H]; [|eapply Hstep; exact H].
        exists O, x. rewrite Nat.add_0_r. repeat split; auto. simpl; lia.
      * eapply Hstep; exact H.
    + eapply Hstep; exact H.
Qed.

(** ** Counting the matches of a literal

    [finditer] over a literal takes the leftmost occurrence and resumes
    behind it; no other choice of disjoint occurrences has more members. *)

Section LiteralCount.

Variable ps : list (char -> bool).
Hypothesis ps_nonempty : ps <> [].

Lemma prefix_ok_nil : prefix_ok ps [] = false.
Proof. destruct ps; [contradiction|reflexivity]. Qed.

Lemma finditer_ones_pos (s : pystr) :
  forall pos pos' skip,
    List.length (finditer_from (ones ps) pos skip s) =
    List.length (finditer_from (ones ps) pos' skip s).
Proof.
  induction s as [|c s IH]; intros pos pos' skip.
  - destruct skip; [|reflexivity]. cbn [finditer_from].
    rewrite !ones_match, prefix_ok_nil. reflexivity.
  - destruct skip as [|k]; cbn [finditer_from]; [|apply IH].
    rewrite !ones_match. destruct (prefix_ok ps (c :: s)); [|apply IH].
    cbn [List.length m_end]. f_equal.
    replace (pos + List.length ps - pos - 1)%nat
      with (List.length ps - 1)%nat by lia.
    replace (pos' + List.length ps - pos' - 1)%nat
      with (List.length ps - 1)%nat by lia.
    apply IH.
Qed.

Lemma count_lit_nil : count_lit ps [] = O.
Proof.
  unfold count_lit. cbn [finditer_from].
  rewrite ones_match, prefix_ok_nil. reflexivity.
Qed.

Lemma finditer_ones_skip (s : pystr) :
  forall pos skip,
    List.length (finditer_from (ones ps) pos skip s) =
    count_lit ps (skipn skip s).
Proof.
  induction s as [|c s IH]; intros pos skip.
  - rewrite skipn_nil, count_lit_nil. destruct skip; [|reflexivity].
    cbn [finditer_from]. rewrite ones_match, prefix_ok_nil. reflexivity.
  - destruct skip as [|k].
    + cbn [skipn]. apply finditer_ones_pos.
    + cbn [finditer_from skipn]. apply IH.
Qed.

Lemma count_lit_cons (c : char) (s : pystr) :
  count_lit ps (c :: s) =
  if prefix_ok ps (c :: s)
  then S (count_lit ps (skipn (List.length ps - 1) s))
  else count_lit ps s.
Proof.
  unfold count_lit at 1. cbn [finditer_from]. rewrite ones_match.
  destruct (prefix_ok ps (c :: s)).
  - cbn [List.length m_end]. f_equal.
    replace (0 + List.length ps - 0 - 1)%nat with (List.length ps - 1)%nat
      by lia.
    apply finditer_ones_skip.
  - rewrite (finditer_ones_skip s 1 0). reflexivity.
Qed.

Lemma length_pos : (1 <= List.length ps)%nat.
Proof. destruct ps; [contradiction|simpl; lia]. Qed.

(** A non-empty scan starts with a first occurrence. *)
Lemma count_lit_first (s : pystr) :
  count_lit ps s = O \/
  exists o, count_lit ps s = S (count_lit ps (skipn (o + List.length ps) s)).
Proof.
  pose proof length_pos as Hk.
  induction s as [|c s IH].
  - left. apply count_lit_nil.
  - rewrite count_lit_cons. destruct (prefix_ok ps (c :: s)).
    + right. exists O.
      replace (0 + List.length ps)%nat with (S (List.length ps - 1)) by lia.
      reflexivity.
    + destruct IH as [H|[o H]]; [left; exact H|right].
      exists (S o). cbn [Nat.add skipn]. exact H.
Qed.

(** Starting later never finds more. *)
Lemma count_lit_skipn_le (n : nat) :
  forall s j,
    (List.length s <= n)%nat ->
    (count_lit ps (skipn j s) <= count_lit ps s)%nat.
Proof.
  pose proof length_pos as Hk.
  induction n as [|n IH]; intros s j Hlen.
  - destruct s; [|simpl in Hlen; lia]. rewrite skipn_nil. lia.
  - destruct s as [|c s]; [rewrite skipn_nil; lia|].
    destruct j as [|j]; [cbn [skipn]; lia|].
    simpl in Hlen. cbn [skipn]. rewrite count_lit_cons.
    destruct (prefix_ok ps (c :: s)); [|apply IH; lia].
    set (k1 := (List.length ps - 1)%nat).
    destruct (Nat.le_gt_cases k1 j) as [Hle|Hgt].
    + replace j with ((j - k1) + k1)%nat by lia.
      rewrite <- skipn_skipn.
      apply Nat.le_trans with (count_lit ps (skipn k1 s)); [|lia].
      apply IH. rewrite length_skipn. lia.
    + destruct (count_lit_first (skipn j s)) as [H|[o H]]; [lia|].
      rewrite H. apply le_n_S.
      rewrite skipn_skipn.
      replace (o + List.length ps + j)%nat with ((o + 1 + j) + k1)%nat
        by (unfold k1; lia).
      rewrite <- skipn_skipn.
      apply IH. rewrite length_skipn. lia.
Qed.

(** An occurrence at offset [j] leaves room for one match in front of
    whatever is found behind it. *)
Lemma count_lit_occurrence (j : nat) :
  forall s,
    prefix_ok ps (skipn j s) = true ->
    (S (count_lit ps (skipn (j + List.length ps) s)) <= count_lit ps s)%nat.
Proof.
  pose proof length_pos as Hk.
  induction j as [|j IH]; intros s H.
  - destruct s as [|c s]; [cbn [skipn] in H; rewrite prefix_ok_nil in H;
                           discriminate|].
    cbn [skipn] in H. rewrite count_lit_cons, H.
    replace (0 + List.length ps)%nat with (S (List.length ps - 1)) by lia.
    cbn [skipn]. lia.
  - destruct s as [|c s]; [rewrite skipn_nil, prefix_ok_nil in H;
                           discriminate|].
    cbn [skipn] in H. rewrite count_lit_cons.
    destruct (prefix_ok ps (c :: s)).
    + apply le_n_S.
      replace (S j + List.length ps)%nat
        with (S ((j + 1) + (List.length ps - 1)))%nat by lia.
      cbn [skipn]. rewrite <- skipn_skipn.
      apply (count_lit_skipn_le (List.length (skipn (List.length ps - 1) s))).
      lia.
    + cbn [Nat.add skipn]. apply IH. exact H.
Qed.


End LiteralCount.

Section BareYearCitations.

Variable lower : pystr -> pystr.
Variable ci_eq : char -> char -> bool.

Lemma year_pattern_ones (year : pystr) :
  year_pattern ci_eq year = ones (year_atoms ci_eq year).
Proof.
  unfold year_pattern, year_atoms, ones, ilits, ilit.
  cbn [app map]. rewrite map_app, map_map. reflexivity.
Qed.

Lemma pattern1_ends_in_year (ref_parsed : ParsedReference) (p1 : regex) :
  pattern1 lower ci_eq ref_parsed = Some p1 ->
  forall pos s x,
    re_match p1 None pos s = Some x ->
    ends_in (year_atoms ci_eq (year ref_parsed)) pos s x.
Proof.
  intros Hp1 pos s x Hm.
  destruct (pattern1_some lower ci_eq ref_parsed) as (p & Hp & Hshape).
  assert (p = p1) by congruence. subst p.
  destruct Hshape as [-> | ->].
  - unfold etal_pattern in Hm. rewrite year_pattern_ones in Hm.
    rewrite !app_assoc in Hm. eapply re_match_ends_in. exact Hm.
  - unfold author_pattern in Hm. rewrite year_pattern_ones in Hm.
    rewrite !app_assoc in Hm. eapply re_match_ends_in. exact Hm.
Qed.


End BareYearCitations.


(** ** Splitting, stripping and replacing *)

Lemma split_char_no_sep (sep : char) (s : pystr) :
  ~ In sep s -> split_char sep s = [s].
Proof.
  induction s as [|c s IH]; intros H; simpl; [reflexivity|].
  destruct (N.eqb_spec c sep) as [->|Hne]; [exfalso; apply H; left; reflexivity|].
  rewrite IH; [reflexivity|]. intros Hin. apply H. right. exact Hin.
Qed.

Lemma split_char_app (sep : char) (l rest : pystr) :
  ~ In sep l ->
  split_char sep (l ++ sep :: rest) = l :: split_char sep rest.
Proof.
  induction l as [|c l IH]; intros H; simpl.
  - rewrite N.eqb_refl. reflexivity.
  - destruct (N.eqb_spec c sep) as [->|Hne]; [exfalso; apply H; left; reflexivity|].
    rewrite IH; [reflexivity|]. intros Hin. apply H. right. exact Hin.
Qed.

(** The lines written by [print] come back from [split('\n')], followed by
    one empty piece. *)
Lemma split_lines (lines : list pystr) :
  Forall (fun l => ~ In ch_nl l) lines ->
  split_char ch_nl (concat (map (fun l => l ++ [ch_nl]) lines)) = lines ++ [[]].
Proof.
  induction 1 as [|l lines Hl _ IH]; [reflexivity|].
  cbn [map concat app]. rewrite <- app_assoc. cbn [app].
  rewrite split_char_app by exact Hl. rewrite IH. reflexivity.
Qed.

Lemma lstrip_no_space (s : pystr) :
  Forall (fun c => is_space c = false) s -> lstrip s = s.
Proof. destruct 1 as [|c s Hc _]; simpl; [reflexivity|]. rewrite Hc. reflexivity. Qed.

Lemma lstrip_cons (c : char) (s : pystr) :
  is_space c = false -> lstrip (c :: s) = c :: s.
Proof. intros H. simpl. rewrite H. reflexivity. Qed.

Lemma rstrip_snoc (s : pystr) (c : char) :
  is_space c = false -> rstrip (s ++ [c]) = s ++ [c].
Proof.
  intros H. unfold rstrip. rewrite rev_app_distr. cbn [rev app].
  rewrite lstrip_cons by exact H.
  change (c :: rev s) with ([c] ++ rev s).
  rewrite rev_app_distr, rev_involutive. reflexivity.
Qed.

(** A line that starts and ends with a character that is no whitespace is
    left alone by [strip]. *)
Lemma strip_framed (a b : char) (s : pystr) :
  is_space a = false -> is_space b = false ->
  strip (a :: s ++ [b]) = a :: s ++ [b].
Proof.
  intros Ha Hb. unfold strip. rewrite lstrip_cons by exact Ha.
  change (a :: s ++ [b]) with ((a :: s) ++ [b]). apply rstrip_snoc. exact Hb.
Qed.

Lemma lstrip_length (s : pystr) : (List.length (lstrip s) <= List.length s)%nat.
Proof.
  induction s as [|c s IH]; simpl; [lia|]. destruct (is_space c); simpl; lia.
Qed.

Lemma lstrip_same_length (s : pystr) :
  List.length (lstrip s) = List.length s -> lstrip s = s.
Proof.
  destruct s as [|c s]; simpl; [reflexivity|].
  destruct (is_space c); [|reflexivity].
  pose proof (lstrip_length s) as Hlen. intros H. lia.
Qed.

Lemma rstrip_length (s : pystr) : (List.length (rstrip s) <= List.length s)%nat.
Proof.
  unfold rstrip. rewrite length_rev.
  pose proof (lstrip_length (rev s)) as H. rewrite length_rev in H. exact H.
Qed.

(** A stripped string is a fixed point of both halves of [strip]. *)
Lemma strip_fixed (s : pystr) :
  strip s = s -> lstrip s = s /\ rstrip s = s.
Proof.
  intros H. assert (Hl : lstrip s = s).
  { apply lstrip_same_length.
    pose proof (lstrip_length s) as Hlen. pose proof (rstrip_length (lstrip s)) as Hr.
    unfold strip in H. rewrite H in Hr. lia. }
  split; [exact Hl|]. unfold strip in H. rewrite Hl in H. exact H.
Qed.

(** A stripped cell between two spaces is recovered by [strip]. *)
Lemma strip_padded (c : pystr) :
  strip c = c -> strip (ch_space :: c ++ [ch_space]) = c.
Proof.
  intros H. apply strip_fixed in H as [Hl Hr].
  unfold strip. cbn [lstrip]. change (is_space ch_space) with true. cbv iota.
  destruct c as [|a c].
  - reflexivity.
  - assert (Ha : is_space a = false).
    { simpl in Hl. destruct (is_space a); [|reflexivity].
      pose proof (lstrip_length c) as Hlen. rewrite Hl in Hlen. simpl in Hlen. lia. }
    cbn [app]. rewrite lstrip_cons by exact Ha.
    unfold rstrip. change (a :: c ++ [ch_space]) with ((a :: c) ++ [ch_space]).
    rewrite rev_app_distr. cbn [rev app lstrip].
    change (is_space ch_space) with true. cbv iota.
    exact Hr.
Qed.

Lemma startswith_head (c : char) (s : pystr) (d : char) :
  startswith [c] (d :: s) = (c =? d).
Proof. simpl. apply andb_true_r. Qed.

(** Escaping changes nothing when there is nothing to escape. *)
Lemma replace_absent_char (c : char) (new s : pystr) :
  ~ In c s -> replace [c] new s = s.
Proof.
  unfold replace. induction s as [|d s IH]; intros H; [reflexivity|].
  cbn [replace_from]. rewrite startswith_head.
  destruct (N.eqb_spec c d) as [->|Hne]; [exfalso; apply H; left; reflexivity|].
  rewrite IH; [reflexivity|]. intros Hin. apply H. right. exact Hin.
Qed.

(** ** Decimal numerals *)

Lemma digits_of_uint (d : Decimal.uint) :
  Forall (fun c => is_digit c = true)
         (str_of_string (DecimalString.NilEmpty.string_of_uint d)).
Proof.
  induction d; simpl; constructor; try reflexivity; assumption.
Qed.

Lemma str_of_int_shape (n : Z) :
  exists d ds,
    is_digit d = true /\ Forall (fun c => is_digit c = true) ds /\
    (str_of_int n = d :: ds \/ str_of_int n = ch_minus :: d :: ds).
Proof.
  assert (Hu : forall dd : Decimal.uint,
             exists d ds,
               is_digit d = true /\ Forall (fun c => is_digit c = true) ds /\
               str_of_string (DecimalString.NilZero.string_of_uint dd) = d :: ds).
  { intros dd. pose proof (digits_of_uint dd) as H.
    destruct dd; simpl in *;
      first [ exists 48, []; repeat split; constructor
            | inversion H; subst; do 2 eexists; repeat split; eauto; fail ]. }
  unfold str_of_int, DecimalString.NilZero.string_of_int.
  destruct (Z.to_int n) as [dd|dd]; destruct (Hu dd) as (d & ds & Hd & Hds & He);
    exists d, ds; repeat split; auto.
  right.
  change (str_of_string
            (String "-"%char (DecimalString.NilZero.string_of_uint dd)))
    with (ch_minus :: str_of_string (DecimalString.NilZero.string_of_uint dd)).
  rewrite He. reflexivity.
Qed.

Lemma digit_cases (c : char) :
  is_digit c = true ->
  c = 48 \/ c = 49 \/ c = 50 \/ c = 51 \/ c = 52 \/ c = 53 \/ c = 54
  \/ c = 55 \/ c = 56 \/ c = 57.
Proof.
  unfold is_digit. intros H. apply andb_true_iff in H as [H1 H2].
  apply N.leb_le in H1, H2. lia.
Qed.

(** A decimal numeral holds no pipe, no line feed and no whitespace. *)
Lemma numeral_char (n : Z) (c : char) :
  In c (str_of_int n) ->
  c <> ch_pipe /\ c <> ch_nl /\ is_space c = false.
Proof.
  destruct (str_of_int_shape n) as (d & ds & Hd & Hds & He).
  assert (Hdig : forall x, is_digit x = true ->
                           x <> ch_pipe /\ x <> ch_nl /\ is_space x = false).
  { intros x Hx. apply digit_cases in Hx.
    repeat (destruct Hx as [->|Hx]; [repeat split; discriminate || reflexivity|]).
    subst. repeat split; discriminate || reflexivity. }
  rewrite Forall_forall in Hds.
  intros Hin. destruct He as [He|He]; rewrite He in Hin.
  - destruct Hin as [<-|Hin]; auto.
  - destruct Hin as [<-|[<-|Hin]]; auto.
    repeat split; discriminate || reflexivity.
Qed.

(** ** Lines of the emitted table *)

Lemma star_inv_class (p : char -> bool) (k : nat -> pystr -> option mres)
      (s : pystr) :
  forall pos x,
    star p k pos s = Some x ->
    exists n,
      (n <= List.length s)%nat /\ forallb p (firstn n s) = true /\
      k (pos + n)%nat (skipn n s) = Some x.
Proof.
  induction s as [|c s IH]; intros pos x H; simpl in H.
  - exists O. rewrite Nat.add_0_r. repeat split; auto.
  - destruct (p c) eqn:Hc.
    + destruct (star p k (S pos) s) as [y|] eqn:E.
      * injection H as <-. apply IH in E as (n & Hn & Hall & Hk).
        exists (S n). cbn [firstn forallb skipn]. rewrite Hc, Hall.
        replace (pos + S n)%nat with (S pos + n)%nat by lia.
        repeat split; auto. simpl; lia.
      * exists O. rewrite Nat.add_0_r. repeat split; auto. simpl; lia.
    + exists O. rewrite Nat.add_0_r. repeat split; auto. simpl; lia.
Qed.

Lemma is_separator_class (line : pystr) :
  is_separator line = true -> Forall (fun c => sep_class c = true) line.
Proof.
  unfold is_separator, py_re_match, SEP_RE. cbn [re_match Nat.eqb].
  destruct line as [|c s]; [intros _; constructor|].
  fold (sep_class c).
  destruct (sep_class c) eqn:Hc; [|discriminate].
  match goal with
  | |- context [star ?p ?k 1%nat s] =>
    change p with sep_class; destruct (star sep_class k 1%nat s) as [x|] eqn:E
  end; [|discriminate].
  intros _. apply star_inv_class in E as (n & Hn & Hall & Hk).
  cbv beta in Hk.
  constructor; [exact Hc|].
  rewrite <- (firstn_skipn n s). apply Forall_app. split.
  - apply Forall_forall. rewrite forallb_forall in Hall. exact Hall.
  - destruct (skipn n s) as [|a [|b t]].
    + constructor.
    + destruct (a =? ch_nl) eqn:Ea; [|discriminate].
      apply N.eqb_eq in Ea. rewrite Ea.
      constructor; [reflexivity|constructor].
    + discriminate.
Qed.

Lemma split_char_head (sep : char) (rest : pystr) :
  split_char sep (sep :: rest) = [] :: split_char sep rest.
Proof. simpl. rewrite N.eqb_refl. reflexivity. Qed.

Lemma row_line_eq (r : ResultRow) :
  ~ In ch_pipe (reference r) ->
  row_line r =
  ch_pipe :: pad (reference r) ++ ch_pipe :: pad (theme r)
  ++ ch_pipe :: pad (usage r) ++ ch_pipe :: pad (str_of_int (importance r))
  ++ ch_pipe :: pad (row_year r) ++ ch_pipe :: pad (link r) ++ [ch_pipe].
Proof.
  intros H. unfold row_line. cbv zeta.
  rewrite replace_absent_char by exact H.
  change (u "| ") with [ch_pipe; ch_space].
  change (u " | ") with [ch_space; ch_pipe; ch_space].
  change (u " |") with [ch_space; ch_pipe].
  unfold pad. cbn [app]. repeat (rewrite <- !app_assoc; cbn [app]).
  reflexivity.
Qed.

Lemma numeral_clean (n : Z) : clean_cell (str_of_int n).
Proof.
  repeat split.
  - intros H. apply numeral_char in H. tauto.
  - intros H. apply numeral_char in H. tauto.
  - assert (Hs : Forall (fun c => is_space c = false) (str_of_int n)).
    { apply Forall_forall. intros c H. apply numeral_char in H. tauto. }
    destruct (str_of_int_shape n) as (d & ds & _ & _ & He).
    assert (Hne : str_of_int n <> []) by (destruct He as [-> | ->]; discriminate).
    destruct (exists_last Hne) as (body & z & Hz).
    rewrite Hz in Hs |- *. destruct body as [|a body].
    + inversion Hs; subst. unfold strip. cbn [app lstrip].
      rewrite H1. unfold rstrip. cbn [rev app lstrip]. rewrite H1. reflexivity.
    + inversion Hs as [|? ? Ha Hrest]; subst.
      apply Forall_app in Hrest as [_ Hzs]. inversion Hzs; subst.
      cbn [app]. apply strip_framed; assumption.
Qed.

Lemma pad_no_pipe (c : pystr) : ~ In ch_pipe c -> ~ In ch_pipe (pad c).
Proof.
  intros H [Hin|Hin]; [discriminate|].
  apply in_app_or in Hin as [Hin|[Hin|[]]]; [tauto|discriminate].
Qed.

Lemma pad_no_nl (c : pystr) : ~ In ch_nl c -> ~ In ch_nl (pad c).
Proof.
  intros H [Hin|Hin]; [discriminate|].
  apply in_app_or in Hin as [Hin|[Hin|[]]]; [tauto|discriminate].
Qed.

Section RowLines.

Variable r : ResultRow.
Hypothesis r_clean : clean_row r.

Lemma split_cells_row_line : split_cells (row_line r) = row_cells r.
Proof.
  destruct r_clean as ((P1 & _ & S1) & (P2 & _ & S2) & (P3 & _ & S3)
                       & (P5 & _ & S5) & (P6 & _ & S6)).
  destruct (numeral_clean (importance r)) as (P4 & _ & S4).
  unfold split_cells. rewrite row_line_eq by exact P1.
  rewrite (split_char_head ch_pipe).
  rewrite !(split_char_app ch_pipe) by (apply pad_no_pipe; assumption).
  cbn [split_char middle tl removelast map]. unfold pad, row_cells.
  rewrite !strip_padded by assumption. reflexivity.
Qed.

Lemma row_line_no_nl : ~ In ch_nl (row_line r).
Proof.
  destruct r_clean as ((P1 & N1 & _) & (_ & N2 & _) & (_ & N3 & _)
                       & (_ & N5 & _) & (_ & N6 & _)).
  destruct (numeral_clean (importance r)) as (_ & N4 & _).
  rewrite row_line_eq by exact P1.
  intros [H|H]; [discriminate|].
  repeat (apply in_app_or in H as [H|[H|H]];
          [eapply pad_no_nl; [|exact H]; assumption|discriminate|]).
  destruct H.
Qed.

Lemma row_line_strip : strip (row_line r) = row_line r.
Proof.
  destruct r_clean as ((P1 & _) & _).
  rewrite row_line_eq by exact P1.
  rewrite !app_comm_cons, !app_assoc.
  rewrite <- !app_comm_cons.
  apply strip_framed; reflexivity.
Qed.

Lemma row_line_not_blank : is_blank (row_line r) = false.
Proof.
  destruct r_clean as ((P1 & _) & _).
  rewrite row_line_eq by exact P1. reflexivity.
Qed.

Lemma row_line_not_separator : is_separator (row_line r) = false.
Proof.
  destruct (is_separator (row_line r)) eqn:E; [exfalso|reflexivity].
  apply is_separator_class in E. rewrite Forall_forall in E.
  destruct r_clean as ((P1 & _) & _).
  destruct (str_of_int_shape (importance r)) as (d & ds & Hd & _ & He).
  assert (Hin : In d (row_line r)).
  { rewrite row_line_eq by exact P1. right.
    do 3 (apply in_or_app; right; right).
    apply in_or_app. left. unfold pad. right. apply in_or_app. left.
    destruct He as [-> | ->]; simpl; auto. }
  apply E in Hin. apply digit_cases in Hd.
  repeat (destruct Hd as [->|Hd]; [discriminate|]). subst. discriminate.
Qed.

End RowLines.

(** ** Emitting a table and parsing it back *)

Lemma filter_all {A : Type} (f : A -> bool) (l : list A) :
  Forall (fun x => f x = true) l -> filter f l = l.
Proof.
  induction 1 as [|x l Hx _ IH]; simpl; [reflexivity|].
  rewrite Hx, IH. reflexivity.
Qed.

Lemma map_fixed {A : Type} (f : A -> A) (l : list A) :
  Forall (fun x => f x = x) l -> map f l = l.
Proof.
  induction 1 as [|x l Hx _ IH]; simpl; [reflexivity|].
  rewrite Hx, IH. reflexivity.
Qed.

Lemma not_in_char (c : char) (s : pystr) :
  existsb (N.eqb c) s = false -> ~ In c s.
Proof.
  intros H Hin.
  assert (existsb (N.eqb c) s = true)
    by (apply existsb_exists; exists c; split; [exact Hin|apply N.eqb_refl]).
  congruence.
Qed.

Section RoundTrip.

Variable results : list ResultRow.
Hypothesis results_clean : Forall clean_row results.

Let lines : list pystr := HEADER_LINE :: SEPARATOR_LINE :: map row_line results.

Lemma emitted_lines :
  split_char ch_nl (emit_table results) = lines ++ [[]].
Proof.
  unfold emit_table. apply split_lines.
  constructor; [apply not_in_char; vm_compute; reflexivity|].
  constructor; [apply not_in_char; vm_compute; reflexivity|].
  apply Forall_forall. intros l Hl. apply in_map_iff in Hl as (r & <- & Hr).
  apply row_line_no_nl. rewrite Forall_forall in results_clean. auto.
Qed.

Lemma kept_lines :
  map strip
      (filter (fun line => negb (is_blank (strip line))) (lines ++ [[]]))
  = lines.
Proof.
  assert (Hs : Forall (fun l => strip l = l) lines).
  { constructor; [vm_compute; reflexivity|].
    constructor; [vm_compute; reflexivity|].
    apply Forall_forall. intros l Hl. apply in_map_iff in Hl as (r & <- & Hr).
    apply row_line_strip. rewrite Forall_forall in results_clean. auto. }
  assert (Hb : Forall (fun l => negb (is_blank (strip l)) = true) lines).
  { constructor; [vm_compute; reflexivity|].
    constructor; [vm_compute; reflexivity|].
    apply Forall_forall. intros l Hl. apply in_map_iff in Hl as (r & <- & Hr).
    rewrite Forall_forall in results_clean.
    rewrite row_line_strip, row_line_not_blank by auto. reflexivity. }
  rewrite filter_app, (filter_all _ lines Hb). cbn [filter].
  change (negb (is_blank (strip []))) with false. cbv iota.
  rewrite app_nil_r. apply map_fixed. exact Hs.
Qed.

Lemma data_lines_of_table :
  filter (fun line => negb (is_separator line)) lines
  = HEADER_LINE :: map row_line results.
Proof.
  unfold lines. cbn [filter].
  replace (is_separator HEADER_LINE) with false by (vm_compute; reflexivity).
  replace (is_separator SEPARATOR_LINE) with true by (vm_compute; reflexivity).
  cbn [negb]. f_equal. apply filter_all.
  apply Forall_forall. intros l Hl. apply in_map_iff in Hl as (r & <- & Hr).
  rewrite Forall_forall in results_clean.
  rewrite row_line_not_separator by auto. reflexivity.
Qed.

End RoundTrip.

Lemma parsed_rows (results : list ResultRow) :
  Forall clean_row results ->
  forall init,
    fold_left
      (fun rows line =>
         if Nat.eqb (List.length (split_cells line)) 6
         then rows ++ [map fix_cell (split_cells line)]
         else rows)
      (map row_line results) init
    = init ++ map (fun r => map fix_cell (row_cells r)) results.
Proof.
  induction 1 as [|r rs Hr _ IH]; intros init.
  - cbn. rewrite app_nil_r. reflexivity.
  - cbn [map fold_left].
    rewrite (split_cells_row_line r Hr). cbn [row_cells List.length Nat.eqb].
    rewrite IH, <- app_assoc. reflexivity.
Qed.

(** C2, amended. A table whose cells hold no pipe and no line feed and are
    already stripped is emitted by the pipeline and parsed back by the
    table normalizer to its six headers and to its rows, each cell up to
    the corrections of mis-encoded accents. Tables with other cells are
    left out. *)
Theorem emit_parse_roundtrip (results : list ResultRow) :
  Forall clean_row results ->
  parse_markdown_table (emit_table results) =
  (TABLE_HEADERS, map (fun r => map fix_cell (row_cells r)) results).
Proof.
  intros Hclean. unfold parse_markdown_table.
  pose proof (emitted_lines results Hclean) as Hsplit.
  destruct (emit_table results) as [|c rest] eqn:E.
  { cbn in Hsplit. discriminate. }
  rewrite Hsplit, (kept_lines results Hclean). clear Hsplit E c rest.
  cbv zeta. cbn [List.length Nat.ltb Nat.leb].
  rewrite (data_lines_of_table results Hclean).
  replace (map fix_header (split_cells HEADER_LINE)) with TABLE_HEADERS
    by (vm_compute; reflexivity).
  change (List.length TABLE_HEADERS) with 6%nat.
  rewrite (parsed_rows results Hclean). reflexivity.
Qed.

(** C2, as stated, fails: a reference holding a pipe is emitted with the
    pipe escaped, the parser splits on that pipe all the same, counts
    seven cells against six headers and drops the row. *)
Lemma emit_parse_roundtrip_counterexample :
  List.length (row_cells ex_row_pipe) = 6%nat
  /\ row_line ex_row_pipe
     = u "| Smith, J. (2019) - Waves \| Tides | Applications et études de cas | Référence citée dans la bibliographie mais usage non détecté dans le texte | 30 | 2019 |  |"
  /\ List.length (split_cells (row_line ex_row_pipe)) = 7%nat
  /\ parse_markdown_table (emit_table [ex_row_pipe]) = (TABLE_HEADERS, []).
Proof. vm_compute. repeat split. Qed.

Lemma ex_row_clean_ok : clean_row ex_row_clean.
Proof.
  repeat split;
    try (apply not_in_char; vm_compute; reflexivity);
    vm_compute; reflexivity.
Qed.

Lemma emit_parse_roundtrip_witness :
  parse_markdown_table (emit_table [ex_row_clean]) =
  (TABLE_HEADERS, [row_cells ex_row_clean]).
Proof.
  rewrite (emit_parse_roundtrip [ex_row_clean]).
  - vm_compute. reflexivity.
  - constructor; [exact ex_row_clean_ok|constructor].
Defined.

(** ** Dictionaries *)

Lemma str_eqb_neq (a b : pystr) : str_eqb a b = false <-> a <> b.
Proof.
  rewrite <- str_eqb_eq. destruct (str_eqb a b); split; congruence.
Qed.

Lemma dict_set_keys {V : Type} (k : pystr) (v : V) (d : dict V) (k' : pystr) :
  In k' (keys (dict_set k v d)) <-> k' = k \/ In k' (keys d).
Proof.
  induction d as [|[k0 v0] d IH]; simpl.
  - split; intros [H|H]; auto.
  - destruct (str_eqb k0 k) eqn:E; simpl.
    + apply str_eqb_eq in E. subst k0. unfold keys. intuition congruence.
    + rewrite IH. tauto.
Qed.

Lemma dict_set_NoDup {V : Type} (k : pystr) (v : V) (d : dict V) :
  NoDup (keys d) -> NoDup (keys (dict_set k v d)).
Proof.
  induction d as [|[k0 v0] d IH]; simpl; intros H.
  - constructor; [intros []|constructor].
  - inversion H as [|? ? Hn Hd]; subst.
    destruct (str_eqb k0 k) eqn:E; simpl.
    + constructor; assumption.
    + constructor; [|apply IH; assumption].
      fold (keys (dict_set k v d)). rewrite dict_set_keys.
      apply str_eqb_neq in E. intros [->|Hin]; [congruence|contradiction].
Qed.

Lemma dict_get_set {V : Type} (k : pystr) (v : V) (d : dict V) (k' : pystr) :
  dict_get k' (dict_set k v d) = if str_eqb k k' then Some v else dict_get k' d.
Proof.
  induction d as [|[k0 v0] d IH]; simpl.
  - reflexivity.
  - destruct (str_eqb k0 k) eqn:E; simpl.
    + apply str_eqb_eq in E. subst k0. destruct (str_eqb k k'); reflexivity.
    + rewrite IH. destruct (str_eqb k0 k') eqn:E'; [|reflexivity].
      apply str_eqb_eq in E'. subst k'.
      assert (E2 : str_eqb k k0 = false)
        by (apply str_eqb_neq; apply str_eqb_neq in E; congruence).
      rewrite E2. reflexivity.
Qed.

(** Assigning [f x] to every key [x] of a list, in order *)
Lemma dict_get_fold_set {V : Type} (f : pystr -> V) (l : list pystr) :
  forall (d : dict V) (k : pystr),
    dict_get k (fold_left (fun m x => dict_set x (f x) m) l d) =
    if mem_str k l then Some (f k) else dict_get k d.
Proof.
  induction l as [|x l IH]; intros d k; simpl; [reflexivity|].
  rewrite IH, dict_get_set.
  destruct (str_eqb k x) eqn:E; simpl.
  - apply str_eqb_eq in E. subst x. rewrite str_eqb_refl.
    destruct (mem_str k l); reflexivity.
  - assert (E' : str_eqb x k = false).
    { apply str_eqb_neq. apply str_eqb_neq in E. congruence. }
    rewrite E'. reflexivity.
Qed.

(** ** Counting and ranking themes *)

Lemma count_themes_step_keys (idx : nat) (rows : list (list pystr)) :
  forall acc : dict nat,
    NoDup (keys acc) ->
    let d :=
      fold_left
        (fun theme_counts row =>
           match nth_error row idx with
           | Some cell =>
             let theme := strip cell in
             let n := match dict_get theme theme_counts with
                      | Some n => n
                      | None => O
                      end in
             dict_set theme (n + 1)%nat theme_counts
           | None => theme_counts
           end)
        rows acc in
    NoDup (keys d) /\
    (forall k, In k (keys acc) -> In k (keys d)) /\
    (forall row cell,
        In row rows -> nth_error row idx = Some cell -> In (strip cell) (keys d)).
Proof.
  induction rows as [|row rows IH]; intros acc Hnd; cbv zeta.
  - simpl. repeat split; auto. intros row cell [].
  - cbn [fold_left]. destruct (nth_error row idx) as [cell|] eqn:E.
    + set (acc' := dict_set (strip cell) _ acc).
      destruct (IH acc' (dict_set_NoDup _ _ _ Hnd)) as (H1 & H2 & H3).
      cbv zeta in H1, H2, H3. repeat split; auto.
      * intros k Hk. apply H2. apply dict_set_keys. auto.
      * intros row' cell' [<-|Hin] Hc.
        -- rewrite E in Hc. injection Hc as <-.
           apply H2. apply dict_set_keys. auto.
        -- eapply H3; eauto.
    + destruct (IH acc Hnd) as (H1 & H2 & H3).
      cbv zeta in H1, H2, H3. repeat split; auto.
      intros row' cell' [<-|Hin] Hc; [congruence|eapply H3; eauto].
Qed.

Lemma count_themes_keys (idx : nat) (rows : list (list pystr)) :
  NoDup (keys (count_themes idx rows)) /\
  forall row cell,
    In row rows -> nth_error row idx = Some cell ->
    In (strip cell) (keys (count_themes idx rows)).
Proof.
  destruct (count_themes_step_keys idx rows [] (NoDup_nil _)) as (H1 & _ & H3).
  split; assumption.
Qed.

Lemma insert_desc_perm (x : pystr * nat) (l : list (pystr * nat)) :
  Permutation (x :: l) (insert_desc x l).
Proof.
  induction l as [|y l IH]; simpl; [reflexivity|].
  destruct (Nat.ltb (snd x) (snd y)); [|reflexivity].
  rewrite perm_swap. apply perm_skip. exact IH.
Qed.

Lemma sorted_desc_perm (l : list (pystr * nat)) :
  Permutation l (sorted_desc l).
Proof.
  induction l as [|x l IH]; simpl; [reflexivity|].
  rewrite <- insert_desc_perm. apply perm_skip. exact IH.
Qed.


(** ** What consolidation does to a row *)


Lemma theme_mapping_get_other (main other : list pystr) (t : pystr) :
  In t other ->
  dict_get t (theme_mapping_of main other) = Some AUTRE.
Proof.
  intros Ho. unfold theme_mapping_of.
  rewrite (dict_get_fold_set (fun _ => AUTRE)).
  apply mem_str_iff in Ho. rewrite Ho. reflexivity.
Qed.

Section Consolidation.

Variable headers : list pystr.
Variable data_rows : list (list pystr).
Variable max_themes theme_idx : nat.

Hypothesis theme_column_found : list_index THEME_HEADER headers = Some theme_idx.
Hypothesis too_many_themes :
  (max_themes < List.length (themes_of theme_idx data_rows))%nat.



End Consolidation.


(** ** Theme consolidation *)

(** C1 on nine themes with [max_themes = 6]: the six most frequent themes
    (T9, T8, then T1 to T4 by order of appearance) are kept, T5 to T7
    become ["Autre"], and the consolidated table holds seven distinct
    theme values, not six. *)
Theorem consolidate_themes_nine_themes :
  list_index THEME_HEADER TABLE_HEADERS = Some 1%nat
  /\ List.length (themes_of 1 ex_nine_themes) = 9%nat
  /\ map fst (firstn 6 (sorted_desc (count_themes 1 ex_nine_themes)))
     = map u ["T9"; "T8"; "T1"; "T2"; "T3"; "T4"]%string
  /\ fst (consolidate_themes TABLE_HEADERS ex_nine_themes 6) = TABLE_HEADERS
  /\ theme_column (snd (consolidate_themes TABLE_HEADERS ex_nine_themes 6))
     = map u ["T1"; "T2"; "T3"; "T4"; "Autre"; "Autre"; "Autre";
              "T8"; "T9"; "T9"; "T8"; "T9"]%string
  /\ themes_of 1 (snd (consolidate_themes TABLE_HEADERS ex_nine_themes 6))
     = map u ["T1"; "T2"; "T3"; "T4"; "Autre"; "T8"; "T9"]%string
  /\ List.length
       (themes_of 1 (snd (consolidate_themes TABLE_HEADERS ex_nine_themes 6)))
     = 7%nat.
Proof. vm_compute. repeat split. Qed.

(** ** Stripped strings *)

Lemma lstrip_suffix (s : pystr) : exists w, s = w ++ lstrip s.
Proof.
  induction s as [|c s [w IH]]; simpl.
  - exists []. reflexivity.
  - destruct (is_space c).
    + exists (c :: w). simpl. congruence.
    + exists []. reflexivity.
Qed.

Lemma lstrip_first (s : pystr) (a : char) (t : pystr) :
  lstrip s = a :: t -> is_space a = false.
Proof.
  induction s as [|c s IH]; simpl; [discriminate|].
  destruct (is_space c) eqn:E; [exact IH|].
  intros H. injection H as <- _. exact E.
Qed.

Lemma rstrip_prefix (s : pystr) : exists w, s = rstrip s ++ w.
Proof.
  unfold rstrip. destruct (lstrip_suffix (rev s)) as [w Hw].
  exists (rev w). rewrite <- rev_app_distr, <- Hw, rev_involutive. reflexivity.
Qed.

Lemma rstrip_last (s t : pystr) (b : char) :
  rstrip s = t ++ [b] -> is_space b = false.
Proof.
  unfold rstrip. intros H. apply (f_equal (@rev char)) in H.
  rewrite rev_involutive, rev_app_distr in H. simpl in H.
  eapply lstrip_first. exact H.
Qed.

Lemma strip_trimmed (s : pystr) : trimmed (strip s).
Proof.
  unfold strip. split.
  - intros a t H. destruct (rstrip_prefix (lstrip s)) as [w Hw].
    rewrite H in Hw. simpl in Hw. eapply lstrip_first. exact Hw.
  - intros t b H. eapply rstrip_last. exact H.
Qed.

Lemma trimmed_strip (s : pystr) : trimmed s -> strip s = s.
Proof.
  intros [Hf Hl]. destruct s as [|a t]; [reflexivity|].
  unfold strip. rewrite lstrip_cons by (eapply Hf; reflexivity).
  assert (Hne : a :: t <> []) by discriminate.
  destruct (exists_last Hne) as (body & z & Hz). rewrite Hz.
  apply rstrip_snoc. eapply Hl. exact Hz.
Qed.

Lemma strip_idempotent (s : pystr) : strip (strip s) = strip s.
Proof. apply trimmed_strip. apply strip_trimmed. Qed.

Lemma lstrip_In (s : pystr) (c : char) : In c (lstrip s) -> In c s.
Proof.
  destruct (lstrip_suffix s) as [w Hw]. intros H. rewrite Hw.
  apply in_or_app. right. exact H.
Qed.

Lemma strip_In (s : pystr) (c : char) : In c (strip s) -> In c s.
Proof.
  unfold strip. intros H. apply lstrip_In.
  destruct (rstrip_prefix (lstrip s)) as [w Hw]. rewrite Hw.
  apply in_or_app. left. exact H.
Qed.

Lemma split_char_pieces (sep : char) (s : pystr) :
  Forall (fun p => ~ In sep p) (split_char sep s).
Proof.
  induction s as [|c s IH]; simpl.
  - constructor; [intros []|constructor].
  - destruct (N.eqb_spec c sep) as [->|Hne].
    + constructor; [intros []|exact IH].
    + destruct (split_char sep s) as [|w ws].
      * constructor; [|constructor]. intros [H|[]]. congruence.
      * inversion IH as [|? ? Hw Hws]; subst. constructor; [|exact Hws].
        intros [H|H]; [congruence|contradiction].
Qed.

(** ** The segmenter *)

Lemma find_from_none (sub s : pystr) :
  forall pos, find_from sub s pos = None <-> contains sub s = false.
Proof.
  induction s as [|c s IH]; intros pos; simpl.
  - destruct (startswith sub []); simpl; split; congruence.
  - destruct (startswith sub (c :: s)); simpl; [split; congruence|apply IH].
Qed.

Lemma join_kept_lines (l : pystr) (ls : list pystr) :
  kept_line l -> Forall kept_line ls ->
  ~ In ch_nl (join (u " ") (l :: ls)) /\
  trimmed (join (u " ") (l :: ls)) /\
  exists a t t', l = a :: t /\ join (u " ") (l :: ls) = a :: t'.
Proof.
  intros Hl Hls. revert l Hl.
  induction Hls as [|l' ls Hl' _ IH]; intros l (Hne & [Hf Hlast] & Hnl).
  - cbn [join]. destruct l as [|a t]; [contradiction|].
    split; [exact Hnl|]. split; [split; assumption|].
    exists a, t, t. auto.
  - destruct (IH l' Hl') as (Jnl & (Jf & Jl) & (a' & t1 & t2 & _ & Ja)).
    change (join (u " ") (l :: l' :: ls))
      with (l ++ [ch_space] ++ join (u " ") (l' :: ls)).
    destruct l as [|a t]; [contradiction|].
    split; [|split; [split|]].
    + intros H. apply in_app_or in H as [H|H]; [contradiction|].
      apply in_app_or in H as [[H|[]]|H]; [discriminate|contradiction].
    + intros a0 t0 H. injection H as <- _. eapply Hf. reflexivity.
    + intros t0 b H. rewrite Ja in H.
      assert (Hne' : a' :: t2 <> []) by discriminate.
      destruct (exists_last Hne') as (body & z & Hz).
      rewrite Hz in H. rewrite <- Ja in Hz.
      rewrite !app_assoc in H. apply app_inj_tail in H as [_ <-].
      eapply Jl. exact Hz.
    + exists a, t, (t ++ [ch_space] ++ join (u " ") (l' :: ls)). auto.
Qed.

Lemma starts_entry_upper (line : pystr) :
  starts_entry line = true ->
  exists c t, line = c :: t /\ is_upper_az c = true.
Proof.
  unfold starts_entry, py_re_match, ENTRY_COMMA_RE, ENTRY_SPACE_RE.
  cbn [re_match Nat.eqb].
  destruct line as [|c t]; [discriminate|].
  destruct (is_upper_az c) eqn:E; [|discriminate].
  intros _. exists c, t. auto.
Qed.

Lemma flush_ref_inv (st : list pystr * list pystr) :
  segment_inv st -> Forall well_formed_entry (flush_ref (snd st) (fst st)).
Proof.
  destruct st as [refs cur]. intros [Hr Hc]. cbn [fst snd] in *.
  unfold flush_ref. destruct cur as [|l ls]; [exact Hr|]. cbv zeta.
  destruct Hc as (Hl & Hls & (c & t & Hlc & Hup)).
  destruct (negb (is_blank _) && Nat.ltb 20 _) eqn:E; [|exact Hr].
  apply andb_true_iff in E as [_ E]. apply Nat.ltb_lt in E.
  apply Forall_app. split; [exact Hr|]. constructor; [|constructor].
  destruct (join_kept_lines l ls Hl Hls) as (Jnl & Jt & (a & t1 & t2 & Ha & Ja)).
  repeat split; auto.
  - apply trimmed_strip. exact Jt.
  - exists a, t2. split; [exact Ja|]. congruence.
Qed.

Lemma segment_step_inv (st : list pystr * list pystr) (line : pystr) :
  ~ In ch_nl line -> segment_inv st -> segment_inv (segment_step st line).
Proof.
  intros Hnl Hinv. pose proof (flush_ref_inv st Hinv) as Hflush.
  destruct st as [refs cur]. destruct Hinv as [Hr Hc]. cbn [fst snd] in *.
  unfold segment_step. cbv zeta.
  assert (Hkept : is_blank (strip line) = false -> kept_line (strip line)).
  { intros Hb. repeat split; try apply strip_trimmed.
    - intros E. rewrite E in Hb. discriminate.
    - intros H. apply strip_In in H. contradiction. }
  destruct (is_blank (strip line)) eqn:Eb.
  - destruct cur; split; cbn [fst snd]; auto.
  - destruct (starts_entry (strip line)) eqn:Es.
    + split; cbn [fst snd]; [exact Hflush|].
      repeat split; try apply Hkept; auto.
      apply starts_entry_upper. exact Es.
    + destruct cur as [|l ls]; split; cbn [fst snd]; auto.
      destruct Hc as (Hl & Hls & Hup). cbn [app]. repeat split; try apply Hl; auto.
      apply Forall_app. split; [exact Hls|]. constructor; [|constructor].
      apply Hkept. reflexivity.
Qed.

Lemma segment_fold_inv (lines : list pystr) :
  Forall (fun l => ~ In ch_nl l) lines ->
  forall st, segment_inv st -> segment_inv (fold_left segment_step lines st).
Proof.
  induction 1 as [|l ls Hl _ IH]; intros st Hst; [exact Hst|].
  cbn [fold_left]. apply IH. apply segment_step_inv; assumption.
Qed.

(** Without the heading ["BIBLIOGRAPHIE"] the segmenter returns no entry. *)
Theorem extract_references_no_marker (text : pystr) :
  (forall pre post, text <> pre ++ BIB_MARKER ++ post) ->
  extract_references_from_text text = [].
Proof.
  intros H. unfold extract_references_from_text.
  assert (E : py_find BIB_MARKER text = None).
  { apply find_from_none. destruct (contains BIB_MARKER text) eqn:E; [|reflexivity].
    apply contains_iff in E as (pre & post & E). exfalso. exact (H _ _ E). }
  rewrite E. reflexivity.
Qed.

Lemma extract_references_no_marker_witness :
  extract_references_from_text (u "Smith (2019) proposed this method.") = [].
Proof.
  apply extract_references_no_marker. intros pre post H.
  assert (E : contains BIB_MARKER (u "Smith (2019) proposed this method.") = true)
    by (apply contains_iff; exists pre, post; exact H).
  vm_compute in E. discriminate.
Defined.

(** Every entry the segmenter returns is longer than 20 characters, holds
    no line feed, carries no whitespace at either end and starts with an
    ASCII capital letter. *)
Theorem extract_references_well_formed (text e : pystr) :
  In e (extract_references_from_text text) -> well_formed_entry e.
Proof.
  unfold extract_references_from_text.
  destruct (py_find BIB_MARKER text) as [bib_start|]; [|intros []].
  cbv zeta.
  set (section := match py_find NEXT_SECTION (skipn bib_start text) with
                  | Some bib_end => firstn bib_end (skipn bib_start text)
                  | None => skipn bib_start text
                  end).
  pose proof (segment_fold_inv (split_char ch_nl section)
                (split_char_pieces ch_nl section) ([], [])) as Hinv.
  destruct (fold_left segment_step (split_char ch_nl section) ([], []))
    as [refs cur] eqn:E.
  assert (H0 : segment_inv ([], [])) by (split; [constructor|exact I]).
  specialize (Hinv H0). apply flush_ref_inv in Hinv. cbn [fst snd] in Hinv.
  rewrite Forall_forall in Hinv. apply Hinv.
Qed.

Lemma extract_references_well_formed_witness : well_formed_entry ex_entry.
Proof.
  apply (extract_references_well_formed ex_document).
  vm_compute. left. reflexivity.
Defined.

(** ** Title, link and fallback of the entry parser *)

Lemma star_total (p : char -> bool) (k : nat -> pystr -> option mres)
      (s : pystr) :
  (forall pos t, k pos t <> None) ->
  forall pos, star p k pos s <> None.
Proof.
  intros Hk. induction s as [|c s IH]; intros pos; simpl; [apply Hk|].
  destruct (p c); [|apply Hk].
  destruct (star p k (S pos) s) eqn:E; [discriminate|].
  exfalso. exact (IH _ E).
Qed.

(** With a rest that always matches, a greedy repetition stops only at the
    end of the text or in front of a character outside the class. *)
Lemma star_greedy (p : char -> bool) (k : nat -> pystr -> option mres)
      (s : pystr) :
  (forall pos t, k pos t <> None) ->
  forall pos x,
    star p k pos s = Some x ->
    exists n,
      (n <= List.length s)%nat /\ forallb p (firstn n s) = true /\
      k (pos + n)%nat (skipn n s) = Some x /\
      (forall c t, skipn n s = c :: t -> p c = false).
Proof.
  intros Hk. induction s as [|c s IH]; intros pos x H; simpl in H.
  - exists O. rewrite Nat.add_0_r. repeat split; auto. intros c t E. discriminate.
  - destruct (p c) eqn:Hc.
    + destruct (star p k (S pos) s) as [y|] eqn:E.
      * injection H as <-. apply IH in E as (n & Hn & Hall & Hkn & Hstop).
        exists (S n). cbn [firstn forallb skipn]. rewrite Hc, Hall.
        replace (pos + S n)%nat with (S pos + n)%nat by lia.
        repeat split; auto. simpl; lia.
      * exfalso. exact (star_total p k s Hk _ E).
    + exists O. rewrite Nat.add_0_r. cbn [skipn firstn forallb].
      repeat split; auto; try (simpl; lia).
      intros c' t E. injection E as <- _. exact Hc.
Qed.

Lemma lits_inv (l : pystr) (r : regex) :
  forall g pos s x,
    re_match (lits l ++ r) g pos s = Some x ->
    exists s', s = l ++ s' /\ re_match r g (pos + List.length l) s' = Some x.
Proof.
  induction l as [|a l IH]; intros g pos s x H.
  - exists s. rewrite Nat.add_0_r. auto.
  - cbn [lits map app re_match lit] in H. destruct s as [|c s]; [discriminate|].
    destruct (N.eqb_spec a c) as [->|]; [|discriminate].
    apply IH in H as (s' & -> & H). exists s'. split; [reflexivity|].
    replace (pos + List.length (c :: l))%nat with (S pos + List.length l)%nat
      by (simpl; lia).
    exact H.
Qed.

(** What a match of the link pattern looks like *)
Lemma doi_re_sound (pos : nat) (s : pystr) (x : mres) :
  re_match DOI_RE None pos s = Some x ->
  exists prefix c tail rest,
    (prefix = DOI_HTTP \/ prefix = DOI_HTTPS) /\
    s = prefix ++ c :: tail ++ rest /\
    link_char c = true /\ forallb link_char tail = true /\
    m_end x = (pos + List.length prefix + 1 + List.length tail)%nat /\
    (forall d t, rest = d :: t -> link_char d = false).
Proof.
  unfold DOI_RE. intros H.
  apply lits_inv in H as (s1 & -> & H).
  assert (Hrest : forall g p0 t y,
             re_match (lits (u "://doi.org/")
                       ++ [GOpen; At Plus (fun c => negb (is_space c || (c =? ch_comma)));
                           GClose]) g p0 t = Some y ->
             exists c tail rest,
               t = u "://doi.org/" ++ c :: tail ++ rest /\
               link_char c = true /\ forallb link_char tail = true /\
               m_end y = (p0 + 11 + 1 + List.length tail)%nat /\
               (forall d t', rest = d :: t' -> link_char d = false)).
  { intros g p0 t y Hm. apply lits_inv in Hm as (t1 & -> & Hm).
    cbn [re_match] in Hm. destruct t1 as [|c t1]; [discriminate|].
    fold (link_char c) in Hm. destruct (link_char c) eqn:Hc; [|discriminate].
    match type of Hm with
    | star ?p ?k _ _ = _ =>
      change p with link_char in Hm;
        apply (star_greedy link_char k) in Hm as (n & Hn & Hall & Hk & Hstop)
    end.
    - cbn [re_match] in Hk. injection Hk as <-. cbn [m_end].
      exists c, (firstn n t1), (skipn n t1).
      rewrite firstn_skipn, length_firstn, Nat.min_l by exact Hn.
      change (List.length (u "://doi.org/")) with 11%nat.
      repeat split; auto. lia.
    - intros p1 t2. cbn [re_match]. discriminate. }
  cbn [app re_match] in H. change (List.length (u "http")) with 4%nat in H.
  destruct s1 as [|c s1].
  - apply Hrest in H as (c & tail & rest & E & _). discriminate.
  - destruct (N.eqb_spec 115 c) as [<-|Hne].
    + destruct (re_match _ None (S (pos + 4)) s1) as [y|] eqn:E.
      * injection H as <-. apply Hrest in E as (c & tail & rest & -> & Hc & Ht & He & Hs).
        exists DOI_HTTPS, c, tail, rest.
        change (List.length DOI_HTTPS) with 16%nat.
        repeat split; auto. lia.
      * apply Hrest in H as (c & tail & rest & E' & _). discriminate.
    + apply Hrest in H as (c' & tail & rest & -> & Hc & Ht & He & Hs).
      exists DOI_HTTP, c', tail, rest.
      change (List.length DOI_HTTP) with 15%nat.
      repeat split; auto. lia.
Qed.

(** What a match of the link pattern is made of *)
Lemma doi_search_sound (s : pystr) (dm : rmatch) :
  py_re_search DOI_RE s = Some dm ->
  exists pre tail post,
    s = pre ++ group0 s dm ++ post /\
    (group0 s dm = DOI_HTTP ++ tail \/ group0 s dm = DOI_HTTPS ++ tail) /\
    tail <> [] /\
    (forall c, In c tail -> is_space c = false /\ c <> ch_comma) /\
    (forall c t, post = c :: t -> is_space c = true \/ c = ch_comma).
Proof.
  intros E.
  apply search_from_some in E as (i & x & Hi & Hs & Hm & Hx & _).
  cbn [Nat.add] in Hs, Hm, Hx.
  apply doi_re_sound in Hx
    as (prefix & c & tail & rest & Hp & Hsk & Hc & Ht & He & Hstop).
  destruct (split_at i s Hi) as [Hsplit Hlen].
  assert (Hd : group0 s dm = prefix ++ c :: tail).
  { subst dm. unfold group0, slice. cbn [r_start r_end mk_rmatch].
    rewrite Hsk, He.
    replace (i + List.length prefix + 1 + List.length tail - i)%nat
      with (List.length (prefix ++ c :: tail))
      by (rewrite length_app; simpl; lia).
    replace (prefix ++ c :: tail ++ rest) with ((prefix ++ c :: tail) ++ rest)
      by (rewrite <- app_assoc; reflexivity).
    apply firstn_app_length. }
  assert (Hlink : forall d, link_char d = true -> is_space d = false /\ d <> ch_comma).
  { unfold link_char. intros d H. apply negb_true_iff, orb_false_iff in H as [H1 H2].
    split; [exact H1|]. apply N.eqb_neq. exact H2. }
  exists (firstn i s), (c :: tail), rest. rewrite Hd.
  split; [|split; [|split; [discriminate|split]]].
  - rewrite Hsplit at 1. rewrite Hsk, <- app_assoc. reflexivity.
  - destruct Hp as [-> | ->]; auto.
  - intros d [<-|Hin]; [apply Hlink; exact Hc|].
    apply Hlink. rewrite forallb_forall in Ht. apply Ht. exact Hin.
  - intros d t Hrest. specialize (Hstop d t Hrest).
    unfold link_char in Hstop. apply negb_false_iff, orb_true_iff in Hstop.
    destruct Hstop as [H|H]; [left; exact H|right; apply N.eqb_eq; exact H].
Qed.


Section EntryFields.

Variable lower : pystr -> pystr.

(** The identifier link of a parsed entry is empty or is a piece of the
    entry made of ["http://doi.org/"] or ["https://doi.org/"] and at least
    one more character, none of them whitespace or a comma; it runs up to
    the end of the entry or to the next whitespace or comma. *)
Theorem parse_reference_doi (s : pystr) :
  exists r,
    parse_reference lower s = Some r /\
    (doi r = [] \/
     exists pre tail post,
       s = pre ++ doi r ++ post /\
       (doi r = DOI_HTTP ++ tail \/ doi r = DOI_HTTPS ++ tail) /\
       tail <> [] /\
       (forall c, In c tail -> is_space c = false /\ c <> ch_comma) /\
       (forall c t, post = c :: t -> is_space c = true \/ c = ch_comma)).
Proof.
  destruct (parse_reference_some lower s) as (a & _ & Hr).
  eexists. split; [exact Hr|]. cbn [doi].
  destruct (py_re_search DOI_RE s) as [dm|] eqn:E; [right|left; reflexivity].
  exact (doi_search_sound s dm E).
Qed.

End EntryFields.

Lemma firstn_In {A : Type} (n : nat) (l : list A) (x : A) :
  In x (firstn n l) -> In x l.
Proof.
  intros H. rewrite <- (firstn_skipn n l). apply in_or_app. left. exact H.
Qed.

Lemma skipn_In {A : Type} (n : nat) (l : list A) (x : A) :
  In x (skipn n l) -> In x l.
Proof.
  intros H. rewrite <- (firstn_skipn n l). apply in_or_app. right. exact H.
Qed.

(** [re.sub(r'\s+', ' ', s)] leaves the characters that are no whitespace
    and writes spaces. *)
Lemma sub_ws_chars (s : pystr) :
  forall pos skip c,
    In c (sub_from WS_RE (u " ") pos skip s) ->
    c = ch_space \/ (In c s /\ is_space c = false).
Proof.
  induction s as [|d s IH]; intros pos skip c H.
  - destruct skip; cbn in H; contradiction.
  - assert (Hrec : forall p k,
               In c (sub_from WS_RE (u " ") p k s) ->
               c = ch_space \/ (In c (d :: s) /\ is_space c = false)).
    { intros p k Hk. apply IH in Hk as [Hk|[H1 H2]]; [left; exact Hk|right].
      split; [right; exact H1|exact H2]. }
    destruct skip as [|k]; cbn [sub_from] in H; [|eapply Hrec; exact H].
    destruct (re_match WS_RE None pos (d :: s)) as [x|] eqn:E.
    + unfold WS_RE in E. cbn [re_match] in E.
      destruct (is_space d) eqn:Ed; [|discriminate].
      apply star_inv in E as (n & Hn & Hk). cbn [re_match] in Hk.
      injection Hk as <-. cbn [m_end] in H.
      match type of H with
      | context [Nat.eqb ?a ?b] =>
        destruct (Nat.eqb_spec a b) as [Heq|_]; [lia|]
      end.
      apply in_app_or in H as [[H|[]]|H]; [left; symmetry; exact H|].
      eapply Hrec; exact H.
    + unfold WS_RE in E. cbn [re_match] in E.
      destruct (is_space d) eqn:Ed.
      * exfalso. apply (star_total is_space (re_match [] None) s) in E; auto.
        intros p t. cbn. discriminate.
      * destruct H as [<-|H]; [right; split; [left; reflexivity|exact Ed]|].
        eapply Hrec; exact H.
Qed.

(** The title pattern takes a non-empty run of characters other than the
    comma. *)
Lemma title_re_no_comma (s : pystr) (tm : rmatch) :
  py_re_match TITLE_RE s = Some tm ->
  forall c, In c (group0 s tm) -> c <> ch_comma.
Proof.
  unfold py_re_match, TITLE_RE. cbn [re_match Nat.eqb].
  destruct s as [|d s]; [discriminate|].
  destruct (negb (d =? ch_comma)) eqn:Ed; [|discriminate].
  destruct (star _ _ 1%nat s) as [x|] eqn:E; [|discriminate].
  cbn [option_map]. intros H. injection H as <-.
  apply star_inv_class in E as (n & Hn & Hall & Hk). cbn [re_match] in Hk.
  injection Hk as <-. unfold group0, slice. cbn [mk_rmatch r_start r_end m_end skipn].
  rewrite Nat.sub_0_r. cbn [Nat.add firstn].
  intros c [<-|Hin].
  - apply negb_true_iff in Ed. apply N.eqb_neq. exact Ed.
  - rewrite forallb_forall in Hall. specialize (Hall c Hin).
    apply negb_true_iff in Hall. apply N.eqb_neq. exact Hall.
Qed.

Lemma parse_title_facts (s : pystr) (ym : option rmatch) :
  (List.length (parse_title s ym) <= 103)%nat /\
  ~ In ch_comma (parse_title s ym) /\
  (forall c, In c (parse_title s ym) -> is_space c = true -> c = ch_space).
Proof.
  unfold parse_title. destruct ym as [ym|]; [|simpl; repeat split; auto; lia].
  cbv zeta. set (after := strip (skipn (r_end ym) s)).
  destruct (py_re_match TITLE_RE after) as [tm|] eqn:E;
    [|simpl; repeat split; auto; lia].
  set (t := py_re_sub WS_RE (u " ") (strip (group0 after tm))).
  assert (Hc : forall c, In c t ->
                         c = ch_space \/
                         (In c (group0 after tm) /\ is_space c = false)).
  { intros c H. apply sub_ws_chars in H as [H|[H1 H2]]; [left; exact H|right].
    split; [apply strip_In; exact H1|exact H2]. }
  assert (Hcomma : ~ In ch_comma t).
  { intros H. apply Hc in H as [H|[H _]]; [discriminate|].
    exact (title_re_no_comma after tm E _ H eq_refl). }
  assert (Hws : forall c, In c t -> is_space c = true -> c = ch_space).
  { intros c H Hs. apply Hc in H as [H|[_ H]]; [exact H|congruence]. }
  destruct (Nat.ltb_spec 100 (List.length t)) as [Hlt|Hle].
  - split; [|split].
    + rewrite length_app, length_firstn. change (List.length (u "...")) with 3%nat. lia.
    + intros H. apply in_app_or in H as [H|H].
      * apply Hcomma. eapply firstn_In. exact H.
      * cbn in H. repeat (destruct H as [H|H]; [discriminate|]). exact H.
    + intros c H Hs. apply in_app_or in H as [H|H].
      * apply Hws; [eapply firstn_In; exact H|exact Hs].
      * cbn in H. repeat (destruct H as [H|H]; [subst c; discriminate|]).
        contradiction.
  - split; [lia|]. split; assumption.
Qed.

Lemma contains_char (c : char) (s : pystr) :
  contains [c] s = true <-> In c s.
Proof.
  rewrite contains_iff. split.
  - intros (pre & post & ->). apply in_or_app. right. left. reflexivity.
  - intros H. apply in_split in H as (pre & post & ->). exists pre, post.
    reflexivity.
Qed.

Lemma year_search_absent (s : pystr) :
  (forall pre y post, ~ paren_year_at s pre y post) ->
  py_re_search YEAR_RE s = None.
Proof.
  intros H. destruct (py_re_search YEAR_RE s) as [mt|] eqn:E; [|reflexivity].
  apply year_search_some in E as (pre & y & post & Hocc & _).
  exfalso. exact (H _ _ _ Hocc).
Qed.

Section EntryTitleAndFallback.

Variable lower : pystr -> pystr.

(** The title of a parsed entry has at most 103 characters (100 and the
    ellipsis), holds no comma, and holds no whitespace other than the
    space. *)
Theorem parse_reference_title (s : pystr) :
  exists r,
    parse_reference lower s = Some r /\
    (List.length (title r) <= 103)%nat /\
    ~ In ch_comma (title r) /\
    (forall c, In c (title r) -> is_space c = true -> c = ch_space).
Proof.
  destruct (parse_reference_some lower s) as (a & _ & Hr).
  eexists. split; [exact Hr|]. cbn [title]. apply parse_title_facts.
Qed.

(** An entry without a parenthesized year is parsed to an empty year and
    an empty title; its authors are the text in front of the first comma,
    or the first 50 characters when there is no comma, and its label is
    these authors followed by [" ()"]. *)
Theorem parse_reference_without_year (s : pystr) :
  (forall pre y post, ~ paren_year_at s pre y post) ->
  exists r,
    parse_reference lower s = Some r /\
    year r = [] /\ title r = [] /\
    display r = authors r ++ u " ()" /\
    (forall pre post,
        s = pre ++ ch_comma :: post -> ~ In ch_comma pre -> authors r = pre) /\
    (~ In ch_comma s -> authors r = firstn 50 s).
Proof.
  intros Hno. apply year_search_absent in Hno.
  destruct (parse_reference_some lower s) as (a & Ha & Hr).
  rewrite Hno in Ha, Hr. eexists. split; [exact Hr|].
  cbn [year title display authors parse_title]. repeat split.
  - intros pre post Hs Hpre. unfold parse_authors in Ha.
    change (u ",") with [ch_comma] in Ha.
    assert (Hc : contains [ch_comma] s = true).
    { apply contains_char. rewrite Hs. apply in_or_app. right. left. reflexivity. }
    rewrite Hc in Ha. rewrite Hs, (split_char_app ch_comma) in Ha by exact Hpre.
    cbn in Ha. congruence.
  - intros Hnc. unfold parse_authors in Ha.
    change (u ",") with [ch_comma] in Ha.
    assert (Hc : contains [ch_comma] s = false).
    { destruct (contains [ch_comma] s) eqn:E; [|reflexivity].
      apply contains_char in E. contradiction. }
    rewrite Hc in Ha. congruence.
Qed.

End EntryTitleAndFallback.

Lemma parse_reference_without_year_witness :
  option_map authors
    (parse_reference lower_latin1 (u "Smith and Jones, On waves, J. Geophys."))
  = Some (u "Smith and Jones").
Proof.
  destruct (parse_reference_without_year lower_latin1
              (u "Smith and Jones, On waves, J. Geophys."))
    as (r & Hr & _ & _ & _ & Hcomma & _).
  - intros pre y post Hocc.
    destruct (year_search_found _ _ _ _ Hocc) as [mt E].
    vm_compute in E. discriminate.
  - rewrite Hr. cbn [option_map]. f_equal.
    apply (Hcomma (u "Smith and Jones") (u " On waves, J. Geophys.")).
    + vm_compute. reflexivity.
    + apply not_in_char. vm_compute. reflexivity.
Defined.

(** ** Context windows *)

Lemma prefix_ok_firstn (ps : list (char -> bool)) (s : pystr) (m : nat) :
  (List.length ps <= m)%nat ->
  prefix_ok ps (firstn m s) = prefix_ok ps s.
Proof.
  revert s m; induction ps as [|p ps IH]; intros s m H; [reflexivity|].
  destruct m as [|m]; [simpl in H; lia|].
  destruct s as [|c s]; [reflexivity|]. cbn [firstn prefix_ok].
  rewrite IH by (simpl in H; lia). reflexivity.
Qed.

(** A window cut around an occurrence still holds it. *)
Lemma slice_keeps_occurrence (ps : list (char -> bool)) (text : pystr)
      (a b j : nat) :
  (a <= j)%nat -> (j + List.length ps <= b)%nat ->
  prefix_ok ps (skipn j text) = true ->
  prefix_ok ps (skipn (j - a) (slice a b text)) = true.
Proof.
  intros Ha Hb H. unfold slice.
  rewrite skipn_firstn_comm, skipn_skipn.
  replace (j - a + a)%nat with j by lia.
  rewrite prefix_ok_firstn by lia. exact H.
Qed.

Section ContextWindows.

Variable lower : pystr -> pystr.
Variable ci_eq : char -> char -> bool.

(** Every citation comes from a match that ends with the parenthesized
    year. *)
Lemma citation_origin (text : pystr) (ref_parsed : ParsedReference)
      (cs : list Citation) (c : Citation) :
  find_reference_citations lower ci_eq text ref_parsed = Some cs ->
  In c cs ->
  exists i j e,
    position c = i /\
    context c = slice (i - 200) (Nat.min (List.length text) (e + 200)) text /\
    (i <= j)%nat /\
    e = (j + List.length (year_atoms ci_eq (year ref_parsed)))%nat /\
    (e <= List.length text)%nat /\
    prefix_ok (year_atoms ci_eq (year ref_parsed)) (skipn j text) = true.
Proof.
  intros Hcs Hin.
  destruct (year ref_parsed) as [|y0 ys] eqn:Ey.
  { unfold find_reference_citations in Hcs. rewrite Ey in Hcs.
    injection Hcs as <-. contradiction. }
  assert (Hy : year ref_parsed <> []) by (rewrite Ey; discriminate).
  destruct (find_reference_citations_split lower ci_eq text ref_parsed Hy)
    as (p1 & cs' & Hp1 & Hcs' & Heq).
  rewrite <- Ey in *. clear Ey y0 ys.
  assert (Hsame : cs' = cs) by congruence. rewrite Hsame in Heq.
  clear Hsame Hcs' cs'.
  assert (Hgen : forall r,
             (forall pos s x, re_match r None pos s = Some x ->
                              ends_in (year_atoms ci_eq (year ref_parsed)) pos s x) ->
             In c (map (mk_citation text) (py_re_finditer r text)) ->
             exists i j e,
               position c = i /\
               context c
               = slice (i - 200) (Nat.min (List.length text) (e + 200)) text /\
               (i <= j)%nat /\
               e = (j + List.length (year_atoms ci_eq (year ref_parsed)))%nat /\
               (e <= List.length text)%nat /\
               prefix_ok (year_atoms ci_eq (year ref_parsed)) (skipn j text) = true).
  { intros r Hr Hc. apply in_map_iff in Hc as (mt & <- & Hmt).
    unfold py_re_finditer in Hmt.
    apply finditer_from_In in Hmt as (i & x & Hi & Hs & He & Hm).
    cbn [Nat.add] in Hs, Hm.
    destruct (Hr _ _ _ Hm) as (n & Hl & Hend & Hp).
    rewrite skipn_skipn in Hp. rewrite length_skipn in Hl.
    exists i, (n + i)%nat, (r_end mt).
    unfold mk_citation. cbn [position context]. rewrite Hs.
    split; [reflexivity|]. split; [reflexivity|].
    split; [lia|split; [lia|split; [lia|exact Hp]]]. }
  rewrite Heq in Hin. apply in_app_or in Hin as [Hin|Hin].
  - apply (Hgen p1); [|exact Hin]. intros pos s x Hm.
    eapply pattern1_ends_in_year; eauto.
  - apply (Hgen (pattern2 ci_eq ref_parsed)); [|exact Hin].
    intros pos s x Hm. unfold pattern2 in Hm.
    rewrite year_pattern_ones, ones_match in Hm.
    destruct (prefix_ok _ s) eqn:Ep; [|discriminate]. injection Hm as <-.
    exists O. cbn [skipn m_end]. pose proof (prefix_ok_length _ _ Ep).
    repeat split; auto; lia.
Qed.

(** Every citation lies inside the document: the parenthesized year fits
    behind its position. Its context window is a piece of the document
    that starts 200 characters before the position (or at the start of the
    document) and holds the parenthesized year of the reference, up to
    letter case. *)
Theorem find_reference_citations_context
        (text : pystr) (ref_parsed : ParsedReference)
        (cs : list Citation) (c : Citation) :
  find_reference_citations lower ci_eq text ref_parsed = Some cs ->
  In c cs ->
  (position c + List.length (year ref_parsed) + 2 <= List.length text)%nat /\
  (exists before after,
      text = before ++ context c ++ after /\
      List.length before = (position c - 200)%nat) /\
  exists k,
    prefix_ok (year_atoms ci_eq (year ref_parsed)) (skipn k (context c)) = true.
Proof.
  intros Hcs Hin.
  destruct (citation_origin text ref_parsed cs c Hcs Hin)
    as (i & j & e & Hpos & Hctx & Hij & He & Hlen & Hp).
  assert (Hk : List.length (year_atoms ci_eq (year ref_parsed))
               = (List.length (year ref_parsed) + 2)%nat).
  { unfold year_atoms. cbn [List.length]. rewrite length_app, length_map.
    simpl. lia. }
  rewrite Hpos, Hctx.
  split; [lia|]. split.
  - exists (firstn (i - 200) text),
           (skipn (Nat.min (List.length text) (e + 200)) text).
    split.
    + unfold slice.
      rewrite <- (firstn_skipn (i - 200) text) at 1. f_equal.
      rewrite <- (firstn_skipn (Nat.min (List.length text) (e + 200) - (i - 200))
                               (skipn (i - 200) text)) at 1.
      f_equal. rewrite skipn_skipn. f_equal. lia.
    + apply firstn_length_le. lia.
  - exists (j - (i - 200))%nat. apply slice_keeps_occurrence; try lia. exact Hp.
Qed.

End ContextWindows.

Lemma find_reference_citations_context_witness :
  exists c,
    option_map (fun cs => hd_error cs)
               (find_reference_citations lower_latin1 ci_eq_latin1 ex_text ex_ref)
    = Some (Some c) /\
    (position c + 4 + 2 <= List.length ex_text)%nat.
Proof.
  destruct (find_reference_citations lower_latin1 ci_eq_latin1 ex_text ex_ref)
    as [cs|] eqn:E; [|vm_compute in E; discriminate].
  destruct cs as [|c cs]; [vm_compute in E; discriminate|].
  exists c. split; [reflexivity|].
  apply (find_reference_citations_context lower_latin1 ci_eq_latin1
           ex_text ex_ref (c :: cs) c E).
  left. reflexivity.
Defined.

(** ** The size and the shape of a consolidated table *)

Lemma count_themes_step_keys_inv (idx : nat) (rows : list (list pystr)) :
  forall (acc : dict nat) (k : pystr),
    In k (keys
            (fold_left
               (fun theme_counts row =>
                  match nth_error row idx with
                  | Some cell =>
                    let theme := strip cell in
                    let n := match dict_get theme theme_counts with
                             | Some n => n
                             | None => O
                             end in
                    dict_set theme (n + 1)%nat theme_counts
                  | None => theme_counts
                  end)
               rows acc)) ->
    In k (keys acc) \/
    exists row cell,
      In row rows /\ nth_error row idx = Some cell /\ k = strip cell.
Proof.
  induction rows as [|row rows IH]; intros acc k Hk.
  - left. exact Hk.
  - cbn [fold_left] in Hk. apply IH in Hk as [Hk|(r & c & Hr & Hc & ->)].
    + destruct (nth_error row idx) as [cell|] eqn:E.
      * cbv zeta in Hk. apply dict_set_keys in Hk as [->|Hk]; [|left; exact Hk].
        right. exists row, cell. split; [left; reflexivity|]. split; auto.
      * left. exact Hk.
    + right. exists r, c. split; [right; exact Hr|]. split; auto.
Qed.

(** Every counted theme is the stripped theme cell of some row. *)
Lemma count_themes_keys_inv (idx : nat) (rows : list (list pystr)) (k : pystr) :
  In k (keys (count_themes idx rows)) ->
  exists row cell,
    In row rows /\ nth_error row idx = Some cell /\ k = strip cell.
Proof.
  intros Hk. apply count_themes_step_keys_inv in Hk as [[]|H]. exact H.
Qed.

Lemma theme_mapping_values (main other : list pystr) (k v : pystr) :
  dict_get k (theme_mapping_of main other) = Some v ->
  In v main \/ v = AUTRE.
Proof.
  unfold theme_mapping_of. rewrite (dict_get_fold_set (fun _ => AUTRE)).
  destruct (mem_str k other); [intros H; right; congruence|].
  rewrite dict_get_set. destruct (str_eqb AUTRE k); [intros H; right; congruence|].
  rewrite (dict_get_fold_set (fun x => x)).
  destruct (mem_str k main) eqn:E; [|discriminate].
  intros H. injection H as <-. left. apply mem_str_iff. exact E.
Qed.

Lemma list_set_length (i : nat) (v : pystr) (row : list pystr) :
  List.length (list_set i v row) = List.length row.
Proof.
  revert i; induction row as [|x row IH]; intros [|i]; simpl; auto.
Qed.

Lemma list_set_other (i j : nat) (v : pystr) (row : list pystr) :
  i <> j -> nth_error (list_set i v row) j = nth_error row j.
Proof.
  revert i j; induction row as [|x row IH]; intros [|i] [|j] H; simpl; auto;
    congruence.
Qed.

Lemma list_set_same (i : nat) (v : pystr) (row : list pystr) :
  (i < List.length row)%nat -> nth_error (list_set i v row) i = Some v.
Proof.
  revert i; induction row as [|x row IH]; intros [|i] H; simpl in *;
    try lia; auto. apply IH. lia.
Qed.

Lemma apply_mapping_shape (idx : nat) (m : dict pystr) (row : list pystr) :
  List.length (apply_mapping idx m row) = List.length row /\
  forall j, j <> idx -> nth_error (apply_mapping idx m row) j = nth_error row j.
Proof.
  unfold apply_mapping. destruct (nth_error row idx) as [cell|]; [|auto].
  destruct (dict_get (strip cell) m); [|auto].
  split; [apply list_set_length|]. intros j Hj. apply list_set_other. congruence.
Qed.

(** Consolidation changes nothing but theme cells: the headers, the number
    of rows, the length of every row and every cell outside the theme
    column are kept. *)
Theorem consolidate_themes_preserves
        (headers : list pystr) (data_rows : list (list pystr))
        (max_themes : nat) :
  fst (consolidate_themes headers data_rows max_themes) = headers /\
  Forall2
    (fun row row' =>
       List.length row' = List.length row /\
       forall j, list_index THEME_HEADER headers <> Some j ->
                 nth_error row' j = nth_error row j)
    data_rows (snd (consolidate_themes headers data_rows max_themes)).
Proof.
  assert (Hsame : forall rows : list (list pystr),
             Forall2
               (fun row row' =>
                  List.length row' = List.length row /\
                  forall j, list_index THEME_HEADER headers <> Some j ->
                            nth_error row' j = nth_error row j)
               rows rows).
  { induction rows; constructor; auto. }
  unfold consolidate_themes.
  destruct (list_index THEME_HEADER headers) as [idx|]; [|split; auto].
  cbv zeta.
  destruct (Nat.leb _ max_themes); [split; auto|].
  destruct (map fst (skipn max_themes _)) as [|o os]; [split; auto|].
  split; [reflexivity|]. cbn [snd].
  generalize (theme_mapping_of
                (map fst (firstn max_themes
                                 (sorted_desc (count_themes idx data_rows))))
                (o :: os)) as m.
  intros m. clear Hsame. induction data_rows as [|row rows IH]; cbn [map].
  - constructor.
  - constructor; [|exact IH].
    destruct (apply_mapping_shape idx m row) as [Hl Hn].
    split; [exact Hl|]. intros j Hj. apply Hn. congruence.
Qed.

(** The themes of a table: the stripped theme cells of its rows *)
Lemma themes_of_iff (idx : nat) (rows : list (list pystr)) (t : pystr) :
  In t (themes_of idx rows) <->
  exists row cell,
    In row rows /\ nth_error row idx = Some cell /\ t = strip cell.
Proof.
  split.
  - apply count_themes_keys_inv.
  - intros (row & cell & Hr & Hc & ->).
    apply (proj2 (count_themes_keys idx rows) row cell Hr Hc).
Qed.

Lemma themes_of_NoDup (idx : nat) (rows : list (list pystr)) :
  NoDup (themes_of idx rows).
Proof. apply count_themes_keys. Qed.

(** What consolidation does to the set of themes: nothing when there are
    at most [max_themes]; else the kept themes stay, and ["Autre"] comes in
    for the others. *)
Lemma consolidate_themes_cases
      (headers : list pystr) (data_rows : list (list pystr))
      (max_themes theme_idx : nat) :
  list_index THEME_HEADER headers = Some theme_idx ->
  ((List.length (themes_of theme_idx data_rows) <= max_themes)%nat /\
   consolidate_themes headers data_rows max_themes = (headers, data_rows))
  \/
  ((max_themes < List.length (themes_of theme_idx data_rows))%nat /\
   incl (themes_of theme_idx
                   (snd (consolidate_themes headers data_rows max_themes)))
        (kept_themes theme_idx max_themes data_rows ++ [AUTRE]) /\
   incl (kept_themes theme_idx max_themes data_rows)
        (themes_of theme_idx data_rows) /\
   In AUTRE (themes_of theme_idx
                       (snd (consolidate_themes headers data_rows max_themes)))).
Proof.
  intros Hidx. unfold consolidate_themes. rewrite Hidx. cbv zeta.
  unfold kept_themes, themes_of at 1 2.
  set (counts := count_themes theme_idx data_rows).
  set (sorted := sorted_desc counts).
  rewrite length_map.
  destruct (Nat.leb_spec (List.length counts) max_themes) as [Hle|Hgt];
    [left; auto|right].
  assert (Hlen : List.length sorted = List.length counts)
    by (symmetry; apply Permutation_length; apply sorted_desc_perm).
  destruct (map fst (skipn max_themes sorted)) as [|o os] eqn:Eo.
  { apply (f_equal (@List.length pystr)) in Eo.
    rewrite length_map, length_skipn in Eo. simpl in Eo. lia. }
  assert (Ho : In o (map fst (skipn max_themes sorted)))
    by (rewrite Eo; left; reflexivity).
  rewrite <- Eo in *. clear Eo os. cbn [snd].
  set (main := map fst (firstn max_themes sorted)).
  set (other := map fst (skipn max_themes sorted)) in *.
  set (rows' := map (apply_mapping theme_idx (theme_mapping_of main other))
                    data_rows).
  assert (Hkeys : forall k, In k (keys counts) <-> In k (main ++ other)).
  { intros k. unfold main, other. rewrite <- map_app, firstn_skipn.
    fold (keys sorted). split; apply Permutation_in; apply Permutation_map;
      [|apply Permutation_sym]; apply sorted_desc_perm. }
  split; [exact Hgt|]. split; [|split].
  - intros k Hk. apply themes_of_iff in Hk as (row' & cell' & Hr & Hc & ->).
    unfold rows' in Hr. apply in_map_iff in Hr as (row & <- & Hrow).
    unfold apply_mapping in Hc.
    destruct (nth_error row theme_idx) as [cell|] eqn:Ec; [|congruence].
    assert (Hk : In (strip cell) (main ++ other)).
    { apply Hkeys. apply (themes_of_iff theme_idx data_rows). eauto. }
    destruct (dict_get (strip cell) (theme_mapping_of main other)) as [t|] eqn:Et.
    + rewrite list_set_same in Hc
        by (apply nth_error_Some; rewrite Ec; discriminate).
      injection Hc as <-.
      apply theme_mapping_values in Et as [Ht| ->].
      * apply in_or_app. left.
        assert (Ht' : In t (keys counts))
          by (apply Hkeys; apply in_or_app; left; exact Ht).
        apply count_themes_keys_inv in Ht' as (r0 & c0 & _ & _ & ->).
        rewrite strip_idempotent. exact Ht.
      * apply in_or_app. right. left. vm_compute. reflexivity.
    + rewrite Ec in Hc. injection Hc as <-.
      exfalso. revert Et. unfold theme_mapping_of.
      rewrite (dict_get_fold_set (fun _ => AUTRE)).
      destruct (mem_str (strip cell) other) eqn:Eo; [discriminate|].
      rewrite dict_get_set. destruct (str_eqb AUTRE (strip cell)); [discriminate|].
      rewrite (dict_get_fold_set (fun x => x)).
      destruct (mem_str (strip cell) main) eqn:Em; [discriminate|].
      apply in_app_or in Hk as [Hk|Hk]; apply mem_str_iff in Hk; congruence.
  - intros k Hk. apply Hkeys. apply in_or_app. left. exact Hk.
  - assert (Hko : In o (keys counts))
      by (apply Hkeys; apply in_or_app; right; exact Ho).
    apply count_themes_keys_inv in Hko as (row & cell & Hr & Hc & ->).
    apply themes_of_iff.
    exists (apply_mapping theme_idx (theme_mapping_of main other) row), AUTRE.
    split; [apply in_map; exact Hr|]. split; [|vm_compute; reflexivity].
    unfold apply_mapping. rewrite Hc, (theme_mapping_get_other _ _ _ Ho).
    apply list_set_same. apply nth_error_Some. rewrite Hc. discriminate.
Qed.

(** After consolidation a table holds at most [max_themes + 1] distinct
    themes: the kept ones and ["Autre"]. *)
Theorem consolidate_themes_bound
        (headers : list pystr) (data_rows : list (list pystr))
        (max_themes theme_idx : nat) :
  list_index THEME_HEADER headers = Some theme_idx ->
  (List.length
     (themes_of theme_idx
                (snd (consolidate_themes headers data_rows max_themes)))
   <= max_themes + 1)%nat.
Proof.
  intros Hidx.
  destruct (consolidate_themes_cases headers data_rows max_themes theme_idx Hidx)
    as [[Hle E]|(Hgt & Hincl & _ & _)].
  - rewrite E. cbn [snd]. lia.
  - apply NoDup_incl_length in Hincl; [|apply themes_of_NoDup].
    rewrite length_app in Hincl. unfold kept_themes in Hincl.
    rewrite length_map, length_firstn in Hincl. simpl in Hincl. lia.
Qed.

Lemma consolidate_themes_bound_witness :
  (List.length
     (themes_of 1 (snd (consolidate_themes TABLE_HEADERS ex_nine_themes 6)))
   <= 6 + 1)%nat.
Proof.
  apply consolidate_themes_bound. vm_compute. reflexivity.
Defined.

(** ** Theme colours *)

Lemma insert_asc_perm (x : pystr) (l : list pystr) :
  Permutation (x :: l) (insert_asc x l).
Proof.
  induction l as [|y l IH]; simpl; [reflexivity|].
  destruct (str_ltb y x); [|reflexivity].
  rewrite perm_swap. apply perm_skip. exact IH.
Qed.

Lemma sorted_str_perm (l : list pystr) : Permutation l (sorted_str l).
Proof.
  induction l as [|x l IH]; simpl; [reflexivity|].
  rewrite <- insert_asc_perm. apply perm_skip. exact IH.
Qed.

Lemma list_index_none (k : pystr) (l : list pystr) :
  ~ In k l -> list_index k l = None.
Proof.
  induction l as [|y l IH]; simpl; intros H; [reflexivity|].
  destruct (str_eqb y k) eqn:E.
  - apply str_eqb_eq in E. tauto.
  - rewrite IH by tauto. reflexivity.
Qed.

Lemma list_index_some (k : pystr) (l : list pystr) (i : nat) :
  list_index k l = Some i -> nth_error l i = Some k.
Proof.
  revert i; induction l as [|y l IH]; simpl; intros i H; [discriminate|].
  destruct (str_eqb y k) eqn:E.
  - injection H as <-. apply str_eqb_eq in E. subst y. reflexivity.
  - destruct (list_index k l) as [j|]; [|discriminate].
    injection H as <-. simpl. apply IH. reflexivity.
Qed.

Lemma list_index_nth (k : pystr) (l : list pystr) (i : nat) :
  NoDup l -> nth_error l i = Some k -> list_index k l = Some i.
Proof.
  intros Hnd. revert i; induction Hnd as [|y l Hy Hnd IH]; intros [|i] H;
    simpl in H; try discriminate.
  - injection H as ->. simpl. rewrite str_eqb_refl. reflexivity.
  - simpl. destruct (str_eqb y k) eqn:E.
    + apply str_eqb_eq in E. subst y. apply nth_error_In in H. contradiction.
    + rewrite (IH _ H). reflexivity.
Qed.

Lemma list_index_In (k : pystr) (l : list pystr) :
  In k l -> exists i, list_index k l = Some i.
Proof.
  intros H. destruct (list_index k l) as [i|] eqn:E; [eauto|].
  exfalso. revert E. induction l as [|y l IH]; simpl; [contradiction|].
  destruct (str_eqb y k) eqn:Ey; [discriminate|].
  destruct H as [->|H]; [rewrite str_eqb_refl in Ey; discriminate|].
  destruct (list_index k l); [discriminate|]. intros _. apply IH; auto.
Qed.

(** A map filled from [enumerate(l)], for [l] without repetition *)
Lemma dict_get_enumerate {V : Type} (f : nat -> V) (l : list pystr) :
  NoDup l ->
  forall (s : nat) (d : dict V) (k : pystr),
    dict_get k
      (fold_left (fun m (it : nat * pystr) =>
                    let '(i, t) := it in dict_set t (f i) m)
                 (combine (seq s (List.length l)) l) d)
    = match list_index k l with
      | Some i => Some (f (s + i)%nat)
      | None => dict_get k d
      end.
Proof.
  induction 1 as [|y l Hy Hnd IH]; intros s d k; [reflexivity|].
  cbn [List.length seq combine fold_left list_index].
  rewrite IH, dict_get_set.
  destruct (str_eqb y k) eqn:E.
  - apply str_eqb_eq in E. subst y. rewrite (list_index_none k l Hy).
    rewrite Nat.add_0_r. reflexivity.
  - destruct (list_index k l) as [i|]; cbn [option_map]; [|reflexivity].
    f_equal. f_equal. lia.
Qed.

Lemma collected_themes (idx : nat) (rows : list (list pystr)) :
  forall (acc : list pystr) (t : pystr),
    In t (fold_left
            (fun themes row =>
               match nth_error row idx with
               | Some cell => themes ++ [strip cell]
               | None => themes
               end)
            rows acc)
    <-> In t acc \/
        exists row cell,
          In row rows /\ nth_error row idx = Some cell /\ t = strip cell.
Proof.
  induction rows as [|row rows IH]; intros acc t; cbn [fold_left].
  - split; [auto|]. intros [H|(r & c & [] & _)]. exact H.
  - rewrite IH. split.
    + intros [H|(r & c & Hr & Hc & Ht)].
      * destruct (nth_error row idx) as [cell|] eqn:E; [|auto].
        apply in_app_or in H as [H|[<-|[]]]; [auto|].
        right. exists row, cell. simpl. auto.
      * right. exists r, c. simpl. auto.
    + intros [H|(r & c & [<-|Hr] & Hc & Ht)].
      * left. destruct (nth_error row idx); [apply in_or_app|]; auto.
      * left. rewrite Hc. apply in_or_app. right. left. auto.
      * right. exists r, c. auto.
Qed.

Lemma theme_colors_distinct (i j : nat) :
  (i < 8)%nat -> (j < 8)%nat ->
  nth i get_theme_colors [] = nth j get_theme_colors [] -> i = j.
Proof.
  intros Hi Hj.
  assert (Hnd : NoDup get_theme_colors).
  { unfold get_theme_colors.
    repeat (constructor;
            [intros H; apply mem_str_iff in H; vm_compute in H; discriminate|]).
    constructor. }
  apply (proj1 (NoDup_nth get_theme_colors []) Hnd); assumption.
Qed.

Section ThemeColorFacts.

Variable py_set : PySet.
Variable headers : list pystr.
Variable data_rows : list (list pystr).
Variable theme_idx : nat.

Hypothesis theme_column_found : list_index THEME_HEADER headers = Some theme_idx.

Let sorted_themes : list pystr :=
  sorted_str
    (elements py_set
       (fold_left
          (fun themes row =>
             match nth_error row theme_idx with
             | Some cell => themes ++ [strip cell]
             | None => themes
             end)
          data_rows [])).

Lemma sorted_themes_NoDup : NoDup sorted_themes.
Proof.
  unfold sorted_themes.
  eapply Permutation_NoDup; [apply sorted_str_perm|]. apply elements_NoDup.
Qed.

Lemma sorted_themes_In (t : pystr) :
  In t sorted_themes <-> In t (themes_of theme_idx data_rows).
Proof.
  unfold sorted_themes. split.
  - intros H. apply (Permutation_in _ (Permutation_sym (sorted_str_perm _))) in H.
    apply elements_In in H. apply collected_themes in H
      as [[]|(row & cell & Hr & Hc & ->)].
    apply (proj2 (count_themes_keys theme_idx data_rows) row cell Hr Hc).
  - intros H. apply count_themes_keys_inv in H as (row & cell & Hr & Hc & ->).
    apply (Permutation_in _ (sorted_str_perm _)). apply elements_In.
    apply collected_themes. right. eauto.
Qed.

Lemma sorted_themes_length :
  List.length sorted_themes = List.length (themes_of theme_idx data_rows).
Proof.
  apply Nat.le_antisymm; apply NoDup_incl_length.
  - apply sorted_themes_NoDup.
  - intros t. apply sorted_themes_In.
  - apply count_themes_keys.
  - intros t. apply sorted_themes_In.
Qed.

Lemma assign_theme_colors_get (t : pystr) :
  dict_get t (assign_theme_colors py_set headers data_rows)
  = match list_index t sorted_themes with
    | Some i => Some (nth (Nat.modulo i 8) get_theme_colors [])
    | None => None
    end.
Proof.
  unfold assign_theme_colors. rewrite theme_column_found. cbv zeta.
  unfold enumerate. fold sorted_themes.
  rewrite (dict_get_enumerate
             (fun i => nth (Nat.modulo i (List.length get_theme_colors))
                           get_theme_colors []))
    by apply sorted_themes_NoDup.
  reflexivity.
Qed.

Lemma assign_theme_colors_has (t : pystr) :
  In t (themes_of theme_idx data_rows) ->
  exists c, dict_get t (assign_theme_colors py_set headers data_rows) = Some c.
Proof.
  intros H. rewrite assign_theme_colors_get.
  apply sorted_themes_In, list_index_In in H as [i Hi].
  rewrite Hi. eauto.
Qed.

Lemma assign_theme_colors_injective :
  (List.length (themes_of theme_idx data_rows) <= 8)%nat ->
  injective_map (assign_theme_colors py_set headers data_rows).
Proof.
  rewrite <- sorted_themes_length.
  intros Hlen k1 k2 v H1 H2. rewrite assign_theme_colors_get in H1, H2.
  destruct (list_index k1 sorted_themes) as [i|] eqn:E1; [|discriminate].
  destruct (list_index k2 sorted_themes) as [j|] eqn:E2; [|discriminate].
  apply list_index_some in E1, E2.
  assert (Hi : (i < List.length sorted_themes)%nat)
    by (apply nth_error_Some; congruence).
  assert (Hj : (j < List.length sorted_themes)%nat)
    by (apply nth_error_Some; congruence).
  rewrite Nat.mod_small in H1, H2 by lia.
  assert (i = j) by (apply theme_colors_distinct; try lia; congruence).
  subst j. congruence.
Qed.

(** The themes of the table, and nothing else, get a colour; every colour
    comes from the palette. *)
Theorem assign_theme_colors_domain (t : pystr) :
  (In t (themes_of theme_idx data_rows) <->
   exists c, dict_get t (assign_theme_colors py_set headers data_rows) = Some c)
  /\ (forall c,
         dict_get t (assign_theme_colors py_set headers data_rows) = Some c ->
         In c get_theme_colors).
Proof.
  split; [split; [apply assign_theme_colors_has|]|];
    rewrite assign_theme_colors_get.
  - intros [c H]. destruct (list_index t sorted_themes) as [i|] eqn:E;
      [|discriminate].
    apply sorted_themes_In. apply list_index_some in E.
    eapply nth_error_In; eauto.
  - intros c H. destruct (list_index t sorted_themes) as [i|]; [|discriminate].
    assert (Hc : c = nth (Nat.modulo i 8) get_theme_colors []) by congruence.
    rewrite Hc. apply nth_In.
    change (List.length get_theme_colors) with 8%nat.
    apply Nat.mod_upper_bound. discriminate.
Qed.

(** Distinct themes get distinct colours exactly when the table holds at
    most eight themes, the size of the palette. *)
Theorem assign_theme_colors_distinct :
  injective_map (assign_theme_colors py_set headers data_rows)
  <-> (List.length (themes_of theme_idx data_rows) <= 8)%nat.
Proof.
  split; [|apply assign_theme_colors_injective].
  rewrite <- sorted_themes_length. intros Hinj.
  destruct (le_lt_dec (List.length sorted_themes) 8) as [H|H]; [exact H|].
  exfalso.
  destruct (nth_error sorted_themes 0) as [a|] eqn:Ea;
    [|apply nth_error_None in Ea; lia].
  destruct (nth_error sorted_themes 8) as [b|] eqn:Eb;
    [|apply nth_error_None in Eb; lia].
  assert (Hab : a = b).
  { apply (Hinj a b (nth 0 get_theme_colors []));
      rewrite assign_theme_colors_get.
    - rewrite (list_index_nth a _ 0 sorted_themes_NoDup Ea). reflexivity.
    - rewrite (list_index_nth b _ 8 sorted_themes_NoDup Eb). reflexivity. }
  subst b. pose proof sorted_themes_NoDup as Hnd.
  rewrite NoDup_nth_error in Hnd.
  assert (E : 0%nat = 8%nat); [|discriminate].
  apply Hnd; [lia|congruence].
Qed.

End ThemeColorFacts.

Lemma assign_theme_colors_domain_witness :
  exists c,
    dict_get (u "T5")
             (assign_theme_colors (table_set length_slot)
                                  TABLE_HEADERS ex_nine_themes)
    = Some c.
Proof.
  assert (Hidx : list_index THEME_HEADER TABLE_HEADERS = Some 1%nat)
    by (vm_compute; reflexivity).
  destruct (assign_theme_colors_domain (table_set length_slot)
              TABLE_HEADERS ex_nine_themes 1 Hidx (u "T5")) as [[H _] _].
  apply H. vm_compute. tauto.
Defined.

Lemma assign_theme_colors_distinct_witness :
  injective_map
    (assign_theme_colors (table_set length_slot) TABLE_HEADERS
                         (firstn 8 ex_nine_themes)).
Proof.
  assert (Hidx : list_index THEME_HEADER TABLE_HEADERS = Some 1%nat)
    by (vm_compute; reflexivity).
  destruct (assign_theme_colors_distinct (table_set length_slot)
              TABLE_HEADERS (firstn 8 ex_nine_themes) 1 Hidx) as [_ H].
  apply H. vm_compute. lia.
Defined.

(** ** The order on strings and on sort keys *)

Lemma str_ltb_irrefl (a : pystr) : str_ltb a a = false.
Proof.
  induction a as [|x a IH]; simpl; [reflexivity|].
  rewrite N.ltb_irrefl. exact IH.
Qed.

Lemma str_ltb_trans (a b c : pystr) :
  str_ltb a b = true -> str_ltb b c = true -> str_ltb a c = true.
Proof.
  revert b c; induction a as [|x a IH]; intros [|y b] [|z c]; simpl;
    try discriminate; auto.
  destruct (N.ltb_spec x y), (N.ltb_spec y x), (N.ltb_spec y z),
    (N.ltb_spec z y), (N.ltb_spec x z), (N.ltb_spec z x);
    try discriminate; try lia; auto.
  apply IH.
Qed.

Lemma str_ltb_total (a b : pystr) :
  str_ltb a b = false -> str_ltb b a = false -> a = b.
Proof.
  revert b; induction a as [|x a IH]; intros [|y b]; simpl;
    try discriminate; auto.
  destruct (N.ltb_spec x y), (N.ltb_spec y x); try discriminate; try lia.
  intros H1 H2. f_equal; [lia|apply IH; assumption].
Qed.

Lemma str_ltb_asym (a b : pystr) : str_ltb a b = true -> str_ltb b a = false.
Proof.
  intros H. destruct (str_ltb b a) eqn:E; [|reflexivity].
  pose proof (str_ltb_trans _ _ _ H E) as Hc.
  rewrite str_ltb_irrefl in Hc. discriminate.
Qed.

Lemma key_ltb_false (k1 k2 : pystr * Z) :
  key_ltb k2 k1 = false <-> key_le k1 k2.
Proof.
  unfold key_ltb, key_le. destruct (str_eqb (fst k2) (fst k1)) eqn:E.
  - apply str_eqb_eq in E. rewrite E, str_ltb_irrefl, Z.ltb_ge.
    split; [auto|]. intros [H|[_ H]]; [discriminate|exact H].
  - apply str_eqb_neq in E. split.
    + intros H. left. destruct (str_ltb (fst k1) (fst k2)) eqn:E'; [reflexivity|].
      exfalso. apply E. symmetry. apply str_ltb_total; assumption.
    + intros [H|[H _]]; [apply str_ltb_asym; exact H|congruence].
Qed.

Lemma key_ltb_true (k1 k2 : pystr * Z) : key_ltb k1 k2 = true -> key_le k1 k2.
Proof.
  unfold key_ltb, key_le. destruct (str_eqb (fst k1) (fst k2)) eqn:E.
  - apply str_eqb_eq in E. rewrite Z.ltb_lt. intros H. right. split; [exact E|lia].
  - auto.
Qed.

Lemma key_ltb_irrefl (k : pystr * Z) : key_ltb k k = false.
Proof.
  unfold key_ltb. rewrite str_eqb_refl. apply Z.ltb_irrefl.
Qed.

Lemma key_le_trans (k1 k2 k3 : pystr * Z) :
  key_le k1 k2 -> key_le k2 k3 -> key_le k1 k3.
Proof.
  unfold key_le. intros [H1|[E1 H1]] [H2|[E2 H2]].
  - left. eapply str_ltb_trans; eauto.
  - left. rewrite <- E2. exact H1.
  - left. rewrite E1. exact H2.
  - right. split; [congruence|lia].
Qed.

(** ** Sorting the rows *)

Lemma insert_by_key_perm (key : list pystr -> pystr * Z) (x : list pystr)
      (l : list (list pystr)) :
  Permutation (x :: l) (insert_by_key key x l).
Proof.
  induction l as [|y l IH]; simpl; [reflexivity|].
  destruct (key_ltb (key y) (key x)); [|reflexivity].
  rewrite perm_swap. apply perm_skip. exact IH.
Qed.

Lemma sorted_by_key_perm (key : list pystr -> pystr * Z)
      (l : list (list pystr)) :
  Permutation l (sorted_by_key key l).
Proof.
  induction l as [|x l IH]; simpl; [reflexivity|].
  rewrite <- insert_by_key_perm. apply perm_skip. exact IH.
Qed.

Lemma insert_by_key_sorted (key : list pystr -> pystr * Z) (x : list pystr)
      (l : list (list pystr)) :
  StronglySorted (fun r1 r2 => key_le (key r1) (key r2)) l ->
  StronglySorted (fun r1 r2 => key_le (key r1) (key r2)) (insert_by_key key x l).
Proof.
  induction 1 as [|y l Hs IH Hy]; simpl.
  - constructor; constructor.
  - destruct (key_ltb (key y) (key x)) eqn:E.
    + constructor; [exact IH|].
      apply (Permutation_Forall (insert_by_key_perm key x l)).
      constructor; [apply key_ltb_true; exact E|exact Hy].
    + apply key_ltb_false in E. constructor.
      * constructor; assumption.
      * constructor; [exact E|].
        eapply Forall_impl; [|exact Hy]. intros z Hz.
        eapply key_le_trans; eauto.
Qed.

Lemma sorted_by_key_sorted (key : list pystr -> pystr * Z)
      (l : list (list pystr)) :
  StronglySorted (fun r1 r2 => key_le (key r1) (key r2)) (sorted_by_key key l).
Proof.
  induction l as [|x l IH]; simpl; [constructor|].
  apply insert_by_key_sorted. exact IH.
Qed.

Lemma sorted_by_key_stable (key : list pystr -> pystr * Z) (k : pystr * Z)
      (l : list (list pystr)) :
  let p := fun r => str_eqb (fst (key r)) (fst k) && Z.eqb (snd (key r)) (snd k) in
  filter p (sorted_by_key key l) = filter p l.
Proof.
  intros p.
  assert (Hp : forall r, p r = true -> key r = k).
  { intros r H. unfold p in H. apply andb_true_iff in H as [H1 H2].
    apply str_eqb_eq in H1. apply Z.eqb_eq in H2.
    destruct (key r), k. simpl in *. congruence. }
  assert (Hins : forall x l0,
             filter p (insert_by_key key x l0) = filter p (x :: l0)).
  { intros x l0. induction l0 as [|y l0 IH]; [reflexivity|].
    cbn [insert_by_key]. destruct (key_ltb (key y) (key x)) eqn:E; [|reflexivity].
    cbn [filter] in *. rewrite IH.
    destruct (p x) eqn:Ex, (p y) eqn:Ey; try reflexivity.
    apply Hp in Ex, Ey. rewrite Ex, Ey, key_ltb_irrefl in E. discriminate. }
  induction l as [|x l IH]; [reflexivity|].
  cbn [sorted_by_key fold_right]. rewrite Hins. cbn [filter].
  fold (sorted_by_key key l). rewrite IH. reflexivity.
Qed.

Section SortFacts.

Variable year_number : pystr -> option Z.

(** Sorting keeps the headers and the rows, and puts the rows in order:
    by stripped theme, the rows of one theme by year, a row without a
    readable year as year 0. *)
Theorem sort_references_sorted
        (headers : list pystr) (data_rows : list (list pystr)) :
  fst (sort_references_by_theme_and_year year_number headers data_rows)
  = headers /\
  Permutation
    data_rows
    (snd (sort_references_by_theme_and_year year_number headers data_rows)) /\
  StronglySorted
    (row_le year_number headers)
    (snd (sort_references_by_theme_and_year year_number headers data_rows)).
Proof.
  unfold sort_references_by_theme_and_year. cbv zeta. cbn [fst snd].
  split; [reflexivity|]. split; [apply sorted_by_key_perm|].
  apply (sorted_by_key_sorted
           (fun row =>
              (get_theme (list_index THEME_HEADER headers) row,
               get_year year_number (list_index YEAR_HEADER headers) row))).
Qed.

(** Sorting is stable: the rows of one theme and one year keep their
    order. *)
Theorem sort_references_stable
        (headers : list pystr) (data_rows : list (list pystr))
        (r : list pystr) :
  same_key year_number headers r
           (snd (sort_references_by_theme_and_year year_number headers data_rows))
  = same_key year_number headers r data_rows.
Proof.
  unfold sort_references_by_theme_and_year, same_key. cbv zeta. cbn [snd].
  apply (sorted_by_key_stable
           (fun row =>
              (get_theme (list_index THEME_HEADER headers) row,
               get_year year_number (list_index YEAR_HEADER headers) row))
           (get_theme (list_index THEME_HEADER headers) r,
            get_year year_number (list_index YEAR_HEADER headers) r)).
Qed.

End SortFacts.

(** ** The exports: themes and colours *)

Lemma themes_of_perm (idx : nat) (rows rows' : list (list pystr)) :
  Permutation rows rows' ->
  (forall t, In t (themes_of idx rows) <-> In t (themes_of idx rows'))
  /\ List.length (themes_of idx rows) = List.length (themes_of idx rows').
Proof.
  intros Hp.
  assert (H : forall t, In t (themes_of idx rows) <-> In t (themes_of idx rows')).
  { intros t. rewrite !themes_of_iff. split; intros (row & cell & Hr & Hc);
      exists row, cell; split; auto.
    - eapply Permutation_in; eauto.
    - eapply Permutation_in; [apply Permutation_sym|]; eauto. }
  split; [exact H|].
  apply Nat.le_antisymm; apply NoDup_incl_length;
    try apply themes_of_NoDup; intros t; apply H.
Qed.

Lemma consolidate_themes_headers
      (headers : list pystr) (data_rows : list (list pystr)) (max_themes : nat) :
  fst (consolidate_themes headers data_rows max_themes) = headers.
Proof.
  unfold consolidate_themes.
  destruct (list_index THEME_HEADER headers); [|reflexivity]. cbv zeta.
  destruct (Nat.leb _ max_themes); [reflexivity|].
  destruct (map fst (skipn max_themes _)); reflexivity.
Qed.

Section ExportFacts.

Variable py_set : PySet.
Variable year_number : pystr -> option Z.

(** In the table that is drawn no two themes share a colour, and the theme
    of every row has a colour: six themes are kept, ["Autre"] may come in,
    and the palette holds eight colours. *)
Theorem themed_table_colors
        (headers : list pystr) (data_rows : list (list pystr)) :
  let '(headers', data_rows', theme_color_map) :=
    themed_table py_set year_number headers data_rows in
  headers' = headers /\
  injective_map theme_color_map /\
  forall theme_idx row cell,
    list_index THEME_HEADER headers = Some theme_idx ->
    In row data_rows' -> nth_error row theme_idx = Some cell ->
    exists c, dict_get (strip cell) theme_color_map = Some c.
Proof.
  unfold themed_table, sort_references_by_theme_and_year. cbv zeta.
  set (r1 := sorted_by_key _ data_rows).
  pose proof (consolidate_themes_headers headers r1 6) as Hh.
  destruct (consolidate_themes headers r1 6) as [h2 r2] eqn:E.
  cbn [fst] in Hh. subst h2. split; [reflexivity|].
  destruct (list_index THEME_HEADER headers) as [idx|] eqn:Hidx.
  - split.
    + apply (assign_theme_colors_injective py_set headers r2 idx Hidx).
      destruct (consolidate_themes_cases headers r1 6 idx Hidx)
        as [[Hle E']|(_ & Hincl & _ & _)]; rewrite E in *; cbn [snd] in *.
      * injection E' as E'. rewrite E'. lia.
      * apply NoDup_incl_length in Hincl; [|apply themes_of_NoDup].
        rewrite length_app in Hincl. unfold kept_themes in Hincl.
        rewrite length_map, length_firstn in Hincl.
        cbn [List.length] in Hincl. lia.
    + intros theme_idx row cell Ht Hr Hc. injection Ht as <-.
      apply (assign_theme_colors_has py_set headers r2 idx Hidx).
      apply themes_of_iff. eauto.
  - split; [|intros ? ? ? Ht; discriminate].
    unfold assign_theme_colors. rewrite Hidx. intros k1 k2 v H. discriminate.
Qed.

(** The table of the page is sorted and consolidated once more, after
    the colours were assigned. The stripped theme of every row that has a
    theme cell is still a key of the colour map: the second consolidation
    brings in no theme that the map does not know. *)
Theorem html_table_colors
        (headers : list pystr) (data_rows : list (list pystr)) :
  let '(headers', data_rows', theme_color_map) :=
    themed_table py_set year_number headers data_rows in
  forall theme_idx row cell,
    list_index THEME_HEADER headers = Some theme_idx ->
    In row (snd (html_table year_number headers' data_rows')) ->
    nth_error row theme_idx = Some cell ->
    exists c, dict_get (strip cell) theme_color_map = Some c.
Proof.
  unfold themed_table, html_table, sort_references_by_theme_and_year. cbv zeta.
  set (r1 := sorted_by_key _ data_rows).
  pose proof (consolidate_themes_headers headers r1 6) as Hh.
  destruct (consolidate_themes headers r1 6) as [h2 r2] eqn:E.
  cbn [fst] in Hh. subst h2.
  set (r3 := sorted_by_key _ r2).
  intros idx row cell Hidx Hr Hc.
  apply (assign_theme_colors_has py_set headers r2 idx Hidx).
  assert (Hp : Permutation r2 r3) by apply sorted_by_key_perm.
  destruct (themes_of_perm idx r2 r3 Hp) as [Hin Hlen].
  assert (H4 : In (strip cell)
                  (themes_of idx (snd (consolidate_themes headers r3 6))))
    by (apply themes_of_iff; eauto).
  destruct (consolidate_themes_cases headers r3 6 idx Hidx)
    as [[_ E3]|(Hgt & Hincl & Hkept & _)].
  - rewrite E3 in H4. cbn [snd] in H4. apply Hin. exact H4.
  - apply Hincl in H4. apply in_app_or in H4 as [H4|[<-|[]]].
    + apply Hin. apply Hkept. exact H4.
    + destruct (consolidate_themes_cases headers r1 6 idx Hidx)
        as [[Hle E1]|(_ & _ & _ & Ha)]; rewrite E in *; cbn [snd] in *.
      * injection E1 as E1. rewrite E1 in Hlen. lia.
      * exact Ha.
Qed.

End ExportFacts.

(** ** Splitting a document into blocks of pages *)

Lemma seq_from (s len : nat) : seq s len = map (Nat.add s) (seq 0 len).
Proof.
  revert s; induction len as [|len IH]; intros s; [reflexivity|].
  cbn [seq map]. rewrite Nat.add_0_r. f_equal.
  rewrite (IH (S s)), (IH 1%nat), map_map. apply map_ext. intros i. lia.
Qed.

Lemma py_range_app (a b c : Z) :
  (a <= b)%Z -> (b <= c)%Z -> py_range a b ++ py_range b c = py_range a c.
Proof.
  intros Hab Hbc. unfold py_range.
  replace (Z.to_nat (c - a)) with (Z.to_nat (b - a) + Z.to_nat (c - b))%nat by lia.
  rewrite seq_app, map_app. f_equal.
  cbn [Nat.add]. rewrite (seq_from (Z.to_nat (b - a))), map_map.
  apply map_ext. intros i. lia.
Qed.

Lemma py_range_empty (a b : Z) : (b <= a)%Z -> py_range a b = [].
Proof.
  intros H. unfold py_range. replace (Z.to_nat (b - a)) with 0%nat by lia.
  reflexivity.
Qed.

Lemma py_range_length (a b : Z) :
  List.length (py_range a b) = Z.to_nat (b - a).
Proof. unfold py_range. rewrite length_map, length_seq. reflexivity. Qed.

Lemma py_range_In (a b k : Z) : In k (py_range a b) <-> (a <= k < b)%Z.
Proof.
  unfold py_range. rewrite in_map_iff. split.
  - intros (i & <- & Hi). apply in_seq in Hi. lia.
  - intros H. exists (Z.to_nat (k - a)). split; [lia|]. apply in_seq. lia.
Qed.

Lemma py_range_snoc (n : nat) :
  py_range 0 (Z.of_nat (S n)) = py_range 0 (Z.of_nat n) ++ [Z.of_nat n].
Proof.
  rewrite <- (py_range_app 0 (Z.of_nat n) (Z.of_nat (S n))) by lia.
  f_equal. unfold py_range.
  replace (Z.to_nat (Z.of_nat (S n) - Z.of_nat n)) with 1%nat by lia.
  cbn [seq map]. f_equal. lia.
Qed.

(** The pages of the first [m] blocks, one after the other *)
Lemma chunks_concat (total_pages pages_per_chunk : Z) (m : nat) :
  (0 <= total_pages)%Z -> (1 <= pages_per_chunk)%Z ->
  concat
    (map (fun chunk_num =>
            py_range (chunk_num * pages_per_chunk)
                     (Z.min (chunk_num * pages_per_chunk + pages_per_chunk)
                            total_pages))
         (py_range 0 (Z.of_nat m)))
  = py_range 0 (Z.min (Z.of_nat m * pages_per_chunk) total_pages).
Proof.
  intros Ht Hp. induction m as [|m IH].
  - rewrite py_range_empty by lia. rewrite py_range_empty by lia. reflexivity.
  - rewrite py_range_snoc, map_app, concat_app, IH. cbn [map concat].
    rewrite app_nil_r.
    destruct (Z.le_gt_cases (Z.of_nat m * pages_per_chunk) total_pages) as [H|H].
    + rewrite (Z.min_l _ _ H).
      rewrite py_range_app by nia. f_equal. nia.
    + rewrite (py_range_empty (Z.of_nat m * pages_per_chunk)) by lia.
      rewrite app_nil_r. f_equal. nia.
Qed.

(** For a block size of at least one, the blocks hold every page of the
    document once, in order; no block is empty or longer than the block
    size; the page numbers in a file name are those of its first and last
    page, counted from one; the blocks are numbered from one. *)
Theorem split_pdf_partition (total_pages pages_per_chunk : Z) :
  (0 <= total_pages)%Z -> (1 <= pages_per_chunk)%Z ->
  exists chunks,
    split_pdf total_pages pages_per_chunk = Some chunks /\
    concat (map chunk_pages chunks) = py_range 0 total_pages /\
    Forall (fun c =>
              chunk_pages c <> [] /\
              (Z.of_nat (List.length (chunk_pages c)) <= pages_per_chunk)%Z /\
              chunk_pages c = py_range (chunk_first c - 1) (chunk_last c))
           chunks /\
    map chunk_number chunks = py_range 1 (Z.of_nat (List.length chunks) + 1).
Proof.
  intros Ht Hp. unfold split_pdf.
  destruct (Z.eqb_spec pages_per_chunk 0) as [E|_]; [lia|].
  eexists. split; [reflexivity|]. cbv zeta.
  set (num_chunks := ((total_pages + pages_per_chunk - 1) / pages_per_chunk)%Z).
  assert (Hn : (0 <= num_chunks)%Z) by (apply Z.div_pos; lia).
  assert (Hlo : ((num_chunks - 1) * pages_per_chunk < total_pages)%Z).
  { pose proof (Z.mul_div_le (total_pages + pages_per_chunk - 1)
                             pages_per_chunk) as H.
    fold num_chunks in H. nia. }
  assert (Hhi : (total_pages <= num_chunks * pages_per_chunk)%Z).
  { pose proof (Z.mul_succ_div_gt (total_pages + pages_per_chunk - 1)
                                  pages_per_chunk) as H.
    fold num_chunks in H. nia. }
  split; [|split].
  - rewrite map_map. cbn [chunk_pages].
    replace num_chunks with (Z.of_nat (Z.to_nat num_chunks)) by lia.
    rewrite chunks_concat by assumption. f_equal. lia.
  - apply Forall_forall. intros c Hc.
    apply in_map_iff in Hc as (k & <- & Hk). apply py_range_In in Hk.
    cbn [chunk_pages chunk_first chunk_last]. split; [|split].
    + intros E. apply (f_equal (@List.length Z)) in E.
      rewrite py_range_length in E. simpl in E. nia.
    + rewrite py_range_length. lia.
    + f_equal. lia.
  - rewrite map_map. cbn [chunk_number]. rewrite length_map, py_range_length.
    unfold py_range. rewrite map_map.
    replace (Z.to_nat (Z.of_nat (Z.to_nat (num_chunks - 0)) + 1 - 1))
      with (Z.to_nat (num_chunks - 0)) by lia.
    apply map_ext. intros i. lia.
Qed.

Lemma split_pdf_partition_witness :
  exists chunks,
    split_pdf 45 20 = Some chunks /\
    map chunk_last chunks = [20; 40; 45]%Z.
Proof.
  destruct (split_pdf_partition 45 20) as (chunks & E & _); [lia|lia|].
  exists chunks. split; [exact E|].
  vm_compute in E. injection E as <-. reflexivity.
Defined.

(** ** The shape of a parsed table *)

Lemma replace_from_chars (old new : pystr) (c : char) (s : pystr) :
  forall skip,
    In c (replace_from old new skip s) -> In c s \/ In c new.
Proof.
  induction s as [|d s IH]; intros skip H; [contradiction|].
  cbn [replace_from] in H. destruct skip as [|k].
  - destruct (startswith old (d :: s)).
    + apply in_app_or in H as [H|H]; [auto|].
      apply IH in H as [H|H]; [left; right; exact H|auto].
    + destruct H as [->|H]; [left; left; reflexivity|].
      apply IH in H as [H|H]; [left; right; exact H|auto].
  - apply IH in H as [H|H]; [left; right; exact H|auto].
Qed.

Lemma replace_keeps_out (old new : pystr) (c : char) (s : pystr) :
  ~ In c new -> ~ In c s -> ~ In c (replace old new s).
Proof.
  intros Hn Hs H. apply replace_from_chars in H. tauto.
Qed.

Lemma split_char_chars (sep : char) (s p : pystr) (c : char) :
  In p (split_char sep s) -> In c p -> In c s.
Proof.
  revert p; induction s as [|d s IH]; intros p Hp Hc; simpl in Hp.
  - destruct Hp as [<-|[]]. contradiction.
  - destruct (d =? sep).
    + destruct Hp as [<-|Hp]; [contradiction|]. right. eapply IH; eauto.
    + destruct (split_char sep s) as [|w ws] eqn:E.
      * destruct Hp as [<-|[]]. destruct Hc as [->|[]]. left. reflexivity.
      * destruct Hp as [<-|Hp].
        -- destruct Hc as [->|Hc]; [left; reflexivity|].
           right. apply (IH w); [left; reflexivity|exact Hc].
        -- right. apply (IH p); [right; exact Hp|exact Hc].
Qed.

Lemma middle_In {A : Type} (l : list A) (x : A) : In x (middle l) -> In x l.
Proof.
  unfold middle. intros H.
  assert (Ht : In x (tl l)).
  { revert H. generalize (tl l) as t. induction t as [|a t IH]; [auto|].
    simpl. destruct t as [|b t]; [intros []|].
    intros [->|H]; [left; reflexivity|right; apply IH; exact H]. }
  destruct l; [exact Ht|right; exact Ht].
Qed.

Lemma split_cells_plain (line : pystr) :
  ~ In ch_nl line -> Forall plain_cell (split_cells line).
Proof.
  intros Hnl. unfold split_cells. apply Forall_forall. intros cell Hc.
  apply in_map_iff in Hc as (p & <- & Hp). apply middle_In in Hp.
  split; intros H; apply strip_In in H.
  - pose proof (split_char_pieces ch_pipe line) as Hf.
    rewrite Forall_forall in Hf. exact (Hf p Hp H).
  - apply Hnl. eapply split_char_chars; eauto.
Qed.

Lemma fix_cell_plain (cell : pystr) : plain_cell cell -> plain_cell (fix_cell cell).
Proof.
  intros [Hp Hn]. unfold fix_cell.
  split; repeat (apply replace_keeps_out;
                 [apply not_in_char; vm_compute; reflexivity|]); assumption.
Qed.

Lemma fix_header_plain (h : pystr) : plain_cell h -> plain_cell (fix_header h).
Proof.
  intros [Hp Hn]. unfold fix_header.
  split; repeat (apply replace_keeps_out;
                 [apply not_in_char; vm_compute; reflexivity|]); assumption.
Qed.

(** A parsed table is rectangular: every data row has as many cells as
    there are headers. No header and no cell holds a pipe or a line
    feed. *)
Theorem parse_markdown_table_shape (table_content : pystr) :
  let (headers, data_rows) := parse_markdown_table table_content in
  Forall (fun row => List.length row = List.length headers) data_rows /\
  Forall plain_cell headers /\
  Forall (Forall plain_cell) data_rows.
Proof.
  unfold parse_markdown_table.
  destruct table_content as [|c0 s0]; [repeat split; constructor|].
  set (content := c0 :: s0). cbv zeta.
  set (lines := map strip
                    (filter (fun line => negb (is_blank (strip line)))
                            (split_char ch_nl content))).
  assert (Hlines : Forall (fun l => ~ In ch_nl l) lines).
  { apply Forall_forall. intros l Hl. unfold lines in Hl.
    apply in_map_iff in Hl as (l0 & <- & Hl0). apply filter_In in Hl0 as [Hl0 _].
    intros H. apply strip_In in H.
    pose proof (split_char_pieces ch_nl content) as Hf.
    rewrite Forall_forall in Hf. exact (Hf l0 Hl0 H). }
  destruct (Nat.ltb (List.length lines) 2); [repeat split; constructor|].
  assert (Hdata : Forall (fun l => ~ In ch_nl l)
                         (filter (fun line => negb (is_separator line)) lines)).
  { apply Forall_forall. intros l Hl. apply filter_In in Hl as [Hl _].
    rewrite Forall_forall in Hlines. auto. }
  destruct (filter (fun line => negb (is_separator line)) lines)
    as [|header_line rest]; [repeat split; constructor|].
  inversion Hdata as [|? ? Hh Hrest]; subst.
  set (headers := map fix_header (split_cells header_line)).
  assert (Hinv : forall init,
             Forall (fun row => List.length row = List.length headers
                                /\ Forall plain_cell row) init ->
             Forall (fun row => List.length row = List.length headers
                                /\ Forall plain_cell row)
                    (fold_left
                       (fun rows line =>
                          if Nat.eqb (List.length (split_cells line))
                                     (List.length headers)
                          then rows ++ [map fix_cell (split_cells line)]
                          else rows)
                       rest init)).
  { clear Hdata. induction Hrest as [|line rest Hl _ IH]; intros init Hi;
      [exact Hi|].
    cbn [fold_left]. apply IH.
    destruct (Nat.eqb_spec (List.length (split_cells line))
                           (List.length headers)) as [E|_]; [|exact Hi].
    apply Forall_app. split; [exact Hi|]. constructor; [|constructor].
    split; [rewrite length_map; exact E|].
    apply Forall_forall. intros cell Hc. apply in_map_iff in Hc as (x & <- & Hx).
    apply fix_cell_plain. pose proof (split_cells_plain line Hl) as Hf.
    rewrite Forall_forall in Hf. auto. }
  specialize (Hinv [] (Forall_nil _)).
  split; [|split].
  - eapply Forall_impl; [|exact Hinv]. intros row [H _]. exact H.
  - apply Forall_forall. intros h Hin. apply in_map_iff in Hin as (x & <- & Hx).
    apply fix_header_plain. pose proof (split_cells_plain header_line Hh) as Hf.
    rewrite Forall_forall in Hf. auto.
  - eapply Forall_impl; [|exact Hinv]. intros row [_ H]. exact H.
Qed.

(** ** The rows of the program *)

Section ProgramFacts.

Variable lower : pystr -> pystr.
Variable ci_eq : char -> char -> bool.
Variable set_iter : list pystr -> list pystr.

Lemma analyze_reference_usage_some (text : pystr) (ref_parsed : ParsedReference) :
  exists usage_desc importance,
    analyze_reference_usage lower ci_eq set_iter text ref_parsed
    = Some (usage_desc, importance) /\
    In importance IMPORTANCE_NOTES /\
    (year ref_parsed = [] -> usage_desc = DEFAULT_USAGE /\ importance = 30%Z).
Proof.
  unfold analyze_reference_usage.
  destruct (find_reference_citations_some lower ci_eq text ref_parsed) as [cs Hcs].
  assert (Hy : year ref_parsed = [] -> cs = []).
  { intros Hy. unfold find_reference_citations in Hcs. rewrite Hy in Hcs.
    congruence. }
  rewrite Hcs. cbn [bind]. destruct cs as [|c cs].
  - do 2 eexists. split; [reflexivity|]. split; [|auto].
    unfold IMPORTANCE_NOTES. simpl. auto.
  - do 2 eexists. split; [reflexivity|]. split; [|intros H; apply Hy in H; discriminate].
    unfold base_importance, IMPORTANCE_NOTES.
    destruct (_ || _);
      destruct (Nat.ltb 5 _); [|destruct (Nat.ltb 2 _); [|destruct (Nat.ltb 0 _)]| |destruct (Nat.ltb 2 _); [|destruct (Nat.ltb 0 _)]];
      vm_compute; tauto.
Qed.

Lemma categorize_theme_label (ref_parsed : ParsedReference) (usage_desc : pystr) :
  In (categorize_theme lower ref_parsed usage_desc) THEME_LABELS.
Proof.
  unfold categorize_theme, THEME_LABELS. cbv zeta.
  repeat match goal with
         | |- context [if ?b then _ else _] => destruct b
         end; simpl; auto 10.
Qed.



End ProgramFacts.

(** ** Usage labels that decide the theme *)

Section UsageAndTheme.

Variable lower : pystr -> pystr.

Hypothesis lower_keeps : keeps_word lower KW_THEORIQUE.

(** The usage description is classified with the entry. When it holds the
    label ["cadre théorique"], the keyword ["théorique"] of the fourth rule
    is found: the theme is one of the first four, never the instruments
    and never the applications. *)
Theorem categorize_theme_framing
        (ref_parsed : ParsedReference) (usage_desc pre post : pystr) :
  usage_desc = pre ++ L_FRAME ++ post ->
  In (categorize_theme lower ref_parsed usage_desc) FIRST_THEMES.
Proof.
  intros Hu. unfold categorize_theme. cbv zeta.
  assert (Hm : any_in KW_MODEL
                      (lower (full_ref ref_parsed ++ u " " ++ usage_desc)) = true).
  { assert (Hl : L_FRAME = u "cadre " ++ KW_THEORIQUE)
      by (vm_compute; reflexivity).
    destruct (lower_keeps (full_ref ref_parsed ++ u " " ++ pre ++ u "cadre ") post)
      as (pre' & post' & E).
    apply any_in_iff. exists KW_THEORIQUE, pre', post'.
    split; [vm_compute; tauto|].
    rewrite <- E, Hu, Hl. f_equal. rewrite <- !app_assoc. reflexivity. }
  rewrite Hm. unfold FIRST_THEMES.
  destruct (any_in KW_GNSS _); [simpl; auto|].
  destruct (any_in KW_GEODESY _); [simpl; auto|].
  destruct (any_in KW_OPTIM _); simpl; auto.
Qed.

End UsageAndTheme.

Lemma categorize_theme_framing_witness :
  In (categorize_theme lower_latin1 ex_ref2 (L_RESULT ++ u ", " ++ L_FRAME))
     FIRST_THEMES.
Proof.
  apply (categorize_theme_framing lower_latin1) with (pre := L_RESULT ++ u ", ")
                                                     (post := []).
  - intros pre post. exists (lower_latin1 pre), (lower_latin1 post).
    unfold lower_latin1. rewrite !map_app. reflexivity.
  - rewrite app_nil_r, <- app_assoc. reflexivity.
Defined.

(** ** Escaping the cells of the page *)

Lemma replace_char (c : char) (new s : pystr) :
  replace [c] new s = flat_map (fun d => if c =? d then new else [d]) s.
Proof.
  unfold replace. induction s as [|d s IH]; [reflexivity|].
  cbn [replace_from flat_map List.length Nat.sub]. rewrite startswith_head.
  destruct (c =? d); rewrite IH; reflexivity.
Qed.

Lemma flat_map_flat_map {A B C : Type} (f : B -> list C) (g : A -> list B)
      (l : list A) :
  flat_map f (flat_map g l) = flat_map (fun x => flat_map f (g x)) l.
Proof.
  induction l as [|x l IH]; [reflexivity|].
  cbn [flat_map]. rewrite flat_map_app, IH. reflexivity.
Qed.

(** The four replacements in a row act as one pass over the characters:
    no replacement touches what an earlier one wrote. The text that is
    written holds no ['<'], no ['>'] and no double quote. *)
Theorem html_escape_entities (cell : pystr) :
  html_escape cell = flat_map html_entity cell /\
  forall c, In c (html_escape cell) ->
            c <> ch_lt /\ c <> ch_gt /\ c <> ch_quot.
Proof.
  assert (E : html_escape cell = flat_map html_entity cell).
  { unfold html_escape. rewrite !replace_char, !flat_map_flat_map.
    apply flat_map_ext. intros d. unfold html_entity.
    destruct (N.eqb_spec d ch_amp) as [->|H1]; [vm_compute; reflexivity|].
    destruct (N.eqb_spec d ch_lt) as [->|H2]; [vm_compute; reflexivity|].
    destruct (N.eqb_spec d ch_gt) as [->|H3]; [vm_compute; reflexivity|].
    destruct (N.eqb_spec d ch_quot) as [->|H4]; [vm_compute; reflexivity|].
    assert (F1 : (ch_amp =? d) = false) by (apply N.eqb_neq; congruence).
    assert (F2 : (ch_lt =? d) = false) by (apply N.eqb_neq; congruence).
    assert (F3 : (ch_gt =? d) = false) by (apply N.eqb_neq; congruence).
    assert (F4 : (ch_quot =? d) = false) by (apply N.eqb_neq; congruence).
    rewrite F1. cbn [flat_map app]. rewrite F2. cbn [flat_map app].
    rewrite F3. cbn [flat_map app]. rewrite F4. reflexivity. }
  split; [exact E|]. rewrite E. intros c Hc.
  apply in_flat_map in Hc as (d & _ & Hd). revert Hd. unfold html_entity.
  destruct (d =? ch_amp) eqn:E1;
    [vm_compute; intuition (subst; discriminate)|].
  destruct (d =? ch_lt) eqn:E2;
    [vm_compute; intuition (subst; discriminate)|].
  destruct (d =? ch_gt) eqn:E3;
    [vm_compute; intuition (subst; discriminate)|].
  destruct (d =? ch_quot) eqn:E4;
    [vm_compute; intuition (subst; discriminate)|].
  intros [<-|[]]. apply N.eqb_neq in E2, E3, E4. auto.
Qed.

(** ** Clean cells *)

Lemma solid_trimmed (s : pystr) : starts_solid s -> ends_solid s -> trimmed s.
Proof.
  intros (a & t & -> & Ha) (t' & b & E & Hb). split.
  - intros a0 t0 H. injection H as <- _. exact Ha.
  - intros t0 b0 H. rewrite H in E. apply app_inj_tail in E as [_ ->]. exact Hb.
Qed.

Lemma solid_strip (s : pystr) : starts_solid s -> ends_solid s -> strip s = s.
Proof. intros H1 H2. apply trimmed_strip, solid_trimmed; assumption. Qed.

Lemma starts_solid_app (s t : pystr) : starts_solid s -> starts_solid (s ++ t).
Proof. intros (a & r & -> & Ha). exists a, (r ++ t). auto. Qed.

Lemma ends_solid_app (s t : pystr) : ends_solid t -> ends_solid (s ++ t).
Proof.
  intros (r & b & -> & Hb). exists (s ++ r), b. rewrite app_assoc. auto.
Qed.

Lemma plain_cell_app (s t : pystr) :
  plain_cell s -> plain_cell t -> plain_cell (s ++ t).
Proof.
  intros [H1 H2] [H3 H4]. split; intros H; apply in_app_or in H; tauto.
Qed.

Lemma plain_cell_incl (s t : pystr) :
  (forall c, In c s -> In c t) -> plain_cell t -> plain_cell s.
Proof. intros Hi [H1 H2]. split; intros H; apply Hi in H; tauto. Qed.

Lemma plain_cell_literal (s : pystr) :
  existsb (N.eqb ch_pipe) s = false -> existsb (N.eqb ch_nl) s = false ->
  plain_cell s.
Proof. intros H1 H2. split; apply not_in_char; assumption. Qed.

(** *** Whitespace runs *)

Lemma sub_ws_first (a : char) (t : pystr) :
  is_space a = false ->
  py_re_sub WS_RE (u " ") (a :: t) = a :: sub_from WS_RE (u " ") 1 0 t.
Proof.
  intros Ha. unfold py_re_sub. cbn [sub_from].
  unfold WS_RE at 1. cbn [re_match]. rewrite Ha. reflexivity.
Qed.

Lemma leading_ws_firstn (n : nat) (s : pystr) :
  (n <= List.length s)%nat -> forallb is_space (firstn n s) = true ->
  (n <= leading_ws s)%nat.
Proof.
  revert s; induction n as [|n IH]; intros s Hn H; [lia|].
  destruct s as [|c s]; [simpl in Hn; lia|].
  cbn [firstn forallb] in H. apply andb_true_iff in H as [Hc H].
  cbn [leading_ws]. rewrite Hc. simpl in Hn.
  specialize (IH s ltac:(lia) H). lia.
Qed.

Lemma sub_ws_last (t : pystr) (b : char) :
  is_space b = false ->
  forall pos skip,
    (skip <= leading_ws (t ++ [b]))%nat ->
    exists t', sub_from WS_RE (u " ") pos skip (t ++ [b]) = t' ++ [b].
Proof.
  intros Hb. induction t as [|d t IH]; intros pos skip Hs.
  - cbn [app leading_ws] in Hs. rewrite Hb in Hs.
    assert (skip = 0)%nat by lia. subst skip.
    cbn [app sub_from]. unfold WS_RE at 1. cbn [re_match]. rewrite Hb.
    exists []. reflexivity.
  - cbn [app] in *. destruct skip as [|k].
    + cbn [sub_from].
      destruct (re_match WS_RE None pos (d :: t ++ [b])) as [x|] eqn:E.
      * unfold WS_RE in E. cbn [re_match] in E.
        destruct (is_space d) eqn:Ed; [|discriminate].
        apply star_inv_class in E as (n & Hn & Hall & Hk).
        cbn [re_match] in Hk. injection Hk as <-. cbn [m_end].
        match goal with
        | |- context [Nat.eqb ?a ?b] =>
          destruct (Nat.eqb_spec a b) as [Heq|_]; [lia|]
        end.
        pose proof (leading_ws_firstn n (t ++ [b]) Hn Hall) as Hlead.
        match goal with
        | |- context [sub_from _ _ _ ?k (t ++ [b])] =>
          destruct (IH (S pos) k) as [t' Ht']; [lia|]
        end.
        rewrite Ht'. exists (u " " ++ t'). rewrite <- app_assoc. reflexivity.
      * destruct (IH (S pos) 0%nat ltac:(lia)) as [t' Ht'].
        rewrite Ht'. exists (d :: t'). reflexivity.
    + cbn [sub_from]. cbn [leading_ws] in Hs.
      destruct (is_space d); [|lia].
      destruct (IH (S pos) k ltac:(lia)) as [t' Ht']. eauto.
Qed.

Lemma sub_ws_solid (s : pystr) :
  starts_solid s -> ends_solid s ->
  starts_solid (py_re_sub WS_RE (u " ") s)
  /\ ends_solid (py_re_sub WS_RE (u " ") s).
Proof.
  intros (a & t & -> & Ha) (t' & b & E & Hb). split.
  - rewrite sub_ws_first by exact Ha. exists a. eauto.
  - rewrite E. unfold py_re_sub.
    destruct (sub_ws_last t' b Hb 0 0 ltac:(lia)) as [r Hr].
    rewrite Hr. exists r, b. auto.
Qed.

Lemma sub_ws_plain (s : pystr) :
  plain_cell s -> plain_cell (py_re_sub WS_RE (u " ") s).
Proof.
  intros [H1 H2]. unfold py_re_sub.
  split; intros H; apply sub_ws_chars in H as [H|[H _]];
    try discriminate; tauto.
Qed.

(** *** Stripping *)

Lemma strip_solid (s : pystr) :
  strip s = [] \/ (starts_solid (strip s) /\ ends_solid (strip s)).
Proof.
  destruct (strip_trimmed s) as [Hf Hl].
  destruct (strip s) as [|a t] eqn:E; [left; reflexivity|right]. split.
  - exists a, t. split; [reflexivity|]. eapply Hf. reflexivity.
  - destruct (exists_last (l := a :: t)) as (r & b & Hr); [discriminate|].
    exists r, b. split; [exact Hr|]. eapply Hl. exact Hr.
Qed.

Lemma strip_plain (s : pystr) : plain_cell s -> plain_cell (strip s).
Proof. apply plain_cell_incl. intros c. apply strip_In. Qed.

Lemma strip_head (a : char) (t : pystr) :
  is_space a = false -> exists t', strip (a :: t) = a :: t'.
Proof.
  intros Ha. unfold strip. rewrite lstrip_cons by exact Ha.
  destruct (rstrip_prefix (a :: t)) as [w Hw].
  destruct (rstrip (a :: t)) as [|a' t'] eqn:E.
  - exfalso. unfold rstrip in E.
    apply (f_equal (@rev char)) in E. rewrite rev_involutive in E.
    cbn [rev] in E.
    assert (Hl : lstrip (rev t ++ [a]) <> []).
    { clear E Hw. generalize (rev t) as r. induction r as [|c r IH]; cbn.
      - rewrite Ha. discriminate.
      - destruct (is_space c); [exact IH|discriminate]. }
    cbn [rev] in Hl. contradiction.
  - cbn [app] in Hw. injection Hw as <- _. eauto.
Qed.
(** *** Literals *)

Lemma solidb_sound (s : pystr) :
  solidb s = true -> starts_solid s /\ ends_solid s.
Proof.
  unfold solidb. intros H. apply andb_true_iff in H as [H1 H2]. split.
  - destruct s as [|a t]; [discriminate|]. exists a, t.
    split; [reflexivity|]. apply negb_true_iff. exact H1.
  - destruct (rev s) as [|b r] eqn:E; [discriminate|].
    exists (rev r), b. split; [|apply negb_true_iff; exact H2].
    rewrite <- (rev_involutive s), E. reflexivity.
Qed.

Lemma literal_clean (s : pystr) :
  solidb s = true ->
  existsb (N.eqb ch_pipe) s = false -> existsb (N.eqb ch_nl) s = false ->
  clean_cell s.
Proof.
  intros Hs H1 H2. destruct (solidb_sound s Hs) as [Ha Hb].
  split; [apply not_in_char; exact H1|].
  split; [apply not_in_char; exact H2|]. apply solid_strip; assumption.
Qed.

Lemma theme_label_clean (t : pystr) : In t THEME_LABELS -> clean_cell t.
Proof.
  unfold THEME_LABELS. intros H.
  repeat (destruct H as [<-|H];
          [apply literal_clean; vm_compute; reflexivity|]).
  contradiction.
Qed.

Lemma usage_label_facts (l : pystr) :
  In l USAGE_LABELS -> starts_solid l /\ ends_solid l /\ plain_cell l.
Proof.
  unfold USAGE_LABELS. intros H.
  repeat (destruct H as [<-|H];
          [split; [|split];
           [apply solidb_sound; vm_compute; reflexivity
           |apply solidb_sound; vm_compute; reflexivity
           |apply plain_cell_literal; vm_compute; reflexivity]|]).
  contradiction.
Qed.

(** *** Joining *)

Lemma join_cons (sep x : pystr) (l : list pystr) :
  l <> [] -> join sep (x :: l) = x ++ sep ++ join sep l.
Proof. destruct l; [contradiction|reflexivity]. Qed.

Lemma join_solid (sep : pystr) (l : list pystr) :
  l <> [] -> Forall (fun x => starts_solid x /\ ends_solid x) l ->
  starts_solid (join sep l) /\ ends_solid (join sep l).
Proof.
  intros Hne H. induction H as [|x l [Hx1 Hx2] Hl IH]; [contradiction|].
  destruct l as [|y l]; [split; assumption|].
  rewrite join_cons by discriminate.
  destruct (IH ltac:(discriminate)) as [_ He]. split.
  - apply starts_solid_app. exact Hx1.
  - apply ends_solid_app, ends_solid_app. exact He.
Qed.

Lemma join_plain (sep : pystr) (l : list pystr) :
  plain_cell sep -> Forall plain_cell l -> plain_cell (join sep l).
Proof.
  intros Hs H. induction H as [|x l Hx Hl IH]; [split; intros []|].
  destruct l as [|y l]; [exact Hx|].
  rewrite join_cons by discriminate.
  apply plain_cell_app; [exact Hx|]. apply plain_cell_app; assumption.
Qed.

Lemma join_head (sep : pystr) (a : char) (t : pystr) (l : list pystr) :
  exists t', join sep ((a :: t) :: l) = a :: t'.
Proof. destruct l; cbn [join app]; eauto. Qed.

(** *** The fields of a parsed entry *)

Lemma upper_solid (a : char) :
  is_upper_az a = true ->
  is_space a = false /\ a <> ch_comma /\ a <> ch_lpar.
Proof.
  unfold is_upper_az, is_space, ch_comma, ch_lpar. intros H.
  apply andb_true_iff in H as [H1 H2].
  apply N.leb_le in H1. apply N.leb_le in H2.
  split; [|split; lia].
  repeat match goal with
         | |- (_ || _) = false => apply orb_false_iff; split
         | |- (_ && _) = false => apply andb_false_iff
         end;
    try (apply N.eqb_neq; lia);
    try (left; apply N.leb_gt; lia); try (right; apply N.leb_gt; lia).
Qed.

Lemma split_char_first (sep a : char) (t : pystr) :
  a <> sep -> exists w ws, split_char sep (a :: t) = (a :: w) :: ws.
Proof.
  intros H. cbn [split_char].
  destruct (N.eqb_spec a sep) as [E|_]; [contradiction|].
  destruct (split_char sep t) as [|w ws]; eauto.
Qed.

Section EntryCells.

Variable lower : pystr -> pystr.

Lemma parse_authors_head (a : char) (t : pystr) (ym : option rmatch)
      (au : pystr) :
  is_upper_az a = true ->
  (forall m, ym = Some m -> (1 <= r_start m)%nat) ->
  parse_authors lower (a :: t) ym = Some au ->
  exists t', au = a :: t'.
Proof.
  intros Ha Hm. destruct (upper_solid a Ha) as (Hs & Hc & _).
  unfold parse_authors. destruct ym as [m|].
  - specialize (Hm m eq_refl). cbv zeta.
    assert (Hp : exists t2,
               py_re_sub WS_RE (u " ") (strip (slice 0 (r_start m) (a :: t)))
               = a :: t2).
    { unfold slice. cbn [skipn]. rewrite Nat.sub_0_r.
      destruct (r_start m) as [|n]; [lia|]. cbn [firstn].
      destruct (strip_head a (firstn n t) Hs) as [t1 ->].
      rewrite sub_ws_first by exact Hs. eauto. }
    destruct Hp as [t2 Hp]. rewrite Hp.
    destruct (contains (u ", ") (a :: t2)); [|intros H; injection H as <-; eauto].
    destruct (split_char_first ch_comma a t2 Hc) as (w & ws & Hsp).
    rewrite index0_split_char, Hsp. cbn [bind hd].
    destruct (strip_head a w Hs) as [t3 Ht3]. rewrite Ht3.
    destruct (contains (u "et al") _).
    + intros H. injection H as <-. cbn [app]. eauto.
    + match goal with
      | |- context [join ?sep ?l] =>
        assert (Hj : exists t4, join sep l = a :: t4)
          by (cbn [firstn map]; rewrite Ht3; apply join_head);
          destruct Hj as [t4 Hj]; rewrite Hj
      end.
      destruct (Nat.ltb 3 _); intros H; injection H as <-; cbn [app]; eauto.
  - destruct (contains (u ",") (a :: t)).
    + destruct (split_char_first ch_comma a t Hc) as (w & ws & Hsp).
      rewrite index0_split_char, Hsp. cbn [hd].
      intros H. injection H as <-. eauto.
    + intros H. injection H as <-. cbn [firstn]. eauto.
Qed.

Lemma parse_authors_plain (s : pystr) (ym : option rmatch) (au : pystr) :
  plain_cell s -> parse_authors lower s ym = Some au -> plain_cell au.
Proof.
  intros Hs. unfold parse_authors. destruct ym as [m|].
  - cbv zeta.
    set (part := py_re_sub WS_RE (u " ") (strip (slice 0 (r_start m) s))).
    assert (Hpart : plain_cell part).
    { apply sub_ws_plain, strip_plain.
      apply (plain_cell_incl _ s); [|exact Hs].
      intros c H. unfold slice in H. eapply skipn_In, firstn_In. exact H. }
    assert (Hpieces : Forall plain_cell (split_char ch_comma part)).
    { apply Forall_forall. intros p Hp.
      apply (plain_cell_incl _ part); [|exact Hpart].
      intros c Hc. eapply split_char_chars; eauto. }
    assert (Het : plain_cell (u " et al."))
      by (apply plain_cell_literal; vm_compute; reflexivity).
    destruct (contains (u ", ") part); [|intros H; injection H as <-; exact Hpart].
    rewrite index0_split_char. cbn [bind].
    assert (Hfirst : plain_cell (strip (hd [] (split_char ch_comma part)))).
    { apply strip_plain. rewrite Forall_forall in Hpieces. apply Hpieces.
      destruct (split_char ch_comma part) as [|p ps] eqn:E;
        [exfalso; exact (split_char_nonempty _ _ E)|left; reflexivity]. }
    assert (Hjoin : plain_cell
                      (join (u ", ")
                            (map strip (firstn 3 (split_char ch_comma part))))).
    { apply join_plain; [apply plain_cell_literal; vm_compute; reflexivity|].
      apply Forall_forall. intros x Hx. apply in_map_iff in Hx as (p & <- & Hp).
      apply strip_plain. rewrite Forall_forall in Hpieces. apply Hpieces.
      eapply firstn_In. exact Hp. }
    destruct (contains (u "et al") _).
    + intros H. injection H as <-. apply plain_cell_app; assumption.
    + destruct (Nat.ltb 3 _); intros H; injection H as <-;
        [apply plain_cell_app|]; assumption.
  - destruct (contains (u ",") s).
    + rewrite index0_split_char. intros H. injection H as <-.
      apply (plain_cell_incl _ s); [|exact Hs]. intros c Hc.
      apply (split_char_chars ch_comma s (hd [] (split_char ch_comma s))); [|exact Hc].
      destruct (split_char ch_comma s) as [|p ps] eqn:E;
        [exfalso; exact (split_char_nonempty _ _ E)|left; reflexivity].
    + intros H. assert (E : au = firstn 50 s) by congruence.
      apply (plain_cell_incl _ s); [|exact Hs]. intros c Hc.
      rewrite E in Hc. eapply firstn_In. exact Hc.
Qed.

End EntryCells.

Lemma parse_title_cell (s : pystr) (ym : option rmatch) :
  plain_cell s ->
  plain_cell (parse_title s ym) /\
  (parse_title s ym = [] \/ ends_solid (parse_title s ym)).
Proof.
  intros Hs. unfold parse_title.
  destruct ym as [m|]; [|split; [split; intros []|left; reflexivity]].
  cbv zeta. set (after := strip (skipn (r_end m) s)).
  destruct (py_re_match TITLE_RE after) as [tm|];
    [|split; [split; intros []|left; reflexivity]].
  set (g := strip (group0 after tm)).
  assert (Hg : plain_cell g).
  { apply strip_plain. apply (plain_cell_incl _ s); [|exact Hs].
    intros c H. unfold group0, slice in H.
    apply firstn_In, skipn_In in H. unfold after in H.
    apply strip_In in H. eapply skipn_In. exact H. }
  assert (Ht : plain_cell (py_re_sub WS_RE (u " ") g)) by (apply sub_ws_plain, Hg).
  assert (He : py_re_sub WS_RE (u " ") g = []
               \/ ends_solid (py_re_sub WS_RE (u " ") g)).
  { destruct (strip_solid (group0 after tm)) as [E|[H1 H2]].
    - left. fold g in E. rewrite E. reflexivity.
    - right. apply sub_ws_solid; assumption. }
  destruct (Nat.ltb 100 _).
  - split.
    + apply plain_cell_app; [|apply plain_cell_literal; vm_compute; reflexivity].
      apply (plain_cell_incl _ (py_re_sub WS_RE (u " ") g)); [|exact Ht].
      intros c. apply firstn_In.
    + right. apply ends_solid_app. apply solidb_sound. vm_compute. reflexivity.
  - split; assumption.
Qed.

Lemma year_clean (y : pystr) : year_shape y = true -> clean_cell y.
Proof.
  intros Hy.
  assert (Hd : forall c, is_digit c = true \/ is_lower_az c = true ->
                         is_space c = false /\ c <> ch_pipe /\ c <> ch_nl).
  { unfold is_digit, is_lower_az, is_space, ch_pipe, ch_nl. intros c H.
    assert (Hr : (48 <= c <= 57) \/ (97 <= c <= 122)).
    { destruct H as [H|H]; apply andb_true_iff in H as [H1 H2];
        apply N.leb_le in H1; apply N.leb_le in H2; lia. }
    split; [|split; lia].
    repeat match goal with
           | |- (_ || _) = false => apply orb_false_iff; split
           | |- (_ && _) = false => apply andb_false_iff
           end;
      try (apply N.eqb_neq; lia);
      try (left; apply N.leb_gt; lia); try (right; apply N.leb_gt; lia). }
  assert (Hall : Forall (fun c => is_space c = false /\ c <> ch_pipe /\ c <> ch_nl) y).
  { unfold year_shape in Hy.
    destruct y as [|a [|b [|c [|d [|e [|f y]]]]]]; try discriminate.
    - apply andb_true_iff in Hy as [Hy H4]. apply andb_true_iff in Hy as [Hy H3].
      apply andb_true_iff in Hy as [H1 H2].
      repeat (apply Forall_cons; [apply Hd; auto|]). apply Forall_nil.
    - apply andb_true_iff in Hy as [Hy H5]. apply andb_true_iff in Hy as [Hy H4].
      apply andb_true_iff in Hy as [Hy H3]. apply andb_true_iff in Hy as [H1 H2].
      repeat (apply Forall_cons; [apply Hd; auto|]). apply Forall_nil. }
  rewrite Forall_forall in Hall.
  split; [intros H; apply Hall in H; tauto|].
  split; [intros H; apply Hall in H; tauto|].
  unfold strip. rewrite lstrip_no_space.
  - destruct (exists_last (l := y)) as (r & b & ->);
      [apply year_shape_nonempty; exact Hy|].
    apply rstrip_snoc. apply Hall. apply in_or_app. right. left. reflexivity.
  - apply Forall_forall. intros c H. apply Hall. exact H.
Qed.

Lemma ref_display_clean (au y ti : pystr) :
  starts_solid au -> plain_cell au -> clean_cell y ->
  plain_cell ti -> (ti = [] \/ ends_solid ti) ->
  clean_cell (ref_display au y ti).
Proof.
  intros Ha Hp (Hy1 & Hy2 & _) Ht He.
  assert (Hy : plain_cell y) by (split; assumption).
  assert (Hd : plain_cell (au ++ u " (" ++ y ++ u ")")).
  { apply plain_cell_app; [exact Hp|].
    apply plain_cell_app; [apply plain_cell_literal; vm_compute; reflexivity|].
    apply plain_cell_app; [exact Hy|].
    apply plain_cell_literal; vm_compute; reflexivity. }
  assert (Hplain : plain_cell (ref_display au y ti)).
  { unfold ref_display. cbv zeta. destruct ti as [|c ti]; [exact Hd|].
    apply plain_cell_app; [exact Hd|].
    apply plain_cell_app; [|exact Ht].
    apply plain_cell_literal; vm_compute; reflexivity. }
  destruct Hplain as [H1 H2]. split; [exact H1|]. split; [exact H2|].
  apply solid_strip; unfold ref_display; cbv zeta.
  - destruct ti; repeat apply starts_solid_app; exact Ha.
  - destruct ti as [|c ti].
    + do 3 apply ends_solid_app. apply solidb_sound. vm_compute. reflexivity.
    + destruct He as [He|He]; [discriminate|].
      do 2 apply ends_solid_app. exact He.
Qed.

Lemma doi_clean (s : pystr) :
  plain_cell s ->
  clean_cell (match py_re_search DOI_RE s with
              | Some dm => group0 s dm
              | None => []
              end).
Proof.
  intros Hs. destruct (py_re_search DOI_RE s) as [dm|] eqn:E;
    [|repeat split; auto].
  apply doi_search_sound in E as (pre & tail & post & Hsplit & Hd & Hne & Ht & _).
  assert (Hp : plain_cell (group0 s dm)).
  { apply (plain_cell_incl _ s); [|exact Hs]. intros c H.
    rewrite Hsplit. apply in_or_app. right. apply in_or_app. left. exact H. }
  destruct Hp as [H1 H2]. split; [exact H1|]. split; [exact H2|].
  apply solid_strip.
  - destruct Hd as [-> | ->]; apply starts_solid_app;
      apply solidb_sound; vm_compute; reflexivity.
  - destruct (exists_last Hne) as (r & b & ->).
    assert (Hb : is_space b = false)
      by (apply Ht; apply in_or_app; right; left; reflexivity).
    destruct Hd as [-> | ->]; apply ends_solid_app; exists r, b; auto.
Qed.

(** *** The cells of a row *)

Lemma extracted_well_formed (text : pystr) :
  Forall well_formed_entry (extract_references_from_text text).
Proof.
  unfold extract_references_from_text.
  destruct (py_find BIB_MARKER text) as [bib_start|]; [|constructor].
  cbv zeta.
  set (section := match py_find NEXT_SECTION (skipn bib_start text) with
                  | Some bib_end => firstn bib_end (skipn bib_start text)
                  | None => skipn bib_start text
                  end).
  pose proof (segment_fold_inv (split_char ch_nl section)
                (split_char_pieces ch_nl section) ([], [])) as Hinv.
  destruct (fold_left segment_step (split_char ch_nl section) ([], []))
    as [refs cur] eqn:E.
  assert (H0 : segment_inv ([], [])) by (split; [constructor|exact I]).
  specialize (Hinv H0). apply flush_ref_inv in Hinv. exact Hinv.
Qed.

Section ProgramCells.

Variable lower : pystr -> pystr.
Variable ci_eq : char -> char -> bool.
Variable py_set : PySet.

Lemma classify_context_label (ctx : pystr) :
  In (classify_context lower ctx) USAGE_LABELS.
Proof.
  unfold classify_context, USAGE_LABELS. cbv zeta.
  repeat match goal with
         | |- context [if ?b then _ else _] => destruct b
         end; simpl; auto 10.
Qed.

Lemma usage_clean (text : pystr) (ref_parsed : ParsedReference)
      (usage_desc : pystr) (importance : Z) :
  analyze_reference_usage lower ci_eq (elements py_set) text ref_parsed
  = Some (usage_desc, importance) ->
  clean_cell usage_desc.
Proof.
  unfold analyze_reference_usage.
  destruct (find_reference_citations_some lower ci_eq text ref_parsed) as [cs Hcs].
  rewrite Hcs. cbn [bind]. destruct cs as [|c cs].
  - intros H. injection H as <- _. apply literal_clean; vm_compute; reflexivity.
  - cbv zeta. rewrite usage_contexts_of_map.
    set (labels := map (fun c0 => classify_context lower (context c0))
                       (firstn 3 (c :: cs))).
    assert (Hl : forall l, In l labels -> In l USAGE_LABELS).
    { intros l H. apply in_map_iff in H as (c0 & <- & _).
      apply classify_context_label. }
    destruct labels as [|l0 ls] eqn:El.
    + intros H. injection H as <- _. apply literal_clean; vm_compute; reflexivity.
    + intros H. injection H as <- _.
      set (order := elements py_set (l0 :: ls)).
      assert (Hin : forall l, In l order -> In l USAGE_LABELS).
      { intros l H. apply Hl. apply (elements_In py_set). exact H. }
      assert (Hne : order <> []).
      { intros E. assert (H : In l0 order)
          by (apply (elements_In py_set); left; reflexivity).
        rewrite E in H. contradiction. }
      destruct (join_solid (u ", ") order Hne) as [H1 H2].
      { apply Forall_forall. intros l H.
        destruct (usage_label_facts l (Hin l H)) as (Ha & Hb & _). auto. }
      assert (Hp : plain_cell (join (u ", ") order)).
      { apply join_plain; [apply plain_cell_literal; vm_compute; reflexivity|].
        apply Forall_forall. intros l H.
        apply (usage_label_facts l (Hin l H)). }
      destruct Hp as [Hp1 Hp2]. split; [exact Hp1|]. split; [exact Hp2|].
      apply solid_strip; assumption.
Qed.

Lemma analyze_entry_clean (text ref_text : pystr) :
  well_formed_entry ref_text -> ~ In ch_pipe ref_text ->
  exists row,
    analyze_entry lower ci_eq (elements py_set) text ref_text = Some row /\
    clean_row row.
Proof.
  intros (_ & Hnl & _ & a & t & -> & Ha) Hpipe.
  set (e := a :: t) in *.
  assert (He : plain_cell e) by (split; assumption).
  destruct (upper_solid a Ha) as (Hs & _ & Hlp).
  destruct (parse_reference_some lower e) as (au & Hau & Hr).
  unfold analyze_entry. rewrite Hr. cbn [bind].
  match goal with
  | |- context [analyze_reference_usage _ _ _ _ ?p] =>
    destruct (analyze_reference_usage_some lower ci_eq (elements py_set) text p)
      as (d & i & Hd & _ & _);
      pose proof (usage_clean text p d i Hd) as Hu
  end.
  rewrite Hd. cbn [bind]. eexists. split; [reflexivity|].
  unfold clean_row. cbn [reference theme usage row_year link display year doi].
  assert (Hy : clean_cell (match py_re_search YEAR_RE e with
                           | Some ym => group1 e ym
                           | None => []
                           end)).
  { destruct (py_re_search YEAR_RE e) as [ym|] eqn:E; [|repeat split; auto].
    apply year_search_some in E as (pre & y & post & [Hsh _] & _ & _ & Hg & _).
    rewrite Hg. apply year_clean. exact Hsh. }
  split; [|split; [|split; [exact Hu|split; [exact Hy|apply doi_clean; exact He]]]].
  - destruct (parse_title_cell e (py_re_search YEAR_RE e) He) as [Ht1 Ht2].
    apply ref_display_clean;
      [|exact (parse_authors_plain lower e (py_re_search YEAR_RE e) au He Hau)
       |exact Hy|exact Ht1|exact Ht2].
    destruct (parse_authors_head lower a t (py_re_search YEAR_RE e) au Ha)
      as [t' Et]; [|exact Hau|rewrite Et; exists a, t'; auto].
    intros m Em. apply year_search_some in Em
      as (pre & y & post & [_ Hsplit] & Hst & _).
    rewrite Hst. destruct pre as [|p pre]; [|simpl; lia].
    unfold e in Hsplit. cbn [app] in Hsplit. injection Hsplit as Hsplit _.
    contradiction.
  - apply theme_label_clean. apply categorize_theme_label.
Qed.

(** When no entry of the bibliography holds a pipe, the table that the
    script prints is read back by [parse_markdown_table] as it was
    written: the six headers and, for every entry in order, the six cells
    of its row, up to the repair of mis-encoded words. *)
Theorem main_table_parses (text : pystr) :
  Forall (fun ref_text => ~ In ch_pipe ref_text)
         (extract_references_from_text text) ->
  exists results,
    main_results lower ci_eq (elements py_set) text = Some results /\
    main lower ci_eq (elements py_set) text = Some (emit_table results) /\
    List.length results = List.length (extract_references_from_text text) /\
    parse_markdown_table (emit_table results) =
    (TABLE_HEADERS, map (fun r => map fix_cell (row_cells r)) results).
Proof.
  intros Hpipe. unfold main, main_results.
  pose proof (extracted_well_formed text) as Hwf.
  assert (H : exists results,
             analyze_entries lower ci_eq (elements py_set) text
                             (extract_references_from_text text)
             = Some results /\
             List.length results
             = List.length (extract_references_from_text text) /\
             Forall clean_row results).
  { induction Hwf as [|e es He Hes IH].
    - exists []. repeat split. constructor.
    - inversion Hpipe as [|? ? Hp Hps]; subst.
      destruct (IH Hps) as (rs & Hrs & Hlen & Hclean).
      destruct (analyze_entry_clean text e He Hp) as (row & Hrow & Hc).
      exists (row :: rs). cbn [analyze_entries]. rewrite Hrow, Hrs. cbn [bind].
      split; [reflexivity|]. split; [simpl; lia|]. constructor; assumption. }
  destruct H as (results & Hrs & Hlen & Hclean).
  exists results. rewrite Hrs. cbn [bind].
  split; [reflexivity|]. split; [reflexivity|]. split; [exact Hlen|].
  unfold parse_markdown_table.
  pose proof (emitted_lines results Hclean) as Hsplit.
  destruct (emit_table results) as [|c rest] eqn:E.
  { cbn in Hsplit. discriminate. }
  rewrite Hsplit, (kept_lines results Hclean). clear Hsplit E c rest.
  cbv zeta. cbn [List.length Nat.ltb Nat.leb].
  rewrite (data_lines_of_table results Hclean).
  replace (map fix_header (split_cells HEADER_LINE)) with TABLE_HEADERS
    by (vm_compute; reflexivity).
  change (List.length TABLE_HEADERS) with 6%nat.
  rewrite (parsed_rows results Hclean). reflexivity.
Qed.

End ProgramCells.

Lemma main_table_parses_witness :
  exists results,
    main lower_latin1 ci_eq_latin1 (elements (table_set length_slot)) ex_document
    = Some (emit_table results) /\
    List.length results = 1%nat.
Proof.
  assert (E : extract_references_from_text ex_document = [ex_entry])
    by (vm_compute; reflexivity).
  destruct (main_table_parses lower_latin1 ci_eq_latin1 (table_set length_slot)
              ex_document) as (results & _ & Hm & Hl & _).
  - rewrite E. constructor; [|constructor].
    apply not_in_char. vm_compute. reflexivity.
  - exists results. split; [exact Hm|]. rewrite Hl, E. reflexivity.
Defined.

(** ** When a usage is detected *)

Section Detection.

Variable lower : pystr -> pystr.
Variable ci_eq : char -> char -> bool.
Variable set_iter : list pystr -> list pystr.

(** A reference is cited exactly when it has a year and the text holds
    this year in parentheses. *)
Lemma find_reference_citations_nil (text : pystr) (ref_parsed : ParsedReference) :
  find_reference_citations lower ci_eq text ref_parsed = Some []
  <-> year ref_parsed = [] \/ ~ cites_year ci_eq (year ref_parsed) text.
Proof.
  destruct (year ref_parsed) as [|y0 ys] eqn:Ey.
  { unfold find_reference_citations. rewrite Ey. tauto. }
  assert (Hy : year ref_parsed <> []) by (rewrite Ey; discriminate).
  rewrite <- Ey. clear Ey y0 ys.
  destruct (find_reference_citations_split lower ci_eq text ref_parsed Hy)
    as (p1 & cs & Hp1 & Hcs & Heq).
  assert (Hne : year_atoms ci_eq (year ref_parsed) <> [])
    by (unfold year_atoms; discriminate).
  split.
  - intros H. right. intros [j Hj].
    assert (E : cs = []) by congruence. rewrite E in Heq.
    symmetry in Heq. apply app_eq_nil in Heq as [_ H2].
    apply map_eq_nil in H2.
    pose proof (count_lit_occurrence _ Hne j text Hj) as Hc.
    unfold count_lit in Hc at 2.
    unfold py_re_finditer, pattern2 in H2. rewrite year_pattern_ones in H2.
    rewrite H2 in Hc. simpl in Hc. lia.
  - intros [H|Hno]; [contradiction|].
    rewrite Hcs. f_equal. destruct cs as [|c cs]; [reflexivity|].
    exfalso. apply Hno.
    destruct (citation_origin lower ci_eq text ref_parsed (c :: cs) c Hcs)
      as (i & j & e & _ & _ & _ & _ & _ & Hp); [left; reflexivity|].
    exists j. exact Hp.
Qed.

(** The verdict that no usage was detected, with the importance 30, is
    given exactly to the references without year and to those whose
    parenthesized year the text holds nowhere. Every other reference gets
    an importance of at least 50. *)
Theorem analyze_reference_usage_undetected
        (text : pystr) (ref_parsed : ParsedReference) :
  exists usage_desc importance,
    analyze_reference_usage lower ci_eq set_iter text ref_parsed
    = Some (usage_desc, importance) /\
    (year ref_parsed = [] \/ ~ cites_year ci_eq (year ref_parsed) text ->
     usage_desc = DEFAULT_USAGE /\ importance = 30%Z) /\
    (year ref_parsed <> [] -> cites_year ci_eq (year ref_parsed) text ->
     (50 <= importance)%Z).
Proof.
  unfold analyze_reference_usage.
  destruct (find_reference_citations_some lower ci_eq text ref_parsed) as [cs Hcs].
  pose proof (find_reference_citations_nil text ref_parsed) as Hnil.
  rewrite Hcs in *. cbn [bind]. destruct cs as [|c cs].
  - do 2 eexists. split; [reflexivity|]. split; [auto|].
    intros Hy Hc. destruct (proj1 Hnil eq_refl) as [H|H]; contradiction.
  - do 2 eexists. split; [reflexivity|]. split.
    + intros H. apply Hnil in H. discriminate.
    + intros _ _. unfold base_importance.
      destruct (_ || _);
        destruct (Nat.ltb 5 _); try lia;
        destruct (Nat.ltb 2 _); try lia;
        destruct (Nat.ltb 0 _); lia.
Qed.

End Detection.
